(** * calmjs.parse.obfuscator: name mangling over a tree of scopes

    A shallow embedding of [src/calmjs/parse/obfuscator.py] and the
    properties of its three classes: [NameGenerator], [Scope] and
    [Obfuscator].

    Python objects are mutable and shared: a [Scope] is reached from its
    parent's [children] list, from its children's [parent] attribute, from the
    obfuscator's [stack] and from its [identifiers] table.  The embedding
    therefore keeps every [Scope] object in a heap (a list indexed by the
    address of the object, in allocation order) and every attribute that holds
    a scope holds its address. *)

From Stdlib Require Import ZArith Ascii String Lia.
From stdpp Require Import base option list sorting gmap strings.

#[local] Set Warnings "-clear-no-such-hyp".

Local Open Scope string_scope.
Local Open Scope list_scope.
Local Open Scope nat_scope.

(** ** Outcomes of a call *)

Inductive exn :=
| ValueError (msg : string)
| IndexError (msg : string).

(** A method that mutates the state [S] either returns, raises (the state is
    the one the exception leaves behind), or does not return. *)
Inductive outcome (S : Type) :=
| Normal (s : S)
| Raised (e : exn) (s : S)
| Diverged.
Arguments Normal {S} s.
Arguments Raised {S} e s.
Arguments Diverged {S}.

Definition bind {S : Type} (o : outcome S) (k : S → outcome S) : outcome S :=
  match o with
  | Normal s => k s
  | Raised e s => Raised e s
  | Diverged => Diverged
  end.

(** ** Python [dict]: insertion ordered, keyed by strings *)

Module Dict.
Section dict.
Context {V : Type}.

(** [d.get(k)] *)
Fixpoint get (k : string) (d : list (string * V)) : option V :=
  match d with
  | [] => None
  | (k', v) :: d' => if decide (k = k') then Some v else get k d'
  end.

(** [d[k] = v]: an existing key keeps its position, a new one goes last. *)
Fixpoint set (k : string) (v : V) (d : list (string * V)) : list (string * V) :=
  match d with
  | [] => [(k, v)]
  | (k', v') :: d' =>
      if decide (k = k') then (k, v) :: d' else (k', v') :: set k v d'
  end.

(** iteration over the dict: its keys in insertion order *)
Definition keys (d : list (string * V)) : list string := d.*1.

Definition values (d : list (string * V)) : list V := d.*2.
End dict.
End Dict.

(** ** itertools and builtins *)

(** [itertools.product(pool, repeat=n)], as the library documents it:
    [result = [[]]], then [repeat] times
    [result = [x+[y] for x in result for y in pool]]. *)
Fixpoint product (pool : list ascii) (repeat : nat) : list (list ascii) :=
  match repeat with
  | O => [[]]
  | S r => x ← product pool r; (λ y, x ++ [y]) <$> pool
  end.

(** [''.join(chars)] *)
Definition join (chars : list ascii) : string := string_of_list_ascii chars.

(** [sorted(items, key=itemgetter(1))]: the stable ascending sort on the
    second component.  The elements are inserted from the last to the first,
    each in front of the first element whose key is not smaller, so equal
    keys keep the order they had. *)
Fixpoint insert_by_count {A : Type} (x : A * Z) (l : list (A * Z)) : list (A * Z) :=
  match l with
  | [] => [x]
  | y :: l' => if bool_decide (x.2 ≤ y.2)%Z then x :: y :: l' else y :: insert_by_count x l'
  end.

Definition sorted_by_count {A : Type} (l : list (A * Z)) : list (A * Z) :=
  foldr insert_by_count [] l.

(** ** NameGenerator *)

Definition ID_CHARS : string :=
  "abcdefghijklmnopqrstuvwxyzABCDEFGHIJKLMNOPQRSTUVWXYZ_".

Module NameGenerator.

(** [skip] and [charset] are the attributes of the object.  [iter_n] and
    [iter_pending] are the frame of the suspended generator [__iterself]:
    the current [n] of [count(1)] and the tuples of
    [product(self.charset, repeat=n)] not drawn yet.  A generator that has
    not started has [iter_n = 0] and nothing pending. *)
Record t := mk {
  skip : gset string;
  charset : string;
  iter_n : nat;
  iter_pending : list (list ascii);
}.

(** [__init__(self, skip, charset)], [skip] already made a set *)
Definition init (skip : gset string) (charset : string) : t :=
  {| skip := skip; charset := charset; iter_n := O; iter_pending := [] |}.

(** [__call__(self, skip)] *)
Definition call (self : t) (skip' : gset string) : t :=
  init (skip' ∪ skip self) (charset self).

(** The inner [for chars in product(...)] loop, up to its next [yield]. *)
Fixpoint scan (skip : gset string) (pending : list (list ascii))
  : option (string * list (list ascii)) :=
  match pending with
  | [] => None
  | chars :: rest =>
      let symbol := join chars in
      if decide (symbol ∈ skip) then scan skip rest else Some (symbol, rest)
  end.

(** [__next__]: resume the generator.  [lengths] bounds how many further
    values of [n] the outer loop may take; [None] is a loop still running
    when the bound is reached. *)
Fixpoint next_upto (lengths : nat) (self : t) : option (string * t) :=
  match scan (skip self) (iter_pending self) with
  | Some (symbol, rest) =>
      Some (symbol, {| skip := skip self; charset := charset self;
                       iter_n := iter_n self; iter_pending := rest |})
  | None =>
      match lengths with
      | O => None
      | S lengths' =>
          let n := S (iter_n self) in
          next_upto lengths'
            {| skip := skip self; charset := charset self; iter_n := n;
               iter_pending := product (list_ascii_of_string (charset self)) n |}
      end
  end.

(** No name longer than every member of [skip] is skipped, so the outer
    loop yields at the latest one length beyond the longest of them, unless
    the charset is empty and it never yields. *)
Definition longest (skip : gset string) : nat :=
  max_list (String.length <$> elements skip).

Definition next (self : t) : option (string * t) :=
  next_upto (S (longest (skip self))) self.

(** the first [k] names of [next], and the generator after them *)
Fixpoint draw (k : nat) (self : t) : option (list string * t) :=
  match k with
  | O => Some ([], self)
  | S k' =>
      match next self with
      | None => None
      | Some (symbol, self') =>
          match draw k' self' with
          | None => None
          | Some (l, self'') => Some (symbol :: l, self'')
          end
      end
  end.

End NameGenerator.

(** The sequence the specification describes: all combinations of length 1
    in alphabet order, then all of length 2, and so on up to length [N],
    without the members of the exclusion set. *)
Fixpoint combinations (alphabet : list ascii) (n : nat) : list string :=
  match n with
  | O => [""]
  | S n' => c ← alphabet; String c <$> combinations alphabet n'
  end.

Definition candidates (alphabet : list ascii) (N : nat) : list string :=
  n ← seq 1 N; combinations alphabet n.

Definition spec_names (alphabet : list ascii) (exclusion : gset string) (N : nat)
  : list string :=
  filter (λ s, s ∉ exclusion) (candidates alphabet N).

(** Length first, then position in the alphabet, character by character. *)
Fixpoint index_of (c : ascii) (alphabet : list ascii) : nat :=
  match alphabet with
  | [] => O
  | a :: alphabet' => if decide (c = a) then O else S (index_of c alphabet')
  end.

Fixpoint lex_lt (alphabet : list ascii) (s1 s2 : string) : Prop :=
  match s1, s2 with
  | String c1 s1', String c2 s2' =>
      (index_of c1 alphabet < index_of c2 alphabet)%nat ∨ (c1 = c2 ∧ lex_lt alphabet s1' s2')
  | _, _ => False
  end.

Definition shortlex_lt (alphabet : list ascii) (s1 s2 : string) : Prop :=
  (String.length s1 < String.length s2)%nat ∨
  (String.length s1 = String.length s2 ∧ lex_lt alphabet s1 s2).


(** ** Scope *)

Module Scope.

(** [parent] and [children] hold addresses of [Scope] objects in the heap;
    [node] is the identity of the AST node that opened the scope. *)
Record t := mk {
  _closed : bool;
  node : option nat;
  parent : option nat;
  children : list nat;
  referenced_symbols : list (string * Z);
  local_declared_symbols : gset string;
  remapped_symbols : list (string * string);
}.

(** [__init__(self, node, parent=None)] *)
Definition init (node : option nat) (parent : option nat) : t :=
  {| _closed := false; node := node; parent := parent; children := [];
     referenced_symbols := []; local_declared_symbols := ∅;
     remapped_symbols := [] |}.

#[global] Instance inhabited : Inhabited t := populate (init None None).

(** attribute assignments *)
Definition set_closed (b : bool) (s : t) : t :=
  mk b (node s) (parent s) (children s) (referenced_symbols s)
     (local_declared_symbols s) (remapped_symbols s).
Definition set_children (c : list nat) (s : t) : t :=
  mk (_closed s) (node s) (parent s) c (referenced_symbols s)
     (local_declared_symbols s) (remapped_symbols s).
Definition set_referenced_symbols (r : list (string * Z)) (s : t) : t :=
  mk (_closed s) (node s) (parent s) (children s) r
     (local_declared_symbols s) (remapped_symbols s).
Definition set_local_declared_symbols (d : gset string) (s : t) : t :=
  mk (_closed s) (node s) (parent s) (children s) (referenced_symbols s)
     d (remapped_symbols s).
Definition set_remapped_symbols (r : list (string * string)) (s : t) : t :=
  mk (_closed s) (node s) (parent s) (children s) (referenced_symbols s)
     (local_declared_symbols s) r.

(** The properties that walk the tree recurse on the object graph; [depth]
    bounds the recursion.  On the heaps the obfuscator builds a parent has a
    smaller address than its children, so the number of scopes is enough. *)

Fixpoint declared_symbols_at (depth : nat) (h : list t) (self : nat) : gset string :=
  match depth with
  | O => ∅
  | S d =>
      local_declared_symbols (h !!! self) ∪
        match parent (h !!! self) with
        | Some p => declared_symbols_at d h p
        | None => ∅
        end
  end.

Definition declared_symbols (h : list t) (self : nat) : gset string :=
  declared_symbols_at (length h) h self.

Definition global_symbols (h : list t) (self : nat) : gset string :=
  let declared_symbols := declared_symbols h self in
  list_to_set
    (filter (λ s, s ∉ declared_symbols)
            (Dict.keys (referenced_symbols (h !!! self)))).

Fixpoint global_symbols_in_children_at (depth : nat) (h : list t) (self : nat)
  : gset string :=
  match depth with
  | O => ∅
  | S d =>
      foldl (λ result child,
               result ∪ (global_symbols h child ∪
                         global_symbols_in_children_at d h child))
            ∅ (children (h !!! self))
  end.

Definition global_symbols_in_children (h : list t) (self : nat) : gset string :=
  global_symbols_in_children_at (length h) h self.

Definition leaked_referenced_symbols (s : t) : list (string * Z) :=
  filter (λ kv, kv.1 ∉ local_declared_symbols s) (referenced_symbols s).

Definition declare (h : list t) (self : nat) (symbol : string) : outcome (list t) :=
  Normal
    (alter (λ s,
              let s := set_local_declared_symbols
                         (local_declared_symbols s ∪ {[symbol]}) s in
              set_referenced_symbols
                (Dict.set symbol
                   (default 0%Z (Dict.get symbol (referenced_symbols s)))
                   (referenced_symbols s)) s)
           self h).

Definition reference (h : list t) (self : nat) (symbol : string) : outcome (list t) :=
  Normal
    (alter (λ s,
              set_referenced_symbols
                (Dict.set symbol
                   (default 0%Z (Dict.get symbol (referenced_symbols s)) + 1)%Z
                   (referenced_symbols s)) s)
           self h).

(** one pass of the inner loop of [close]: [self] claims one leaked entry *)
Definition claim (self : nat) (h : list t) (kv : string * Z) : list t :=
  alter (λ s,
           set_referenced_symbols
             (Dict.set kv.1
                (default 0%Z (Dict.get kv.1 (referenced_symbols s)) + kv.2)%Z
                (referenced_symbols s)) s)
        self h.

Definition close (h : list t) (self : nat) : outcome (list t) :=
  if _closed (h !!! self) then
    Raised (ValueError "scope is already marked as closed") h
  else
    let h :=
      foldl (λ h child,
               foldl (claim self) h (leaked_referenced_symbols (h !!! child)))
            h (children (h !!! self)) in
    Normal (alter (set_closed true) self h).

Fixpoint close_all_at (depth : nat) (h : list t) (self : nat) : outcome (list t) :=
  match depth with
  | O => Diverged
  | S d =>
      bind (foldl (λ o child, bind o (λ h, close_all_at d h child))
                  (Normal h) (children (h !!! self)))
           (λ h, close h self)
  end.

Definition close_all (h : list t) (self : nat) : outcome (list t) :=
  close_all_at (S (length h)) h self.

(** the argument of [name_generator(skip=...)] in [build_remap_symbols] *)
Definition remap_skip (h : list t) (self : nat) : gset string :=
  let s := h !!! self in
  let parent_remapped_symbols :=
    match parent s with
    | Some p => remapped_symbols (h !!! p)
    | None => []
    end in
  global_symbols_in_children h self
  ∪ list_to_set
      (snd <$> filter (λ kv, kv.1 ∈ Dict.keys (referenced_symbols s) ∧
                             kv.1 ∉ local_declared_symbols s)
                      parent_remapped_symbols)
  ∪ global_symbols h self.

(** the [for symbol, c in ...] loop of [build_remap_symbols] *)
Fixpoint remap_loop (items : list (string * Z)) (declared : gset string)
    (replacement : NameGenerator.t) (remapped : list (string * string))
  : option (list (string * string)) :=
  match items with
  | [] => Some remapped
  | (symbol, c) :: items' =>
      if decide (symbol ∉ declared) then
        remap_loop items' declared replacement remapped
      else
        match NameGenerator.next replacement with
        | None => None
        | Some (name, replacement') =>
            remap_loop items' declared replacement'
                       (Dict.set symbol name remapped)
        end
  end.

(** the body of [if not children_only:] *)
Definition remap_own (h : list t) (self : nat) (name_generator : NameGenerator.t)
  : outcome (list t) :=
  let s := h !!! self in
  let replacement := NameGenerator.call name_generator (remap_skip h self) in
  match remap_loop (reverse (sorted_by_count (referenced_symbols s)))
                   (local_declared_symbols s) replacement
                   (remapped_symbols s) with
  | None => Diverged
  | Some remapped => Normal (alter (set_remapped_symbols remapped) self h)
  end.

Fixpoint build_remap_symbols_at (depth : nat) (h : list t) (self : nat)
    (name_generator : NameGenerator.t) (children_only : bool)
  : outcome (list t) :=
  match depth with
  | O => Diverged
  | S d =>
      bind (if children_only then Normal h else remap_own h self name_generator)
           (λ h,
              foldl (λ o child,
                       bind o (λ h, build_remap_symbols_at d h child
                                      name_generator false))
                    (Normal h) (children (h !!! self)))
  end.

Definition build_remap_symbols (h : list t) (self : nat)
    (name_generator : NameGenerator.t) (children_only : bool)
  : outcome (list t) :=
  build_remap_symbols_at (S (length h)) h self name_generator children_only.

(** the [while] loop of [resolve]; it returns [result] *)
Fixpoint resolve_loop (depth : nat) (h : list t) (scope : option nat)
    (symbol : string) : option string :=
  match depth, scope with
  | S d, Some a =>
      match Dict.get symbol (remapped_symbols (h !!! a)) with
      | Some result => Some result
      | None => resolve_loop d h (parent (h !!! a)) symbol
      end
  | _, _ => None
  end.

(** [return result or symbol]: [None] and the empty string are falsy *)
Definition resolve (h : list t) (self : nat) (symbol : string) : string :=
  match resolve_loop (length h) h (Some self) symbol with
  | Some result => if decide (result = "") then symbol else result
  | None => symbol
  end.

(** [nest]: the new object takes the next free address *)
Definition nest (h : list t) (self : nat) (node : nat) : list t * nat :=
  let nested_scope := length h in
  (alter (λ s, set_children (children s ++ [nested_scope]) s) self
         (h ++ [init (Some node) (Some self)]),
   nested_scope).

End Scope.

(** ** Obfuscator *)

(** Modelled from the spec: [asttypes.Identifier] is not among the sources.
    An occurrence is keyed by a stable identity ([ident]) and carries its
    literal text ([value]). *)
Record Identifier := { ident : nat; value : string }.

(** Modelled from the spec: the traversal engine ([unparsers.walker]) is not
    among the sources.  It calls the four handlers in document order; a walk
    is the list of the calls it makes.  The events carry the names of the
    rule types of [ruletypes], but for the declare rule, whose name is a
    keyword here. *)
Inductive event :=
| PushScope (node : nat)
| PopScope (node : nat)
| DeclareSymbol (node : Identifier)
| Resolve (node : Identifier).

Module Obfuscator.

(** [stack] is a Python list: the top of the stack is its last element.
    [heap] holds the [Scope] objects the attributes point to. *)
Record t := mk {
  identifiers : gmap nat nat;
  scopes : gmap nat nat;
  stack : list nat;
  obfuscate_globals : bool;
  reserved_keywords : list string;
  global_scope : nat;
  heap : list Scope.t;
}.

Definition set_heap (h : list Scope.t) (self : t) : t :=
  mk (identifiers self) (scopes self) (stack self) (obfuscate_globals self)
     (reserved_keywords self) (global_scope self) h.
Definition set_stack (s : list nat) (self : t) : t :=
  mk (identifiers self) (scopes self) s (obfuscate_globals self)
     (reserved_keywords self) (global_scope self) (heap self).
Definition set_scopes (m : gmap nat nat) (self : t) : t :=
  mk (identifiers self) m (stack self) (obfuscate_globals self)
     (reserved_keywords self) (global_scope self) (heap self).
Definition set_identifiers (m : gmap nat nat) (self : t) : t :=
  mk m (scopes self) (stack self) (obfuscate_globals self)
     (reserved_keywords self) (global_scope self) (heap self).

(** [__init__(self, obfuscate_globals=False, reserved_keywords=())] *)
Definition init (obfuscate_globals : bool) (reserved_keywords : list string) : t :=
  {| identifiers := ∅; scopes := ∅; stack := [O];
     obfuscate_globals := obfuscate_globals;
     reserved_keywords := reserved_keywords;
     global_scope := O; heap := [Scope.init None None] |}.

(** [self.stack[-1]] *)
Definition current_scope (self : t) : option nat := last (stack self).

(** a call on a scope, run on the obfuscator's heap *)
Definition on_heap (self : t) (o : outcome (list Scope.t)) : outcome t :=
  match o with
  | Normal h => Normal (set_heap h self)
  | Raised e h => Raised e (set_heap h self)
  | Diverged => Diverged
  end.

Definition push_scope (self : t) (node : nat) : outcome t :=
  match current_scope self with
  | None => Raised (IndexError "list index out of range") self
  | Some current =>
      let '(h, scope) := Scope.nest (heap self) current node in
      let self := set_heap h self in
      let self := set_scopes (<[node := scope]> (scopes self)) self in
      Normal (set_stack (stack self ++ [scope]) self)
  end.

Definition pop_scope (self : t) (node : nat) : outcome t :=
  match last (stack self) with
  | None => Raised (IndexError "pop from empty list") self
  | Some scope =>
      let self := set_stack (removelast (stack self)) self in
      on_heap self (Scope.close (heap self) scope)
  end.

Definition declare (self : t) (node : Identifier) : outcome t :=
  match current_scope self with
  | None => Raised (IndexError "list index out of range") self
  | Some current => on_heap self (Scope.declare (heap self) current (value node))
  end.

Definition reference (self : t) (node : Identifier) : outcome t :=
  match current_scope self with
  | None => Raised (IndexError "list index out of range") self
  | Some current =>
      let self := set_identifiers (<[ident node := current]> (identifiers self)) self in
      on_heap self (Scope.reference (heap self) current (value node))
  end.

Definition resolve (self : t) (node : Identifier) : string :=
  match identifiers self !! ident node with
  | None => value node
  | Some scope => Scope.resolve (heap self) scope (value node)
  end.

(** the handlers [walk] installs in its dispatcher *)
Definition handle (self : t) (e : event) : outcome t :=
  match e with
  | PushScope node => push_scope self node
  | PopScope node => pop_scope self node
  | DeclareSymbol node => declare self node
  | Resolve node => reference self node
  end.

Definition walk (self : t) (events : list event) : outcome t :=
  foldl (λ o e, bind o (λ self, handle self e)) (Normal self) events.

Definition finalize (self : t) : outcome t :=
  bind (on_heap self (Scope.close (heap self) (global_scope self)))
       (λ self,
          let name_generator :=
            NameGenerator.init (list_to_set (reserved_keywords self)) ID_CHARS in
          on_heap self
            (Scope.build_remap_symbols (heap self) (global_scope self)
               name_generator (negb (obfuscate_globals self)))).

Definition prewalk_hook (self : t) (events : list event) : outcome t :=
  bind (walk self events) finalize.

End Obfuscator.

Definition outcome_map {S T : Type} (f : S → T) (o : outcome S) : outcome T :=
  match o with
  | Normal s => Normal (f s)
  | Raised e s => Raised e (f s)
  | Diverged => Diverged
  end.

(** one entry claimed into a dictionary of counts *)
Definition claim_dict (d : list (string * Z)) (kv : string * Z) : list (string * Z) :=
  Dict.set kv.1 (default 0%Z (Dict.get kv.1 d) + kv.2)%Z d.

(** the counts of [k] in a list of entries, added up *)
Definition total (k : string) (l : list (string * Z)) : Z :=
  foldr (λ kv acc, if decide (kv.1 = k) then (kv.2 + acc)%Z else acc) 0%Z l.

(** what the scopes [children] leak for [k], added up *)
Definition leaked_count (h : list Scope.t) (children : list nat) (k : string) : Z :=
  foldr (λ child acc,
           (default 0%Z (Dict.get k (Scope.leaked_referenced_symbols (h !!! child))) + acc)%Z)
        0%Z children.

Definition I (i : nat) (v : string) : Identifier := {| ident := i; value := v |}.

(** [function f(){ return x; } function g(){ return x; }] *)
Definition two_leaking_children : list event :=
  [PushScope 1; Resolve (I 1 "x"); PopScope 1;
   PushScope 2; Resolve (I 2 "x"); PopScope 2].

(** [function f(){ var x; return x; }]: the declaring occurrence 1 and the
    referencing occurrence 2 of [x] *)
Definition declared_then_used : list event :=
  [PushScope 1; DeclareSymbol (I 1 "x"); Resolve (I 2 "x"); PopScope 1].

(** The names a generator has still to yield, up to length [N]: what is
    pending of the current length, then the longer combinations, without the
    skipped ones. *)
Definition remaining (g : NameGenerator.t) (N : nat) : list string :=
  filter (λ s, s ∉ NameGenerator.skip g)
    ((join <$> NameGenerator.iter_pending g) ++
     (n ← seq (S (NameGenerator.iter_n g)) (N - NameGenerator.iter_n g);
      combinations (list_ascii_of_string (NameGenerator.charset g)) n)).

(** Every pending tuple has the current length. *)
Definition pending_ok (g : NameGenerator.t) : Prop :=
  Forall (λ chars, length chars = NameGenerator.iter_n g) (NameGenerator.iter_pending g).

(** The entries of [referenced_symbols] that the loop of
    [build_remap_symbols] gives a replacement, in the order it takes them. *)
Definition eligible (declared : gset string) (items : list (string * Z))
  : list (string * Z) :=
  filter (λ kv, kv.1 ∈ declared) items.

(** [remapped[symbol] = name] for the symbols and the names in turn *)
Definition assign (remapped : list (string * string)) (symbols names : list string)
  : list (string * string) :=
  foldl (λ r sn, Dict.set sn.1 sn.2 r) remapped (zip symbols names).

(** the order of [reversed(sorted(...))]: counts never increase *)
Definition count_ge (a b : string * Z) : Prop := (b.2 ≤ a.2)%Z.

Definition no_longer (a b : string) : Prop := (String.length a ≤ String.length b)%nat.

(** the symbols of a scope that get a replacement, in the order of the loop *)
Definition loop_symbols (s : Scope.t) : list string :=
  (eligible (Scope.local_declared_symbols s)
            (reverse (sorted_by_count (Scope.referenced_symbols s)))).*1.

(** a scope with two declarations, [y] used five times and [x] once, and a
    generator over a one-letter charset *)
Definition two_declarations : list Scope.t :=
  [Scope.mk false None None [] [("x", 1%Z); ("y", 5%Z)] {["x"; "y"]} []].

(** ** The heaps of the obfuscator *)

(** [under h i j]: scope [j] is scope [i] or nested, at any depth, in it. *)
Inductive under (h : list Scope.t) (i : nat) : nat → Prop :=
| under_self : under h i i
| under_child j p : Scope.parent (h !!! j) = Some p → under h i p → under h i j.

(** The scopes form a tree rooted at address 0 in which [parent] and
    [children] agree and a scope is allocated after its parent. *)
Record tree (h : list Scope.t) : Prop := {
  tree_nonempty : 0 < length h;
  tree_parent i p : Scope.parent (h !!! i) = Some p → p < i;
  tree_children i c :
    c ∈ Scope.children (h !!! i) → i < c ∧ Scope.parent (h !!! c) = Some i;
  tree_children_NoDup i : NoDup (Scope.children (h !!! i));
  tree_child_of_parent i p :
    Scope.parent (h !!! i) = Some p → i ∈ Scope.children (h !!! p);
  tree_root i : i < length h → Scope.parent (h !!! i) = None → i = 0;
}.

(** [referenced_symbols] is a dict, and holds an entry for every declared
    symbol. *)
Definition scope_ok (s : Scope.t) : Prop :=
  NoDup (Dict.keys (Scope.referenced_symbols s)) ∧
  ∀ x, x ∈ Scope.local_declared_symbols s → x ∈ Dict.keys (Scope.referenced_symbols s).

Definition dicts_ok (h : list Scope.t) : Prop := ∀ i, scope_ok (h !!! i).

(** no remap table has been built *)
Definition unmapped (h : list Scope.t) : Prop :=
  ∀ i, Scope.remapped_symbols (h !!! i) = [].

(** the states of a collection pass *)
Definition collected (st : Obfuscator.t) : Prop :=
  tree (Obfuscator.heap st) ∧ dicts_ok (Obfuscator.heap st) ∧
  unmapped (Obfuscator.heap st) ∧
  Forall (λ a, a < length (Obfuscator.heap st)) (Obfuscator.stack st) ∧
  Obfuscator.global_scope st = 0.

(** the heaps agree on everything but the remap tables *)
Definition same_shape (h h' : list Scope.t) : Prop :=
  length h' = length h ∧
  ∀ i, Scope.set_remapped_symbols [] (h' !!! i) = Scope.set_remapped_symbols [] (h !!! i).

(** the heaps agree on [parent] and [children] *)
Definition same_links (h h' : list Scope.t) : Prop :=
  length h' = length h ∧
  ∀ i, Scope.parent (h' !!! i) = Scope.parent (h !!! i) ∧
       Scope.children (h' !!! i) = Scope.children (h !!! i).

(** The table of scope [i] is the one its remap step builds in [h]: the
    symbols of the loop, each with the name drawn for it. *)
Definition built (name_generator : NameGenerator.t) (h : list Scope.t) (i : nat) : Prop :=
  ∃ names g',
    NameGenerator.draw (length (loop_symbols (h !!! i)))
                       (NameGenerator.call name_generator (Scope.remap_skip h i))
      = Some (names, g') ∧
    Scope.remapped_symbols (h !!! i) = assign [] (loop_symbols (h !!! i)) names.

(** what a call of [build_remap_symbols] on [i], not for the children only,
    achieves when it is given [depth] levels of recursion *)
Definition build_spec (gen : NameGenerator.t) (depth : nat) : Prop :=
  ∀ h0 h h' i,
    tree h0 → same_shape h0 h → i < length h0 →
    (∀ j, under h0 i j → Scope.remapped_symbols (h !!! j) = []) →
    Scope.build_remap_symbols_at depth h i gen false = Normal h' →
    same_shape h0 h' ∧
    (∀ j, ¬ under h0 i j → h' !!! j = h !!! j) ∧
    (∀ j, under h0 i j → built gen h' j).

(** The binding of an occurrence of [symbol] seen in [scope], in the words
    of the specification: the nearest scope, from [scope] outwards, that
    declares the symbol; none when the symbol is free. *)
Fixpoint binding_at (depth : nat) (h : list Scope.t) (scope : option nat)
    (symbol : string) : option nat :=
  match depth, scope with
  | S d, Some a =>
      if decide (symbol ∈ Scope.local_declared_symbols (h !!! a)) then Some a
      else binding_at d h (Scope.parent (h !!! a)) symbol
  | _, _ => None
  end.

Definition binding (h : list Scope.t) (scope : nat) (symbol : string) : option nat :=
  binding_at (length h) h (Some scope) symbol.

Definition occurrence_binding (st : Obfuscator.t) (node : Identifier) : option nat :=
  a ← Obfuscator.identifiers st !! ident node;
  binding (Obfuscator.heap st) a (value node).

(** [function f(){ var x; return x; } function g(){ var y; return y; }] *)
Definition sibling_scopes : list event :=
  [PushScope 1; DeclareSymbol (I 1 "x"); Resolve (I 2 "x"); PopScope 1;
   PushScope 2; DeclareSymbol (I 3 "y"); Resolve (I 4 "y"); PopScope 2].

(** [function f(){ var x; function g(){ function h(){ var y; return x + y; } } }] *)
Definition nested_scopes : list event :=
  [PushScope 1; DeclareSymbol (I 1 "x"); DeclareSymbol (I 2 "g");
   PushScope 2; DeclareSymbol (I 3 "h");
   PushScope 3; DeclareSymbol (I 4 "y"); Resolve (I 5 "x"); Resolve (I 6 "y");
   PopScope 3; PopScope 2; PopScope 1].

(** [function f(){ var x; return x; } function g(){ return x; }] *)
Definition declared_here_free_there : list event :=
  [PushScope 1; DeclareSymbol (I 1 "x"); Resolve (I 2 "x"); PopScope 1;
   PushScope 2; Resolve (I 3 "x"); PopScope 2].

(** [function f(){ var x; return x + window; }] *)
Definition uses_reserved_global : list event :=
  [PushScope 1; DeclareSymbol (I 1 "x"); Resolve (I 2 "x"); Resolve (I 3 "window");
   PopScope 1].

(** [function f(){ var x; function g(){ var x; return x; } return x; }] *)
Definition shadowing : list event :=
  [PushScope 1; DeclareSymbol (I 1 "x"); DeclareSymbol (I 2 "g");
   PushScope 2; DeclareSymbol (I 3 "x"); Resolve (I 4 "x"); PopScope 2;
   Resolve (I 5 "x"); PopScope 1].

(** ** The stack of the obfuscator *)

(** [chain h prev stack]: every scope of [stack] has the one below it as its
    [parent], and the lowest one has [prev]. *)
Fixpoint chain (h : list Scope.t) (prev : option nat) (stack : list nat) : Prop :=
  match stack with
  | [] => True
  | a :: rest => Scope.parent (h !!! a) = prev ∧ chain h (Some a) rest
  end.

(** The stack is the path from the root to the current scope, and holds the
    scopes that are still open. *)
Definition nesting (st : Obfuscator.t) : Prop :=
  chain (Obfuscator.heap st) None (Obfuscator.stack st) ∧
  NoDup (Obfuscator.stack st) ∧
  ∀ a, a < length (Obfuscator.heap st) →
       Scope._closed (Obfuscator.heap st !!! a) = false ↔ a ∈ Obfuscator.stack st.

(** what an event adds to the height of the stack *)
Definition height_change (e : event) : Z :=
  match e with
  | PushScope _ => 1
  | PopScope _ => -1
  | DeclareSymbol _ | Resolve _ => 0
  end.

Definition height_changes (events : list event) : Z :=
  foldr (λ e acc, (height_change e + acc)%Z) 0%Z events.

(** [function f(){ }] and one scope exit too many, then a reference *)
Definition stray_pop : list event :=
  [PushScope 1; PopScope 1; PopScope 0; Resolve (I 1 "x")].

(** [function f(){ function g(){ } var x; }], seen from inside [f] *)
Definition inner_function : list event :=
  [PushScope 2; PopScope 2; DeclareSymbol (I 1 "x")].

(** ** close_all *)

(** what [close_all] on [self] does to a heap [h] with the links of the tree
    [h0], given [depth] levels of recursion *)
Definition close_all_spec (depth : nat) : Prop :=
  ∀ h0 h self,
    tree h0 → same_links h0 h → self < length h0 → length h0 < depth + self →
    match Scope.close_all_at depth h self with
    | Normal h' =>
        same_links h0 h' ∧
        (∀ j, under h0 self j →
              Scope._closed (h !!! j) = false ∧ Scope._closed (h' !!! j) = true) ∧
        (∀ j, ¬ under h0 self j → h' !!! j = h !!! j)
    | Raised e h' =>
        e = ValueError "scope is already marked as closed" ∧
        ∃ j, under h0 self j ∧ Scope._closed (h !!! j) = true
    | Diverged => False
    end.

(** [function f(){ function g(){ x; x; ] up to the second reference, with
    every scope still open *)
Definition open_chain : list event :=
  [PushScope 1; PushScope 3; Resolve (I 1 "x"); Resolve (I 2 "x")].

(** ** Counting *)

(** how often the events reference the name [x] *)
Definition references (x : string) (events : list event) : Z :=
  foldr (λ e acc,
           match e with
           | Resolve n => if decide (value n = x) then (1 + acc)%Z else acc
           | _ => acc
           end) 0%Z events.

(** the names the events declare *)
Definition declarations (events : list event) : gset string :=
  foldr (λ e acc,
           match e with
           | DeclareSymbol n => {[value n]} ∪ acc
           | _ => acc
           end) ∅ events.

(** events of one scope: no scope is entered or left *)
Definition straight_line (events : list event) : Prop :=
  Forall (λ e, match e with
               | PushScope _ | PopScope _ => False
               | DeclareSymbol _ | Resolve _ => True
               end) events.

(** [var x; x; y; x;] *)
Definition three_references : list event :=
  [DeclareSymbol (I 1 "x"); Resolve (I 2 "x"); Resolve (I 3 "y"); Resolve (I 4 "x")].

(** ** Order of the remap loop among equal counts *)

(** [x] occurs in [l] in front of an occurrence of [y] *)
Definition before {A : Type} (x y : A) (l : list A) : Prop :=
  ∃ l1 l2, l = l1 ++ x :: l2 ∧ y ∈ l2.

(** a scope with two declarations that are used once each, [x] first *)
Definition tied_declarations : list Scope.t :=
  [Scope.mk false None None [] [("x", 1%Z); ("y", 1%Z)] {["x"; "y"]} []].

(** * visitors/layout.py *)

(** A chunk that a handler yields: the text, the line and the column for the
    source map, and the original name.  [None] is Python's [None]. *)
Definition chunk : Type := string * option Z * option Z * option string.

(** the line feed, Python's ['\n'] *)
Definition LF : string := String "010"%char "".

(** [s * n] on a string: [n] copies of [s], none when [n] is not positive *)
Definition str_mul (s : string) (n : Z) : string :=
  foldr String.append "" (replicate (Z.to_nat n) s).

(** Modelled from the spec: the rule types [Indent], [Dedent] and [Newline]
    of [pptypes] are not among the sources; they are the keys under which
    [indentation] registers the three handlers. *)
Inductive layout_rule := Indent | Dedent | Newline.

Module Indentation.

Record t := mk { indent : Z; _level : Z }.

(** [__init__(self, indent=2)] *)
Definition init (indent : Z) : t := {| indent := indent; _level := 0 |}.

Definition layout_handler_indent (self : t) : t * list chunk :=
  (mk (indent self) (_level self + 1), []).

Definition layout_handler_dedent (self : t) : t * list chunk :=
  (mk (indent self) (_level self - 1), []).

(** the generator yields the newline, then the indentation when that string
    is not empty *)
Definition layout_handler_newline (self : t) : t * list chunk :=
  let indents := str_mul " " (indent self * _level self) in
  (self,
   (LF, Some 0%Z, Some 0%Z, None) ::
   if decide (indents = "") then [] else [(indents, None, None, None)]).

(** the handler that [indentation] registers for a rule *)
Definition handler (self : t) (rule : layout_rule) : t * list chunk :=
  match rule with
  | Indent => layout_handler_indent self
  | Dedent => layout_handler_dedent self
  | Newline => layout_handler_newline self
  end.

(** the handlers called for the rules in turn; the chunks in the order
    they are yielded *)
Definition run (self : t) (rules : list layout_rule) : t * list chunk :=
  foldl (λ acc rule, let '(self, out) := handler acc.1 rule in (self, acc.2 ++ out))
        (self, []) rules.

End Indentation.

(** [indentation(indent=2)]: [make_layout] creates the instance the three
    handlers share *)
Definition indentation (indent : Z) : Indentation.t := Indentation.init indent.

(** what a rule adds to the level *)
Definition level_change (rule : layout_rule) : Z :=
  match rule with
  | Indent => 1
  | Dedent => -1
  | Newline => 0
  end.

Definition level_changes (rules : list layout_rule) : Z :=
  foldr (λ rule acc, (level_change rule + acc)%Z) 0%Z rules.

(** Modelled from the spec: [asttypes.Node] and the tokens of the walker are
    not among the sources.  A node is an [Identifier] or some other node;
    of a token only [pos] is read, [Some] when it is an [int]. *)
Inductive ast_node :=
| IdentifierNode (n : Identifier)
| OtherNode (id : nat).

Section token_handlers.
Context {T : Type}.

(** [node.getpos(s, idx)], which returns a triple; its last two components
    are the line and the column *)
Variable getpos : ast_node → string → Z → T * option Z * option Z.

(** [layout.token_handler_str_default] *)
Definition token_handler_str_default (token_pos : option Z) (node : ast_node)
    (subnode : string) : list chunk :=
  let '(lineno, colno) :=
    match token_pos with
    | Some pos => let '(_, lineno, colno) := getpos node subnode pos in (lineno, colno)
    | None => (None, None)
    end in
  [(subnode, lineno, colno, None)].

(** [obfuscator.token_handler_unobfuscate]; [original or subnode] takes
    [subnode] when [original] is [None] or the empty string *)
Definition token_handler_unobfuscate (token_pos : option Z) (node : ast_node)
    (subnode : string) : list chunk :=
  let original :=
    match node with
    | IdentifierNode n => if decide (value n ≠ subnode) then Some (value n) else None
    | OtherNode _ => None
    end in
  let '(lineno, colno) :=
    match token_pos with
    | Some pos =>
        let name :=
          match original with
          | Some o => if decide (o = "") then subnode else o
          | None => subnode
          end in
        let '(_, lineno, colno) := getpos node name pos in (lineno, colno)
    | None => (None, None)
    end in
  [(subnode, lineno, colno, original)].

End token_handlers.

(** [layout_handler_space_imply], [layout_handler_space_drop] and
    [layout_handler_newline_simple] *)
Definition layout_handler_space_imply : list chunk := [(" ", Some 0%Z, Some 0%Z, None)].
Definition layout_handler_space_drop : list chunk := [(" ", None, None, None)].
Definition layout_handler_newline_simple : list chunk := [(LF, Some 0%Z, Some 0%Z, None)].

(** a [getpos] for the examples: the line is the length of the name that is
    looked up, the column the index *)
Definition sample_getpos (node : ast_node) (s : string) (idx : Z)
  : string * option Z * option Z :=
  (s, Some (Z.of_nat (String.length s)), Some idx).

(** [var a; function f(){ var x; return a + x; }] *)
Definition root_declared_capture : list event :=
  [DeclareSymbol (I 1 "a"); DeclareSymbol (I 2 "f");
   PushScope 1; DeclareSymbol (I 3 "x"); Resolve (I 4 "a"); Resolve (I 5 "x");
   PopScope 1].

(** * Properties *)

(** ** Dictionaries *)

Section dict_facts.
Context {V : Type}.
Implicit Types (d : list (string * V)) (k : string) (v : V).

Lemma dict_get_set_eq d k v : Dict.get k (Dict.set k v d) = Some v.
Proof.
  induction d as [|[k' v'] d IH]; simpl.
  - by rewrite decide_True.
  - destruct (decide (k = k')) as [->|Hne]; simpl.
    + by rewrite decide_True.
    + by rewrite decide_False.
Qed.

Lemma dict_get_set_ne d k k' v : k ≠ k' → Dict.get k' (Dict.set k v d) = Dict.get k' d.
Proof.
  intros Hne. induction d as [|[k0 v0] d IH]; simpl.
  - by rewrite decide_False.
  - destruct (decide (k = k0)) as [->|Hne0]; simpl.
    + by rewrite !decide_False.
    + destruct (decide (k' = k0)); [done|apply IH].
Qed.

Lemma dict_get_set d k k' v :
  Dict.get k' (Dict.set k v d) = if decide (k = k') then Some v else Dict.get k' d.
Proof.
  case_decide; subst; [apply dict_get_set_eq|by apply dict_get_set_ne].
Qed.

Lemma dict_get_None d k : Dict.get k d = None ↔ k ∉ Dict.keys d.
Proof.
  unfold Dict.keys. induction d as [|[k' v'] d IH]; simpl.
  - split; [intros _; apply not_elem_of_nil|done].
  - rewrite not_elem_of_cons. destruct (decide (k = k')); naive_solver.
Qed.

Lemma dict_get_is_Some d k : is_Some (Dict.get k d) ↔ k ∈ Dict.keys d.
Proof.
  rewrite <-not_eq_None_Some, dict_get_None.
  destruct (decide (k ∈ Dict.keys d)); naive_solver.
Qed.

Lemma dict_get_Some_elem d k v : Dict.get k d = Some v → (k, v) ∈ d.
Proof.
  induction d as [|[k' v'] d IH]; simpl; [done|].
  destruct (decide (k = k')) as [->|]; intros Hg.
  - injection Hg as ->. apply elem_of_cons; by left.
  - apply elem_of_cons; right; by apply IH.
Qed.

Lemma dict_elem_get d k v : NoDup (Dict.keys d) → (k, v) ∈ d → Dict.get k d = Some v.
Proof.
  unfold Dict.keys. induction d as [|[k' v'] d IH]; simpl.
  - intros _ H; by apply elem_of_nil in H.
  - intros [Hk Hnd]%NoDup_cons [Heq|Hin]%elem_of_cons.
    + injection Heq as -> ->. by rewrite decide_True.
    + rewrite decide_False; [by apply IH|].
      intros ->. apply Hk. apply list_elem_of_fmap. by exists (k', v).
Qed.

Lemma dict_keys_set d k v :
  Dict.keys (Dict.set k v d) =
    if decide (k ∈ Dict.keys d) then Dict.keys d else Dict.keys d ++ [k].
Proof.
  unfold Dict.keys. induction d as [|[k' v'] d IH].
  - case_decide as Hin; [by apply elem_of_nil in Hin|done].
  - cbn [Dict.set]. destruct (decide (k = k')) as [->|Hne].
    + rewrite decide_True; [done|]. rewrite fmap_cons. apply elem_of_cons; by left.
    + rewrite !fmap_cons, IH. cbn [fst]. repeat case_decide; try done.
      * exfalso. set_solver.
      * exfalso. set_solver.
Qed.

Lemma dict_set_NoDup d k v : NoDup (Dict.keys d) → NoDup (Dict.keys (Dict.set k v d)).
Proof.
  intros Hnd. rewrite dict_keys_set. case_decide; [done|].
  apply NoDup_app. split_and!; [done| |apply NoDup_singleton].
  intros x Hx ->%list_elem_of_singleton. done.
Qed.

Lemma dict_values_set d k v x :
  x ∈ Dict.values (Dict.set k v d) → x = v ∨ x ∈ Dict.values d.
Proof.
  unfold Dict.values. induction d as [|[k' v'] d IH]; simpl.
  - intros ->%list_elem_of_singleton. by left.
  - destruct (decide (k = k')) as [->|Hne]; simpl; rewrite !elem_of_cons; naive_solver.
Qed.

Lemma dict_get_Some_value d k v : Dict.get k d = Some v → v ∈ Dict.values d.
Proof.
  intros Hg%dict_get_Some_elem. unfold Dict.values.
  apply list_elem_of_fmap. by exists (k, v).
Qed.
End dict_facts.

(** ** Calls on a closed scope *)




(** ** The scope stack *)

Lemma pop_scope_open_top (self : Obfuscator.t) (node : nat) (rest : list nat)
    (scope : nat) :
  Obfuscator.stack self = rest ++ [scope] →
  Scope._closed (Obfuscator.heap self !!! scope) = false →
  ∃ h, Scope.close (Obfuscator.heap self) scope = Normal h ∧
       Obfuscator.pop_scope self node =
         Normal (Obfuscator.set_heap h (Obfuscator.set_stack rest self)).
Proof.
  intros Hstack Hopen.
  unfold Obfuscator.pop_scope. rewrite Hstack, last_snoc, removelast_last.
  unfold Scope.close. simpl. rewrite Hopen. eexists. split; reflexivity.
Qed.



(** C3, as stated, fails: a scope-exit event with only the root on the
    stack does not raise, and neither does a collection that ends with a
    scope still open. *)
Lemma unbalanced_traversal_counterexample :
  (∀ e s, Obfuscator.pop_scope (Obfuscator.init false []) 1 ≠ Raised e s) ∧
  (∀ e s, Obfuscator.prewalk_hook (Obfuscator.init false []) [PushScope 1] ≠ Raised e s).
Proof.
  split; intros e s H; vm_compute in H; discriminate H.
Qed.

(** ** close *)

Lemma set_referenced_symbols_id (s : Scope.t) :
  Scope.set_referenced_symbols (Scope.referenced_symbols s) s = s.
Proof. by destruct s. Qed.

Lemma claim_fold (self : nat) (l : list (string * Z)) (h : list Scope.t) :
  foldl (Scope.claim self) h l =
    alter (λ s, Scope.set_referenced_symbols
                  (foldl claim_dict (Scope.referenced_symbols s) l) s) self h.
Proof.
  revert h. induction l as [|kv l IH]; intros h; simpl.
  - symmetry. apply list_alter_id. intros s. apply set_referenced_symbols_id.
  - rewrite IH. unfold Scope.claim. rewrite list_alter_alter_eq.
    apply list_alter_ext; [|done]. intros s _. by destruct s.
Qed.

Lemma total_app (k : string) (l1 l2 : list (string * Z)) :
  total k (l1 ++ l2) = (total k l1 + total k l2)%Z.
Proof.
  induction l1 as [|[k' v] l1 IH]; [done|].
  change (total k (((k', v) :: l1) ++ l2))
    with (if decide (k' = k) then (v + total k (l1 ++ l2))%Z else total k (l1 ++ l2)).
  change (total k ((k', v) :: l1))
    with (if decide (k' = k) then (v + total k l1)%Z else total k l1).
  rewrite IH. case_decide; lia.
Qed.

Lemma total_not_key (k : string) (l : list (string * Z)) :
  k ∉ Dict.keys l → total k l = 0%Z.
Proof.
  unfold Dict.keys, total. induction l as [|[k' v] l IH]; [done|].
  rewrite fmap_cons, not_elem_of_cons. cbn [foldr fst snd].
  intros [Hne Hnin]. rewrite decide_False by done. auto.
Qed.

Lemma total_get (k : string) (l : list (string * Z)) :
  NoDup (Dict.keys l) → total k l = default 0%Z (Dict.get k l).
Proof.
  unfold Dict.keys. induction l as [|[k' v] l IH]; [done|].
  rewrite fmap_cons. intros [Hk Hnd]%NoDup_cons.
  change (total k ((k', v) :: l))
    with (if decide (k' = k) then (v + total k l)%Z else total k l).
  cbn [Dict.get].
  destruct (decide (k' = k)) as [->|Hne].
  - rewrite decide_True by done. cbn [default].
    rewrite total_not_key by done. apply Z.add_0_r.
  - rewrite decide_False by done. by apply IH.
Qed.

Lemma claim_dict_fold_get (k : string) (l d : list (string * Z)) :
  Dict.get k (foldl claim_dict d l) =
    if decide (k ∈ Dict.keys l)
    then Some (default 0%Z (Dict.get k d) + total k l)%Z
    else Dict.get k d.
Proof.
  unfold Dict.keys. revert d. induction l as [|[k' v] l IH]; intros d.
  - cbn [foldl]. case_decide as Hin; [by apply elem_of_nil in Hin|done].
  - cbn [foldl]. rewrite IH. unfold claim_dict. cbn [fst snd].
    rewrite fmap_cons. cbn [fst].
    change (total k ((k', v) :: l))
      with (if decide (k' = k) then (v + total k l)%Z else total k l).
    rewrite dict_get_set.
    destruct (decide (k' = k)) as [->|Hne].
    + rewrite (decide_True (P := k ∈ k :: l.*1)) by (apply elem_of_cons; by left).
      case_decide as Hin; cbn [default from_option id]; [f_equal; lia|].
      rewrite total_not_key by done. f_equal; lia.
    + case_decide as Hin.
      * rewrite decide_True by (apply elem_of_cons; by right). done.
      * rewrite decide_False; [done|]. rewrite not_elem_of_cons. naive_solver.
Qed.

Lemma leaked_keys_NoDup (s : Scope.t) :
  NoDup (Dict.keys (Scope.referenced_symbols s)) →
  NoDup (Dict.keys (Scope.leaked_referenced_symbols s)).
Proof.
  unfold Dict.keys, Scope.leaked_referenced_symbols.
  intros Hnd. eapply sublist_NoDup; [exact Hnd|apply fmap_sublist, sublist_filter].
Qed.

Lemma leaked_bind_alter (f : Scope.t → Scope.t) (self : nat) (cs : list nat)
    (h : list Scope.t) :
  self ∉ cs →
  (child ← cs; Scope.leaked_referenced_symbols (alter f self h !!! child)) =
  (child ← cs; Scope.leaked_referenced_symbols (h !!! child)).
Proof.
  induction cs as [|c cs IH]; [done|].
  intros [Hne Hnin]%not_elem_of_cons. rewrite !bind_cons.
  rewrite list_lookup_total_alter_ne by done. f_equal. by apply IH.
Qed.

(** The loop of [close] leaves every other scope alone and folds the leaked
    entries of the children, one child after the other, into the counts of
    [self]. *)
Lemma close_loop (self : nat) (cs : list nat) (h : list Scope.t) :
  self ∉ cs →
  foldl (λ h child,
           foldl (Scope.claim self) h (Scope.leaked_referenced_symbols (h !!! child)))
        h cs =
    alter (λ s, Scope.set_referenced_symbols
                  (foldl claim_dict (Scope.referenced_symbols s)
                         (child ← cs; Scope.leaked_referenced_symbols (h !!! child))) s)
          self h.
Proof.
  revert h. induction cs as [|c cs IH]; intros h Hnin.
  - cbn [foldl]. symmetry. apply list_alter_id. intros s. apply set_referenced_symbols_id.
  - apply not_elem_of_cons in Hnin as [Hne Hnin].
    cbn [foldl]. rewrite IH by done. rewrite claim_fold, list_alter_alter_eq.
    rewrite leaked_bind_alter by done. rewrite bind_cons.
    apply list_alter_ext; [|done]. intros s _. unfold compose.
    rewrite foldl_app. by destruct s.
Qed.

Lemma leaked_bind_keys (h : list Scope.t) (cs : list nat) (k : string) :
  k ∈ Dict.keys (child ← cs; Scope.leaked_referenced_symbols (h !!! child)) ↔
  Exists (λ c, k ∈ Dict.keys (Scope.leaked_referenced_symbols (h !!! c))) cs.
Proof.
  unfold Dict.keys. rewrite Exists_exists, list_elem_of_fmap. split.
  - intros ([k' v] & -> & (c & Hin & Hc)%list_elem_of_bind).
    exists c. split; [done|]. apply list_elem_of_fmap. by exists (k', v).
  - intros (c & Hc & ([k' v] & -> & Hin)%list_elem_of_fmap).
    exists (k', v). split; [done|]. apply list_elem_of_bind. by exists c.
Qed.

Lemma leaked_bind_total (h : list Scope.t) (cs : list nat) (k : string) :
  Forall (λ c, NoDup (Dict.keys (Scope.referenced_symbols (h !!! c)))) cs →
  total k (child ← cs; Scope.leaked_referenced_symbols (h !!! child)) =
    leaked_count h cs k.
Proof.
  induction 1 as [|c cs Hc Hcs IH]; [done|].
  cbn [mbind list_bind]. rewrite total_app. simpl. rewrite <-IH.
  rewrite total_get by by apply leaked_keys_NoDup. done.
Qed.

(** C5, as stated, fails: with two children that each leak one reference to
    [x], the root holds 2 for [x] after [close], not its previous 0 plus the
    count 1 of either child. *)
Lemma close_leak_counterexample :
  ∃ st h',
    Obfuscator.walk (Obfuscator.init false []) two_leaking_children = Normal st ∧
    Scope.children (Obfuscator.heap st !!! 0) = [1; 2] ∧
    Dict.get "x" (Scope.leaked_referenced_symbols (Obfuscator.heap st !!! 1)) = Some 1%Z ∧
    Dict.get "x" (Scope.referenced_symbols (Obfuscator.heap st !!! 0)) = None ∧
    Scope.close (Obfuscator.heap st) 0 = Normal h' ∧
    Dict.get "x" (Scope.referenced_symbols (h' !!! 0)) ≠ Some (0 + 1)%Z.
Proof.
  eexists _, _. split; [vm_compute; reflexivity|].
  split_and!; [reflexivity|reflexivity|reflexivity|vm_compute; reflexivity|discriminate].
Qed.

(** C5, amended: [close] on an open scope [self] returns; afterwards [self]
    is closed, its count for every symbol that some child leaks is the
    previous count (0 if absent) plus the counts of ALL the children that
    leak it, its other counts are unchanged, and nothing else in the heap
    changes. *)
Theorem close_claims_leaked (h : list Scope.t) (self : nat) :
  self < length h →
  self ∉ Scope.children (h !!! self) →
  Scope._closed (h !!! self) = false →
  Forall (λ c, NoDup (Dict.keys (Scope.referenced_symbols (h !!! c))))
         (Scope.children (h !!! self)) →
  ∃ h',
    Scope.close h self = Normal h' ∧
    Scope._closed (h' !!! self) = true ∧
    (∀ k, Dict.get k (Scope.referenced_symbols (h' !!! self)) =
          if decide (Exists (λ c, k ∈ Dict.keys (Scope.leaked_referenced_symbols (h !!! c)))
                            (Scope.children (h !!! self)))
          then Some (default 0%Z (Dict.get k (Scope.referenced_symbols (h !!! self)))
                     + leaked_count h (Scope.children (h !!! self)) k)%Z
          else Dict.get k (Scope.referenced_symbols (h !!! self))) ∧
    Scope.local_declared_symbols (h' !!! self) = Scope.local_declared_symbols (h !!! self) ∧
    Scope.remapped_symbols (h' !!! self) = Scope.remapped_symbols (h !!! self) ∧
    Scope.children (h' !!! self) = Scope.children (h !!! self) ∧
    Scope.parent (h' !!! self) = Scope.parent (h !!! self) ∧
    length h' = length h ∧
    (∀ j, j ≠ self → h' !!! j = h !!! j).
Proof.
  intros Hlt Hnin Hopen Hdicts. unfold Scope.close. rewrite Hopen.
  eexists. split; [reflexivity|].
  rewrite close_loop by done. rewrite list_alter_alter_eq.
  rewrite list_lookup_total_alter_eq by done. simpl.
  split_and!; try done.
  - intros k. rewrite claim_dict_fold_get.
    destruct (decide (k ∈ _)) as [Hin|Hin].
    + rewrite decide_True by by apply leaked_bind_keys.
      by rewrite leaked_bind_total.
    + rewrite decide_False; [done|]. by rewrite <-leaked_bind_keys.
  - apply length_alter.
  - intros j Hne. by rewrite list_lookup_total_alter_ne.
Qed.

Lemma close_claims_leaked_witness :
  ∃ st h',
    Obfuscator.walk (Obfuscator.init false []) two_leaking_children = Normal st ∧
    Scope.close (Obfuscator.heap st) 0 = Normal h' ∧
    Dict.get "x" (Scope.referenced_symbols (h' !!! 0)) = Some 2%Z.
Proof.
  eexists. 
  destruct (close_claims_leaked
              [Scope.mk false None None [1; 2] [] ∅ [];
               Scope.mk true (Some 1) (Some 0) [] [("x", 1%Z)] ∅ [];
               Scope.mk true (Some 2) (Some 0) [] [("x", 1%Z)] ∅ []] 0)
    as (h' & Hclose & _ & Hget & _).
  - simpl; lia.
  - by apply (bool_decide_unpack _).
  - reflexivity.
  - by apply (bool_decide_unpack _).
  - exists h'. split; [vm_compute; reflexivity|]. split; [exact Hclose|].
    rewrite (Hget "x"). reflexivity.
Defined.

(** ** Walks *)

Lemma walk_stuck (o : outcome Obfuscator.t) (events : list event) :
  (∀ s, o ≠ Normal s) →
  foldl (λ o e, bind o (λ self, Obfuscator.handle self e)) o events = o.
Proof.
  intros Ho. induction events as [|e events IH]; [done|].
  cbn [foldl]. destruct o as [s| |]; [by destruct (Ho s)|apply IH|apply IH].
Qed.

Lemma walk_cons (self : Obfuscator.t) (e : event) (events : list event) :
  Obfuscator.walk self (e :: events) =
    bind (Obfuscator.handle self e) (λ self, Obfuscator.walk self events).
Proof.
  unfold Obfuscator.walk. cbn [foldl bind].
  destruct (Obfuscator.handle self e) as [s|x s|]; [done| |]; by rewrite walk_stuck.
Qed.

Lemma walk_Normal_cons (self st : Obfuscator.t) (e : event) (events : list event) :
  Obfuscator.walk self (e :: events) = Normal st →
  ∃ self', Obfuscator.handle self e = Normal self' ∧
           Obfuscator.walk self' events = Normal st.
Proof.
  rewrite walk_cons. destruct (Obfuscator.handle self e) as [s|x s|]; [|done|done].
  intros H. by exists s.
Qed.

(** An invariant of the states of a walk: it holds initially and every
    handler that returns keeps it. *)
Lemma walk_invariant (P : Obfuscator.t → Prop) (events : list event)
    (self st : Obfuscator.t) :
  (∀ s s' e, e ∈ events → P s → Obfuscator.handle s e = Normal s' → P s') →
  P self → Obfuscator.walk self events = Normal st → P st.
Proof.
  revert self. induction events as [|e events IH]; intros self Hstep Hself.
  - intros [= <-]. done.
  - intros (self' & He & Hwalk)%walk_Normal_cons.
    apply (IH self'); [|eapply Hstep; [|done..]|done].
    + intros s s' e' He'. apply Hstep. by apply elem_of_cons; right.
    + apply elem_of_cons; by left.
Qed.

Lemma on_heap_Normal (self st : Obfuscator.t) (o : outcome (list Scope.t)) :
  Obfuscator.on_heap self o = Normal st →
  ∃ h, o = Normal h ∧ st = Obfuscator.set_heap h self.
Proof. destruct o; [|done..]. intros [= <-]. eauto. Qed.

Lemma handle_identifiers (s s' : Obfuscator.t) (e : event) (i : nat) :
  Obfuscator.handle s e = Normal s' →
  is_Some (Obfuscator.identifiers s' !! i) →
  is_Some (Obfuscator.identifiers s !! i) ∨ ∃ n, e = Resolve n ∧ ident n = i.
Proof.
  destruct e as [node|node|node|node]; cbn [Obfuscator.handle].
  - unfold Obfuscator.push_scope. destruct (Obfuscator.current_scope s); [|done].
    intros [= <-]. by left.
  - unfold Obfuscator.pop_scope. destruct (last _); [|done].
    intros (h & _ & ->)%on_heap_Normal. by left.
  - unfold Obfuscator.declare. destruct (Obfuscator.current_scope s); [|done].
    intros (h & _ & ->)%on_heap_Normal. by left.
  - unfold Obfuscator.reference. destruct (Obfuscator.current_scope s); [|done].
    intros (h & _ & ->)%on_heap_Normal. cbn.
    destruct (decide (ident node = i)) as [<-|Hne]; [right; eauto|].
    rewrite lookup_insert_ne by done. by left.
Qed.

Lemma finalize_identifiers (self st : Obfuscator.t) :
  Obfuscator.finalize self = Normal st →
  Obfuscator.identifiers st = Obfuscator.identifiers self.
Proof.
  unfold Obfuscator.finalize.
  destruct (Scope.close _ _) as [h| |]; [|done..]. cbn.
  intros (h' & _ & ->)%on_heap_Normal. done.
Qed.

Lemma prewalk_hook_Normal (self st : Obfuscator.t) (events : list event) :
  Obfuscator.prewalk_hook self events = Normal st →
  ∃ s, Obfuscator.walk self events = Normal s ∧ Obfuscator.finalize s = Normal st.
Proof.
  unfold Obfuscator.prewalk_hook.
  destruct (Obfuscator.walk self events) as [s| |]; [|done..]. eauto.
Qed.

(** C9: an occurrence that no reference event carried is not in the
    [identifiers] table after collection and finalization, and [resolve]
    returns its text unchanged, whether or not its symbol was given a
    replacement (declare events never register the occurrence). *)
Theorem declared_only_occurrence_unresolved (obfuscate_globals : bool)
    (reserved_keywords : list string) (events : list event)
    (st : Obfuscator.t) (node : Identifier) :
  Obfuscator.prewalk_hook (Obfuscator.init obfuscate_globals reserved_keywords) events
    = Normal st →
  (∀ n, Resolve n ∈ events → ident n ≠ ident node) →
  Obfuscator.identifiers st !! ident node = None ∧
  Obfuscator.resolve st node = value node.
Proof.
  intros (s & Hwalk & Hfin)%prewalk_hook_Normal Hnever.
  assert (Obfuscator.identifiers st !! ident node = None) as Hnone.
  { rewrite (finalize_identifiers _ _ Hfin).
    apply (walk_invariant (λ s, Obfuscator.identifiers s !! ident node = None)
             events (Obfuscator.init obfuscate_globals reserved_keywords) s);
      [|done|done].
    intros s1 s2 e He Hs1 Hstep. apply eq_None_not_Some. intros Hsome.
    destruct (handle_identifiers _ _ _ _ Hstep Hsome) as [Hold|(n & -> & Hn)].
    - rewrite Hs1 in Hold. by destruct Hold.
    - by apply (Hnever n). }
  split; [done|]. unfold Obfuscator.resolve. by rewrite Hnone.
Qed.

Lemma declared_only_occurrence_unresolved_witness :
  ∃ st,
    Obfuscator.prewalk_hook (Obfuscator.init false []) declared_then_used = Normal st ∧
    Dict.get "x" (Scope.remapped_symbols (Obfuscator.heap st !!! 1)) = Some "a" ∧
    Obfuscator.resolve st (I 2 "x") = "a" ∧
    Obfuscator.identifiers st !! 1 = None ∧
    Obfuscator.resolve st (I 1 "x") = "x".
Proof.
  eexists. split; [vm_compute; reflexivity|].
  split; [reflexivity|]. split; [reflexivity|].
  apply (declared_only_occurrence_unresolved false [] declared_then_used _ (I 1 "x")).
  - vm_compute; reflexivity.
  - intros n Hn. unfold declared_then_used in Hn.
    repeat (apply elem_of_cons in Hn as [Hn|Hn];
            [try discriminate Hn; injection Hn as ->; cbn; lia|]).
    by apply elem_of_nil in Hn.
Defined.

(** ** The name generator *)

Lemma bind_bind {A B C : Type} (f : A → list B) (g : B → list C) (l : list A) :
  (l ≫= f) ≫= g = l ≫= (λ x, f x ≫= g).
Proof.
  induction l as [|x l IH]; [done|]. by rewrite !bind_cons, bind_app, IH.
Qed.

Lemma fmap_bind {A B C : Type} (f : A → list B) (g : B → C) (l : list A) :
  g <$> (l ≫= f) = l ≫= (λ x, g <$> f x).
Proof.
  induction l as [|x l IH]; [done|]. by rewrite !bind_cons, fmap_app, IH.
Qed.

Lemma fmap_as_bind {A B : Type} (f : A → B) (l : list A) :
  f <$> l = l ≫= (λ x, [f x]).
Proof. induction l as [|x l IH]; [done|]. by rewrite fmap_cons, bind_cons, IH. Qed.

(** [product] builds its tuples from the right; they come out in the order
    of the enumeration that builds them from the left. *)
Lemma product_S (pool : list ascii) (r : nat) :
  product pool (S r) = c ← pool; cons c <$> product pool r.
Proof.
  induction r as [|r IH].
  - cbn [product]. rewrite bind_singleton. cbn [app].
    rewrite fmap_as_bind. apply list_bind_ext; [|done]. done.
  - change (product pool (S (S r)))
      with (x ← product pool (S r); (λ y, x ++ [y]) <$> pool).
    rewrite IH at 1. rewrite bind_bind.
    apply list_bind_ext; [|done]. intros c.
    rewrite list_fmap_bind.
    change (product pool (S r)) with (x ← product pool r; (λ y, x ++ [y]) <$> pool).
    rewrite fmap_bind. apply list_bind_ext; [|done]. intros x.
    unfold compose. rewrite <-list_fmap_compose. done.
Qed.

Lemma join_product (pool : list ascii) (n : nat) :
  join <$> product pool n = combinations pool n.
Proof.
  induction n as [|n IH]; [done|].
  rewrite product_S. cbn [combinations]. rewrite fmap_bind.
  apply list_bind_ext; [|done]. intros c.
  rewrite <-IH, <-!list_fmap_compose. done.
Qed.

Lemma product_length (pool : list ascii) (n : nat) (chars : list ascii) :
  chars ∈ product pool n → length chars = n.
Proof.
  revert chars. induction n as [|n IH]; intros chars.
  - intros ->%list_elem_of_singleton. done.
  - rewrite product_S. intros (c & (x & -> & Hx)%list_elem_of_fmap & _)%list_elem_of_bind.
    cbn. f_equal. by apply IH.
Qed.

Lemma product_nonempty (pool : list ascii) (n : nat) :
  pool ≠ [] → product pool n ≠ [].
Proof.
  intros Hpool. induction n as [|n IH]; [done|].
  rewrite product_S. destruct pool as [|c pool]; [done|].
  rewrite bind_cons. destruct (product (c :: pool) n); [done|]. done.
Qed.

Lemma join_length (chars : list ascii) : String.length (join chars) = length chars.
Proof. induction chars as [|c chars IH]; [done|]. cbn. by rewrite <-IH. Qed.

Lemma longest_ge (skip : gset string) (s : string) :
  s ∈ skip → (String.length s ≤ NameGenerator.longest skip)%nat.
Proof.
  intros Hs. unfold NameGenerator.longest. apply max_list_elem_of_le.
  apply list_elem_of_fmap. exists s. split; [done|]. by apply elem_of_elements.
Qed.

Lemma scan_Some (skip : gset string) (pending rest : list (list ascii)) (symbol : string) :
  NameGenerator.scan skip pending = Some (symbol, rest) →
  (symbol ∉ skip) ∧
  (∃ chars, chars ∈ pending ∧ symbol = join chars) ∧
  (∀ x, x ∈ rest → x ∈ pending) ∧
  filter (λ s, s ∉ skip) (join <$> pending) =
    symbol :: filter (λ s, s ∉ skip) (join <$> rest).
Proof.
  induction pending as [|chars pending IH]; [done|].
  cbn [NameGenerator.scan]. rewrite fmap_cons.
  destruct (decide (join chars ∈ skip)) as [Hin|Hnin].
  - intros (Hs & (x & Hx & Hj) & Hrest & Hfilter)%IH. split_and!; [done| | |].
    + exists x. split; [by apply elem_of_cons; right|done].
    + intros y Hy. apply elem_of_cons; right. by apply Hrest.
    + rewrite filter_cons_False by (intros H; by apply H). done.
  - intros [= <- <-]. split_and!; [done| | |].
    + exists chars. split; [by apply elem_of_cons; left|done].
    + intros y Hy. by apply elem_of_cons; right.
    + by rewrite filter_cons_True.
Qed.

Lemma scan_None (skip : gset string) (pending : list (list ascii)) :
  NameGenerator.scan skip pending = None →
  filter (λ s, s ∉ skip) (join <$> pending) = [].
Proof.
  induction pending as [|chars pending IH]; [done|].
  cbn [NameGenerator.scan]. rewrite fmap_cons.
  destruct (decide (join chars ∈ skip)) as [Hin|Hnin]; [|done].
  intros H. rewrite filter_cons_False by (intros H'; by apply H'). by apply IH.
Qed.

Lemma scan_long (skip : gset string) (pending : list (list ascii)) (n : nat) :
  (NameGenerator.longest skip < n)%nat →
  Forall (λ chars, length chars = n) pending →
  pending ≠ [] →
  is_Some (NameGenerator.scan skip pending).
Proof.
  intros Hn Hall Hne. destruct pending as [|chars pending]; [done|].
  cbn [NameGenerator.scan]. apply Forall_cons in Hall as [Hlen _].
  rewrite decide_False; [done|].
  intros Hin%longest_ge. rewrite join_length in Hin. lia.
Qed.

Lemma next_upto_unfold (f : nat) (g : NameGenerator.t) :
  NameGenerator.next_upto f g =
    match NameGenerator.scan (NameGenerator.skip g) (NameGenerator.iter_pending g) with
    | Some (symbol, rest) =>
        Some (symbol, NameGenerator.mk (NameGenerator.skip g) (NameGenerator.charset g)
                        (NameGenerator.iter_n g) rest)
    | None =>
        match f with
        | O => None
        | S f' =>
            NameGenerator.next_upto f'
              (NameGenerator.mk (NameGenerator.skip g) (NameGenerator.charset g)
                 (S (NameGenerator.iter_n g))
                 (product (list_ascii_of_string (NameGenerator.charset g))
                          (S (NameGenerator.iter_n g))))
        end
    end.
Proof. by destruct f. Qed.

(** [next] hands out the head of what remains. *)
Lemma next_upto_remaining (f : nat) (g g' : NameGenerator.t) (symbol : string) :
  NameGenerator.next_upto f g = Some (symbol, g') →
  NameGenerator.skip g' = NameGenerator.skip g ∧
  NameGenerator.charset g' = NameGenerator.charset g ∧
  (NameGenerator.iter_n g ≤ NameGenerator.iter_n g')%nat ∧
  ∀ N, (NameGenerator.iter_n g' ≤ N)%nat → remaining g N = symbol :: remaining g' N.
Proof.
  revert g. induction f as [|f IH]; intros g; rewrite next_upto_unfold;
    destruct (NameGenerator.scan _ _) as [[s rest]|] eqn:Hscan; try done.
  - intros [= <- <-]. cbn. split_and!; try done. intros N _.
    unfold remaining. cbn. rewrite !filter_app.
    by rewrite (proj2 (proj2 (proj2 (scan_Some _ _ _ _ Hscan)))).
  - intros [= <- <-]. cbn. split_and!; try done. intros N _.
    unfold remaining. cbn. rewrite !filter_app.
    by rewrite (proj2 (proj2 (proj2 (scan_Some _ _ _ _ Hscan)))).
  - intros (Hskip & Hcs & Hn & Hrem)%IH. cbn in Hskip, Hcs, Hn.
    split_and!; [done|done|lia|]. intros N HN. rewrite <-Hrem by done.
    unfold remaining.
    cbn [NameGenerator.skip NameGenerator.charset NameGenerator.iter_n
         NameGenerator.iter_pending].
    rewrite !filter_app, (scan_None _ _ Hscan).
    rewrite join_product. cbn [app].
    replace (N - NameGenerator.iter_n g) with (S (N - S (NameGenerator.iter_n g))) by lia.
    cbn [seq]. rewrite bind_cons, filter_app. done.
Qed.

Lemma next_upto_pending_ok (f : nat) (g g' : NameGenerator.t) (symbol : string) :
  NameGenerator.next_upto f g = Some (symbol, g') →
  pending_ok g →
  pending_ok g' ∧ String.length symbol = NameGenerator.iter_n g'.
Proof.
  revert g. induction f as [|f IH]; intros g; rewrite next_upto_unfold;
    destruct (NameGenerator.scan _ _) as [[s rest]|] eqn:Hscan; try done.
  - intros [= <- <-] Hok. apply scan_Some in Hscan as (_ & (x & Hx & ->) & Hrest & _).
    unfold pending_ok in *. cbn. rewrite Forall_forall in Hok. split.
    + apply Forall_forall. intros y Hy. apply Hok. by apply Hrest.
    + rewrite join_length. by apply Hok.
  - intros [= <- <-] Hok. apply scan_Some in Hscan as (_ & (x & Hx & ->) & Hrest & _).
    unfold pending_ok in *. cbn. rewrite Forall_forall in Hok. split.
    + apply Forall_forall. intros y Hy. apply Hok. by apply Hrest.
    + rewrite join_length. by apply Hok.
  - intros Hnext _. apply (IH _ Hnext). unfold pending_ok.
    cbn [NameGenerator.iter_n NameGenerator.iter_pending].
    apply Forall_forall. intros x Hx. by apply product_length in Hx.
Qed.

(** With a charset that is not empty the outer loop reaches a length at
    which nothing is skipped: [next] returns. *)
Lemma next_upto_is_Some (f : nat) (g : NameGenerator.t) :
  NameGenerator.charset g ≠ "" →
  (NameGenerator.longest (NameGenerator.skip g) < NameGenerator.iter_n g + f)%nat →
  (1 ≤ f)%nat →
  is_Some (NameGenerator.next_upto f g).
Proof.
  intros Hcs. revert g Hcs. induction f as [|f IH]; intros g Hcs Hlong Hf; [lia|].
  rewrite next_upto_unfold.
  destruct (NameGenerator.scan _ _) as [[s rest]|] eqn:Hscan; [done|].
  destruct f as [|f].
  - rewrite next_upto_unfold.
    cbn [NameGenerator.skip NameGenerator.charset NameGenerator.iter_n
         NameGenerator.iter_pending].
    destruct (scan_long (NameGenerator.skip g)
                (product (list_ascii_of_string (NameGenerator.charset g))
                         (S (NameGenerator.iter_n g)))
                (S (NameGenerator.iter_n g))) as [[s rest] ->]; [lia| | |done].
    + apply Forall_forall. intros x Hx. by apply product_length in Hx.
    + apply product_nonempty. destruct (NameGenerator.charset g); done.
  - apply IH; cbn; [done|lia|lia].
Qed.

Lemma next_is_Some (g : NameGenerator.t) :
  NameGenerator.charset g ≠ "" → is_Some (NameGenerator.next g).
Proof. intros Hcs. apply next_upto_is_Some; [done|lia|lia]. Qed.

(** An empty charset has no combinations of any length: the loop runs
    forever, whatever bound it is given. *)
Lemma next_upto_empty_charset (f : nat) (skip : gset string) (n : nat) :
  NameGenerator.next_upto f (NameGenerator.mk skip "" n []) = None.
Proof.
  revert n. induction f as [|f IH]; intros n; [done|].
  rewrite next_upto_unfold.
  cbn [NameGenerator.skip NameGenerator.charset NameGenerator.iter_n
       NameGenerator.iter_pending NameGenerator.scan list_ascii_of_string].
  rewrite product_S. apply IH.
Qed.

Lemma draw_remaining (k : nat) (g g' : NameGenerator.t) (l : list string) :
  NameGenerator.draw k g = Some (l, g') →
  NameGenerator.skip g' = NameGenerator.skip g ∧
  NameGenerator.charset g' = NameGenerator.charset g ∧
  (NameGenerator.iter_n g ≤ NameGenerator.iter_n g')%nat ∧
  length l = k ∧
  ∀ N, (NameGenerator.iter_n g' ≤ N)%nat → remaining g N = l ++ remaining g' N.
Proof.
  revert g l. induction k as [|k IH]; intros g l.
  - intros [= <- <-]. done.
  - cbn [NameGenerator.draw].
    destruct (NameGenerator.next g) as [[s g1]|] eqn:Hnext; [|done].
    destruct (NameGenerator.draw k g1) as [[l1 g2]|] eqn:Hdraw; [|done].
    intros [= <- <-].
    apply next_upto_remaining in Hnext as (Hs1 & Hc1 & Hn1 & Hr1).
    apply IH in Hdraw as (Hs2 & Hc2 & Hn2 & Hlen & Hr2).
    split_and!; [congruence|congruence|lia|cbn; lia|].
    intros N HN. rewrite Hr1 by lia. rewrite Hr2 by done. done.
Qed.

Lemma draw_is_Some (k : nat) (g : NameGenerator.t) :
  NameGenerator.charset g ≠ "" → is_Some (NameGenerator.draw k g).
Proof.
  revert g. induction k as [|k IH]; intros g Hcs; [done|].
  cbn [NameGenerator.draw].
  destruct (next_is_Some g Hcs) as [[s g1] Hnext]. rewrite Hnext.
  destruct (next_upto_remaining _ _ _ _ Hnext) as (_ & Hc & _).
  destruct (IH g1) as [[l g2] ->]; [congruence|done].
Qed.

Lemma remaining_init (skip : gset string) (charset : string) (N : nat) :
  remaining (NameGenerator.init skip charset) N =
    spec_names (list_ascii_of_string charset) skip N.
Proof.
  unfold remaining, spec_names, candidates. cbn. by rewrite Nat.sub_0_r.
Qed.
(** *** The enumeration of the specification *)

Lemma combinations_elem (alphabet : list ascii) (n : nat) (s : string) :
  s ∈ combinations alphabet n ↔
  String.length s = n ∧ Forall (λ c, c ∈ alphabet) (list_ascii_of_string s).
Proof.
  revert s. induction n as [|n IH]; intros s.
  - cbn [combinations]. rewrite list_elem_of_singleton. split.
    + intros ->. by split.
    + intros [Hlen _]. by destruct s.
  - cbn [combinations]. rewrite list_elem_of_bind. split.
    + intros (c & (s' & -> & [Hlen Hall]%IH)%list_elem_of_fmap & Hc).
      split; [cbn; lia|]. by constructor.
    + intros [Hlen Hall]. destruct s as [|c s]; [done|].
      cbn in Hlen, Hall. apply Forall_cons in Hall as [Hc Hall].
      exists c. split; [|done]. apply list_elem_of_fmap. exists s.
      split; [done|]. apply IH. split; [lia|done].
Qed.

(** Every non-empty string over the alphabet of length at most [N] is a
    candidate, and nothing else is. *)
Lemma candidates_elem (alphabet : list ascii) (N : nat) (s : string) :
  s ∈ candidates alphabet N ↔
  (1 ≤ String.length s ≤ N)%nat ∧ Forall (λ c, c ∈ alphabet) (list_ascii_of_string s).
Proof.
  unfold candidates. rewrite list_elem_of_bind. split.
  - intros (n & [Hlen Hall]%combinations_elem & Hn%elem_of_seq). split; [lia|done].
  - intros [Hlen Hall]. exists (String.length s). split.
    + by apply combinations_elem.
    + apply elem_of_seq. lia.
Qed.

Lemma index_of_app (c : ascii) (pre l : list ascii) :
  c ∉ pre → index_of c (pre ++ l) = (length pre + index_of c l)%nat.
Proof.
  induction pre as [|a pre IH]; [done|].
  intros [Hne Hnin]%not_elem_of_cons. cbn [app index_of length].
  rewrite decide_False by done. rewrite IH by done. lia.
Qed.

Lemma index_of_lt (pre tl : list ascii) (c c' : ascii) :
  NoDup (pre ++ c :: tl) → c' ∈ tl →
  (index_of c (pre ++ c :: tl) < index_of c' (pre ++ c :: tl))%nat.
Proof.
  intros (Hpre & Hdisj & [Hc Htl]%NoDup_cons)%NoDup_app Hc'.
  rewrite !index_of_app.
  - cbn [index_of]. rewrite decide_True by done.
    rewrite decide_False; [lia|]. intros ->. done.
  - intros Hin. apply (Hdisj c' Hin). by apply elem_of_cons; right.
  - intros Hin. apply (Hdisj c Hin). by apply elem_of_cons; left.
Qed.

Lemma lex_lt_String (alphabet : list ascii) (c : ascii) (l : list string) :
  StronglySorted (lex_lt alphabet) l →
  StronglySorted (lex_lt alphabet) (String c <$> l).
Proof.
  induction 1 as [|s l Hl IH Hall]; [constructor|].
  rewrite fmap_cons. constructor; [done|].
  apply Forall_fmap. eapply Forall_impl; [exact Hall|].
  intros s' Hs'. cbn. by right.
Qed.

Lemma combinations_block_sorted (alphabet pre cs : list ascii) (n : nat) :
  alphabet = pre ++ cs → NoDup alphabet →
  StronglySorted (lex_lt alphabet) (combinations alphabet n) →
  StronglySorted (lex_lt alphabet) (c ← cs; String c <$> combinations alphabet n).
Proof.
  intros Halpha Hnd Hn. revert pre Halpha.
  induction cs as [|c cs IH]; intros pre Halpha; [constructor|].
  rewrite bind_cons. apply StronglySorted_app_2.
  - intros s1 s2 (s1' & -> & _)%list_elem_of_fmap
           (c' & (s2' & -> & _)%list_elem_of_fmap & Hc')%list_elem_of_bind.
    cbn. left. rewrite Halpha. apply index_of_lt; [by rewrite <-Halpha|done].
  - by apply lex_lt_String.
  - apply (IH (pre ++ [c])). by rewrite <-app_assoc.
Qed.

Lemma combinations_sorted (alphabet : list ascii) (n : nat) :
  NoDup alphabet → StronglySorted (lex_lt alphabet) (combinations alphabet n).
Proof.
  intros Hnd. induction n as [|n IH].
  - repeat constructor.
  - cbn [combinations]. by apply (combinations_block_sorted alphabet []).
Qed.

(** Without repeated characters in the alphabet the candidates are strictly
    increasing: shorter before longer, and within a length in the order of
    the alphabet. *)
Lemma candidates_sorted (alphabet : list ascii) (N : nat) :
  NoDup alphabet → StronglySorted (shortlex_lt alphabet) (candidates alphabet N).
Proof.
  intros Hnd. unfold candidates. generalize 1%nat as start.
  induction N as [|N IH]; intros start; [constructor|].
  cbn [seq]. rewrite bind_cons. apply StronglySorted_app_2.
  - intros s1 s2 [Hlen1 _]%combinations_elem
           (n & [Hlen2 _]%combinations_elem & Hn%elem_of_seq)%list_elem_of_bind.
    left. lia.
  - pose proof (combinations_sorted alphabet start Hnd) as Hsorted.
    assert (Forall (λ s, String.length s = start) (combinations alphabet start)) as Hlen.
    { apply Forall_forall. by intros s [Hs _]%combinations_elem. }
    induction Hsorted as [|s l Hl IHl Hall]; [constructor|].
    apply Forall_cons in Hlen as [Hs Hlen]. constructor; [by apply IHl|].
    rewrite Forall_forall in Hall, Hlen. apply Forall_forall. intros s' Hs'.
    right. split; [by rewrite Hs, (Hlen s' Hs')|by apply Hall].
  - apply IH.
Qed.

Lemma lex_lt_irrefl (alphabet : list ascii) (s : string) : ¬ lex_lt alphabet s s.
Proof.
  induction s as [|c s IH]; [by intros []|].
  cbn [lex_lt]. intros [Hlt|[_ Hs]]; [lia|by apply IH].
Qed.

Lemma shortlex_lt_irrefl (alphabet : list ascii) (s : string) : ¬ shortlex_lt alphabet s s.
Proof. intros [Hlt|[_ Hs]]; [lia|by apply lex_lt_irrefl in Hs]. Qed.

Lemma StronglySorted_irrefl_NoDup {A : Type} (R : relation A) (l : list A) :
  (∀ x, ¬ R x x) → StronglySorted R l → NoDup l.
Proof.
  intros Hirr. induction 1 as [|x l Hl IH Hall]; constructor; [|done].
  rewrite Forall_forall in Hall. intros Hx. by apply (Hirr x), Hall.
Qed.

Lemma candidates_NoDup (alphabet : list ascii) (N : nat) :
  NoDup alphabet → NoDup (candidates alphabet N).
Proof.
  intros Hnd. eapply StronglySorted_irrefl_NoDup; [|by apply candidates_sorted].
  apply shortlex_lt_irrefl.
Qed.

(** C8: the first [k] names of a fresh generator are the first [k] entries
    of the sequence of the specification (all combinations over the charset
    by increasing length, each length in the order of the charset, the
    members of [skip] removed): none of them is in [skip], and a charset
    that is not empty yields [k] names for every [k].  For a charset without
    repeated characters that sequence holds every non-empty string over the
    charset exactly once, shorter strings first and strings of one length in
    lexicographic order. *)
Theorem generator_enumeration (charset : string) (skip : gset string) (k : nat) :
  (∀ l g, NameGenerator.draw k (NameGenerator.init skip charset) = Some (l, g) →
          length l = k ∧
          Forall (λ s, s ∉ skip) l ∧
          ∃ N0, ∀ N, (N0 ≤ N)%nat →
                     l = take k (spec_names (list_ascii_of_string charset) skip N)) ∧
  (charset ≠ "" → is_Some (NameGenerator.draw k (NameGenerator.init skip charset))) ∧
  (NoDup (list_ascii_of_string charset) →
   ∀ N, StronglySorted (shortlex_lt (list_ascii_of_string charset))
                       (candidates (list_ascii_of_string charset) N) ∧
        ∀ s, s ∈ candidates (list_ascii_of_string charset) N ↔
             (1 ≤ String.length s ≤ N)%nat ∧
             Forall (λ c, c ∈ list_ascii_of_string charset) (list_ascii_of_string s)).
Proof.
  split_and!.
  - intros l g (Hskip & _ & _ & Hlen & Hrem)%draw_remaining. split; [done|].
    assert (∀ N, (NameGenerator.iter_n g ≤ N)%nat →
                 spec_names (list_ascii_of_string charset) skip N = l ++ remaining g N)
      as Hspec.
    { intros N HN. rewrite <-remaining_init. by apply Hrem. }
    split.
    + apply Forall_forall. intros s Hs.
      assert (s ∈ spec_names (list_ascii_of_string charset) skip
                    (NameGenerator.iter_n g)) as Hin.
      { rewrite Hspec by done. apply elem_of_app. by left. }
      by apply list_elem_of_filter in Hin as [? _].
    + exists (NameGenerator.iter_n g). intros N HN.
      rewrite Hspec by done. by rewrite <-Hlen, take_app_length.
  - intros Hcs. by apply draw_is_Some.
  - intros Hnd N. split; [by apply candidates_sorted|]. intros s. apply candidates_elem.
Qed.

Lemma generator_enumeration_witness :
  NameGenerator.draw 5 (NameGenerator.init {["b"; "ab"]} "abc") =
    Some (["a"; "c"; "aa"; "ac"; "ba"],
          NameGenerator.mk {["b"; "ab"]} "abc" 2
            (list_ascii_of_string <$> ["bb"; "bc"; "ca"; "cb"; "cc"])) ∧
  (∃ N0, ∀ N, (N0 ≤ N)%nat →
     ["a"; "c"; "aa"; "ac"; "ba"] =
       take 5 (spec_names (list_ascii_of_string "abc") {["b"; "ab"]} N)) ∧
  is_Some (NameGenerator.draw 5 (NameGenerator.init {["b"; "ab"]} "abc")) ∧
  StronglySorted (shortlex_lt (list_ascii_of_string "abc"))
                 (candidates (list_ascii_of_string "abc") 2).
Proof.
  split; [vm_compute; reflexivity|]. split_and!.
  - apply (proj1 (generator_enumeration "abc" {["b"; "ab"]} 5) _
             (NameGenerator.mk {["b"; "ab"]} "abc" 2
                (list_ascii_of_string <$> ["bb"; "bc"; "ca"; "cb"; "cc"]))).
    vm_compute; reflexivity.
  - apply (proj1 (proj2 (generator_enumeration "abc" {["b"; "ab"]} 5))). discriminate.
  - apply (proj2 (proj2 (generator_enumeration "abc" {["b"; "ab"]} 5))).
    by apply (bool_decide_unpack _).
Defined.

(** ** The remap loop *)

(** The loop draws one name for each eligible entry, in order. *)
Lemma remap_loop_draw (items : list (string * Z)) (declared : gset string)
    (g : NameGenerator.t) (remapped : list (string * string)) :
  Scope.remap_loop items declared g remapped =
    match NameGenerator.draw (length (eligible declared items)) g with
    | Some (names, _) => Some (assign remapped (eligible declared items).*1 names)
    | None => None
    end.
Proof.
  revert g remapped. induction items as [|[symbol c] items IH]; intros g remapped; [done|].
  cbn [Scope.remap_loop]. unfold eligible. destruct (decide (symbol ∉ declared)) as [Hn|Hd].
  - rewrite filter_cons_False by done. apply IH.
  - rewrite filter_cons_True by (cbn; by destruct (decide (symbol ∈ declared))).
    cbn [length NameGenerator.draw].
    destruct (NameGenerator.next g) as [[name g']|]; [|done].
    rewrite IH. unfold eligible.
    destruct (NameGenerator.draw _ g') as [[names g'']|]; done.
Qed.

Lemma assign_cons (r : list (string * string)) (s n : string) (symbols names : list string) :
  assign r (s :: symbols) (n :: names) = assign (Dict.set s n r) symbols names.
Proof. done. Qed.

Lemma assign_get_other (r : list (string * string)) (symbols names : list string)
    (s : string) :
  s ∉ symbols → Dict.get s (assign r symbols names) = Dict.get s r.
Proof.
  revert r names. induction symbols as [|s' symbols IH]; intros r names Hs; [done|].
  destruct names as [|n names]; [done|].
  apply not_elem_of_cons in Hs as [Hne Hs].
  rewrite assign_cons, IH by done. by apply dict_get_set_ne.
Qed.

Lemma assign_get (r : list (string * string)) (symbols names : list string)
    (i : nat) (s n : string) :
  NoDup symbols → symbols !! i = Some s → names !! i = Some n →
  Dict.get s (assign r symbols names) = Some n.
Proof.
  revert r names i. induction symbols as [|s' symbols IH]; intros r names i Hnd; [done|].
  apply NoDup_cons in Hnd as [Hs' Hnd].
  destruct names as [|n' names]; [by destruct i|].
  rewrite assign_cons. destruct i as [|i]; cbn.
  - intros [= ->] [= ->]. rewrite assign_get_other by done. apply dict_get_set_eq.
  - by apply IH.
Qed.

Lemma assign_get_inv (symbols names : list string) (s n : string) :
  NoDup symbols → length symbols = length names →
  Dict.get s (assign [] symbols names) = Some n →
  ∃ i, symbols !! i = Some s ∧ names !! i = Some n.
Proof.
  intros Hnd Hlen Hget. destruct (decide (s ∈ symbols)) as [Hin|Hnin].
  - apply list_elem_of_lookup in Hin as [i Hi]. exists i. split; [done|].
    destruct (names !! i) as [n'|] eqn:Hn.
    + rewrite (assign_get [] symbols names i s n') in Hget by done. congruence.
    + apply lookup_ge_None in Hn. apply lookup_lt_Some in Hi. lia.
  - by rewrite assign_get_other in Hget.
Qed.

Lemma assign_keys (r : list (string * string)) (symbols names : list string) (s : string) :
  length symbols = length names →
  s ∈ Dict.keys (assign r symbols names) ↔ s ∈ Dict.keys r ∨ s ∈ symbols.
Proof.
  revert r names. induction symbols as [|s' symbols IH]; intros r names Hlen.
  - destruct names; [|done]. cbn. rewrite elem_of_nil. naive_solver.
  - destruct names as [|n names]; [done|]. rewrite assign_cons, IH by (cbn in Hlen; lia).
    rewrite dict_keys_set, elem_of_cons. case_decide; [|rewrite elem_of_app, list_elem_of_singleton];
      naive_solver.
Qed.

Lemma assign_values (r : list (string * string)) (symbols names : list string) (v : string) :
  v ∈ Dict.values (assign r symbols names) → v ∈ Dict.values r ∨ v ∈ names.
Proof.
  revert r names. induction symbols as [|s' symbols IH]; intros r names.
  - destruct names; cbn; by left.
  - destruct names as [|n names]; [by left|]. rewrite assign_cons.
    intros [[->|Hv]%dict_values_set|Hv]%IH.
    + right. by apply elem_of_cons; left.
    + by left.
    + right. by apply elem_of_cons; right.
Qed.

(** *** The order of the loop *)

Lemma insert_by_count_perm {A : Type} (x : A * Z) (l : list (A * Z)) :
  insert_by_count x l ≡ₚ x :: l.
Proof.
  induction l as [|y l IH]; [done|]. cbn [insert_by_count].
  case_bool_decide; [done|]. rewrite IH. apply Permutation_swap.
Qed.

Lemma sorted_by_count_perm {A : Type} (l : list (A * Z)) : sorted_by_count l ≡ₚ l.
Proof.
  induction l as [|x l IH]; [done|].
  cbn [sorted_by_count foldr]. rewrite insert_by_count_perm. by f_equiv.
Qed.

Lemma insert_by_count_sorted {A : Type} (x : A * Z) (l : list (A * Z)) :
  StronglySorted (λ a b, a.2 ≤ b.2)%Z l →
  StronglySorted (λ a b, a.2 ≤ b.2)%Z (insert_by_count x l).
Proof.
  induction 1 as [|y l Hl IH Hall]; [repeat constructor|].
  cbn [insert_by_count]. case_bool_decide as Hle.
  - constructor; [by constructor|]. constructor; [done|].
    eapply Forall_impl; [exact Hall|]. cbn. intros; lia.
  - constructor; [done|]. rewrite insert_by_count_perm. constructor; [lia|done].
Qed.

Lemma sorted_by_count_sorted {A : Type} (l : list (A * Z)) :
  StronglySorted (λ a b, a.2 ≤ b.2)%Z (sorted_by_count l).
Proof.
  induction l as [|x l IH]; [constructor|]. by apply insert_by_count_sorted.
Qed.

Lemma StronglySorted_reverse_flip {A : Type} (R : relation A) (l : list A) :
  StronglySorted R l → StronglySorted (flip R) (reverse l).
Proof.
  induction 1 as [|x l Hl IH Hall]; [constructor|].
  rewrite reverse_cons. apply StronglySorted_app_2; [|done|repeat constructor].
  intros a b Ha ->%list_elem_of_singleton. rewrite Forall_forall in Hall.
  apply Hall. by apply elem_of_reverse.
Qed.

Lemma StronglySorted_filter {A : Type} (R : relation A) (P : A → Prop)
    `{!∀ x, Decision (P x)} (l : list A) :
  StronglySorted R l → StronglySorted R (filter P l).
Proof.
  induction 1 as [|x l Hl IH Hall]; [constructor|].
  rewrite filter_cons. case_decide; [|done]. constructor; [done|].
  rewrite Forall_forall in Hall. apply Forall_forall.
  intros y [_ Hy]%list_elem_of_filter. by apply Hall.
Qed.

Lemma StronglySorted_lookup {A : Type} (R : relation A) (l : list A) (i j : nat) (a b : A) :
  StronglySorted R l → l !! i = Some a → l !! j = Some b → i < j → R a b.
Proof.
  intros Hs. revert i j. induction Hs as [|x l Hl IH Hall]; intros i j; [done|].
  destruct i as [|i], j as [|j]; cbn; try lia.
  - intros [= ->] Hb _. rewrite Forall_forall in Hall.
    by eapply Hall, list_elem_of_lookup_2.
  - intros Ha Hb Hlt. apply (IH i j); [done|done|lia].
Qed.

(** the eligible entries of a scope, as the loop meets them *)
Lemma loop_order_sorted (declared : gset string) (refs : list (string * Z)) :
  StronglySorted count_ge (eligible declared (reverse (sorted_by_count refs))).
Proof.
  apply StronglySorted_filter.
  apply (StronglySorted_reverse_flip (λ a b, a.2 ≤ b.2)%Z), sorted_by_count_sorted.
Qed.

Lemma loop_order_elem (declared : gset string) (refs : list (string * Z)) (kv : string * Z) :
  kv ∈ eligible declared (reverse (sorted_by_count refs)) ↔
  kv.1 ∈ declared ∧ kv ∈ refs.
Proof.
  unfold eligible. by rewrite list_elem_of_filter, elem_of_reverse, sorted_by_count_perm.
Qed.

Lemma loop_order_NoDup (declared : gset string) (refs : list (string * Z)) :
  NoDup (Dict.keys refs) →
  NoDup (eligible declared (reverse (sorted_by_count refs))).*1.
Proof.
  intros Hnd. unfold eligible.
  eapply sublist_NoDup; [|apply fmap_sublist, sublist_filter].
  rewrite fmap_reverse, reverse_Permutation.
  unfold Dict.keys in Hnd. by rewrite sorted_by_count_perm.
Qed.

(** *** The names of the loop *)

Lemma draw_no_longer (k : nat) (g g' : NameGenerator.t) (l : list string) :
  NameGenerator.draw k g = Some (l, g') →
  pending_ok g →
  pending_ok g' ∧
  Forall (λ s, NameGenerator.iter_n g ≤ String.length s ≤ NameGenerator.iter_n g')%nat l ∧
  StronglySorted no_longer l.
Proof.
  revert g l. induction k as [|k IH]; intros g l.
  - intros [= <- <-] Hok. split_and!; [done|constructor|constructor].
  - cbn [NameGenerator.draw].
    destruct (NameGenerator.next g) as [[s g1]|] eqn:Hnext; [|done].
    destruct (NameGenerator.draw k g1) as [[l1 g2]|] eqn:Hdraw; [|done].
    intros [= <- <-] Hok.
    destruct (next_upto_pending_ok _ _ _ _ Hnext Hok) as [Hok1 Hlen].
    destruct (next_upto_remaining _ _ _ _ Hnext) as (_ & _ & Hn1 & _).
    destruct (IH _ _ Hdraw Hok1) as (Hok2 & Hall & Hsorted).
    destruct (draw_remaining _ _ _ _ Hdraw) as (_ & _ & Hn2 & _).
    split_and!; [done| |].
    + constructor; [lia|]. eapply Forall_impl; [exact Hall|]. cbn. intros; lia.
    + constructor; [done|]. eapply Forall_impl; [exact Hall|].
      unfold no_longer. cbn. intros; lia.
Qed.

Lemma draw_not_skipped (k : nat) (g g' : NameGenerator.t) (l : list string) :
  NameGenerator.draw k g = Some (l, g') →
  Forall (λ s, s ∉ NameGenerator.skip g) l.
Proof.
  intros (_ & _ & _ & _ & Hrem)%draw_remaining.
  apply Forall_forall. intros s Hs.
  assert (s ∈ remaining g (NameGenerator.iter_n g')) as Hin.
  { rewrite Hrem by done. apply elem_of_app. by left. }
  unfold remaining in Hin. by apply list_elem_of_filter in Hin as [? _].
Qed.

Lemma draw_fresh_NoDup (k : nat) (skip : gset string) (charset : string)
    (g' : NameGenerator.t) (l : list string) :
  NoDup (list_ascii_of_string charset) →
  NameGenerator.draw k (NameGenerator.init skip charset) = Some (l, g') →
  NoDup l.
Proof.
  intros Hnd (_ & _ & _ & _ & Hrem)%draw_remaining.
  specialize (Hrem (NameGenerator.iter_n g') (le_n _)).
  rewrite remaining_init in Hrem.
  assert (NoDup (spec_names (list_ascii_of_string charset) skip (NameGenerator.iter_n g')))
    as Hspec by by apply NoDup_filter, candidates_NoDup.
  rewrite Hrem in Hspec. by apply NoDup_app in Hspec as [? _].
Qed.
Lemma remap_own_Normal (h h' : list Scope.t) (self : nat) (gen : NameGenerator.t) :
  Scope.remap_own h self gen = Normal h' →
  ∃ names g',
    NameGenerator.draw (length (loop_symbols (h !!! self)))
                       (NameGenerator.call gen (Scope.remap_skip h self))
      = Some (names, g') ∧
    length names = length (loop_symbols (h !!! self)) ∧
    h' = alter (Scope.set_remapped_symbols
                  (assign (Scope.remapped_symbols (h !!! self))
                          (loop_symbols (h !!! self)) names)) self h.
Proof.
  unfold Scope.remap_own. rewrite remap_loop_draw. unfold loop_symbols.
  rewrite length_fmap.
  destruct (NameGenerator.draw _ _) as [[names g']|] eqn:Hdraw; [|done].
  intros [= <-]. exists names, g'. split; [done|]. split; [|done].
  by destruct (draw_remaining _ _ _ _ Hdraw) as (_ & _ & _ & ? & _).
Qed.

Lemma loop_symbols_NoDup (s : Scope.t) :
  NoDup (Dict.keys (Scope.referenced_symbols s)) → NoDup (loop_symbols s).
Proof. apply loop_order_NoDup. Qed.

Lemma loop_symbols_elem (s : Scope.t) (k : string) :
  k ∈ loop_symbols s ↔
  k ∈ Scope.local_declared_symbols s ∧ k ∈ Dict.keys (Scope.referenced_symbols s).
Proof.
  unfold loop_symbols, Dict.keys. rewrite !list_elem_of_fmap. split.
  - intros ([k' c] & -> & [Hd Hr]%loop_order_elem). split; [done|]. by exists (k', c).
  - intros [Hd ([k' c] & -> & Hr)]. exists (k', c). split; [done|].
    by apply loop_order_elem.
Qed.

Lemma fresh_pending_ok (gen : NameGenerator.t) (skip : gset string) :
  pending_ok (NameGenerator.call gen skip).
Proof. constructor. Qed.

(** C6: in the remap step of one scope, a locally declared symbol with a
    larger reference count gets a replacement that is not longer than the
    one of a locally declared symbol with a smaller count: both get one,
    the first is drawn earlier, and the generator never goes back to a
    shorter length. *)
Theorem remap_frequency_priority (h h' : list Scope.t) (self : nat)
    (name_generator : NameGenerator.t) (s1 s2 : string) (c1 c2 : Z) :
  self < length h →
  NoDup (Dict.keys (Scope.referenced_symbols (h !!! self))) →
  Scope.remap_own h self name_generator = Normal h' →
  s1 ∈ Scope.local_declared_symbols (h !!! self) →
  s2 ∈ Scope.local_declared_symbols (h !!! self) →
  Dict.get s1 (Scope.referenced_symbols (h !!! self)) = Some c1 →
  Dict.get s2 (Scope.referenced_symbols (h !!! self)) = Some c2 →
  (c2 < c1)%Z →
  ∃ r1 r2,
    Dict.get s1 (Scope.remapped_symbols (h' !!! self)) = Some r1 ∧
    Dict.get s2 (Scope.remapped_symbols (h' !!! self)) = Some r2 ∧
    (String.length r1 ≤ String.length r2)%nat.
Proof.
  intros Hlt Hnd (names & g' & Hdraw & Hlen & ->)%remap_own_Normal Hd1 Hd2 Hc1 Hc2 Hc.
  rewrite list_lookup_total_alter_eq by done. cbn [Scope.remapped_symbols Scope.set_remapped_symbols].
  set (E := eligible (Scope.local_declared_symbols (h !!! self))
                     (reverse (sorted_by_count (Scope.referenced_symbols (h !!! self))))).
  assert ((s1, c1) ∈ E) as [i Hi]%list_elem_of_lookup.
  { apply loop_order_elem. split; [done|]. by apply dict_get_Some_elem. }
  assert ((s2, c2) ∈ E) as [j Hj]%list_elem_of_lookup.
  { apply loop_order_elem. split; [done|]. by apply dict_get_Some_elem. }
  assert (loop_symbols (h !!! self) !! i = Some s1) as Hsi.
  { unfold loop_symbols. fold E. by rewrite list_lookup_fmap, Hi. }
  assert (loop_symbols (h !!! self) !! j = Some s2) as Hsj.
  { unfold loop_symbols. fold E. by rewrite list_lookup_fmap, Hj. }
  destruct (names !! i) as [r1|] eqn:Hr1;
    [|apply lookup_ge_None in Hr1; apply lookup_lt_Some in Hsi; lia].
  destruct (names !! j) as [r2|] eqn:Hr2;
    [|apply lookup_ge_None in Hr2; apply lookup_lt_Some in Hsj; lia].
  exists r1, r2. pose proof (loop_symbols_NoDup _ Hnd) as Hnds.
  split_and!; [by eapply assign_get|by eapply assign_get|].
  assert (i < j) as Hij.
  { destruct (decide (i < j)) as [|Hge]; [done|]. exfalso.
    destruct (decide (i = j)) as [->|Hne].
    - rewrite Hi in Hj. injection Hj as _ ->. lia.
    - pose proof (StronglySorted_lookup count_ge E j i _ _
                    (loop_order_sorted _ _) Hj Hi ltac:(lia)) as Hge'.
      unfold count_ge in Hge'. cbn in Hge'. lia. }
  destruct (draw_no_longer _ _ _ _ Hdraw (fresh_pending_ok _ _)) as (_ & _ & Hsorted).
  apply (StronglySorted_lookup no_longer names i j r1 r2 Hsorted Hr1 Hr2 Hij).
Qed.

Lemma remap_frequency_priority_witness :
  ∃ h' r1 r2,
    Scope.remap_own two_declarations 0 (NameGenerator.init ∅ "a") = Normal h' ∧
    Dict.get "y" (Scope.remapped_symbols (h' !!! 0)) = Some r1 ∧
    Dict.get "x" (Scope.remapped_symbols (h' !!! 0)) = Some r2 ∧
    (String.length r1 ≤ String.length r2)%nat.
Proof.
  eexists.
  destruct (remap_frequency_priority two_declarations
              (alter (Scope.set_remapped_symbols [("y", "a"); ("x", "aa")]) 0 two_declarations)
              0 (NameGenerator.init ∅ "a") "y" "x" 5 1)
    as (r1 & r2 & H1 & H2 & Hle).
  - cbn; lia.
  - by apply (bool_decide_unpack _).
  - vm_compute; reflexivity.
  - by apply (bool_decide_unpack _).
  - by apply (bool_decide_unpack _).
  - reflexivity.
  - reflexivity.
  - lia.
  - exists r1, r2. split; [vm_compute; reflexivity|]. split_and!; [exact H1|exact H2|exact Hle].
Defined.

(** ** The heap is a tree *)

Lemma snoc_lookup_total (h : list Scope.t) (x : Scope.t) (i : nat) :
  (h ++ [x]) !!! i = if decide (i = length h) then x else h !!! i.
Proof.
  case_decide as Hi.
  - subst. by apply list_lookup_total_middle.
  - destruct (decide (i < length h)) as [Hlt|Hge].
    + by apply lookup_total_app_l.
    + rewrite !list_lookup_total_alt, !lookup_ge_None_2; [done|lia|].
      rewrite length_app. cbn. lia.
Qed.

Lemma parent_Some_lt (h : list Scope.t) (i p : nat) :
  Scope.parent (h !!! i) = Some p → i < length h.
Proof.
  intros Hp. destruct (decide (i < length h)); [done|].
  rewrite list_lookup_total_alt, lookup_ge_None_2 in Hp by lia. done.
Qed.

Lemma under_trans (h : list Scope.t) (i j k : nat) :
  under h i j → under h j k → under h i k.
Proof. intros Hij. induction 1; [done|]. by eapply under_child. Qed.

Lemma under_ge (h : list Scope.t) (i j : nat) : tree h → under h i j → i ≤ j.
Proof.
  intros Ht. induction 1 as [|j p Hp _ IH]; [done|].
  pose proof (tree_parent h Ht j p Hp). lia.
Qed.

Lemma under_lt (h : list Scope.t) (i j : nat) : i < length h → under h i j → j < length h.
Proof. intros Hi. destruct 1 as [|j p Hp _]; [done|]. by eapply parent_Some_lt. Qed.

Lemma under_root (h : list Scope.t) (j : nat) : tree h → j < length h → under h 0 j.
Proof.
  intros Ht. induction (lt_wf j) as [j _ IH]. intros Hj.
  destruct (Scope.parent (h !!! j)) as [p|] eqn:Hp.
  - pose proof (tree_parent h Ht j p Hp). eapply under_child; [done|].
    apply IH; lia.
  - rewrite (tree_root h Ht j Hj Hp). constructor.
Qed.

(** a scope strictly under [i] is under one of the children of [i] *)
Lemma under_children (h : list Scope.t) (i j : nat) :
  tree h → under h i j → i ≠ j →
  ∃ c, c ∈ Scope.children (h !!! i) ∧ under h c j.
Proof.
  intros Ht. induction 1 as [|j p Hp Hip IH]; [done|]. intros _.
  destruct (decide (i = p)) as [->|Hne].
  - exists j. split; [by apply (tree_child_of_parent h Ht)|constructor].
  - destruct (IH Hne) as (c & Hc & Hcp). exists c. split; [done|].
    by eapply under_child.
Qed.

Lemma child_under (h : list Scope.t) (i c : nat) :
  tree h → c ∈ Scope.children (h !!! i) → under h i c.
Proof.
  intros Ht [_ Hp]%(tree_children h Ht). eapply under_child; [done|constructor].
Qed.

(** the subtrees of two children of one scope are disjoint *)
Lemma under_disjoint (h : list Scope.t) (i c c' j : nat) :
  tree h →
  Scope.parent (h !!! c) = Some i → Scope.parent (h !!! c') = Some i → c ≠ c' →
  under h c j → under h c' j → False.
Proof.
  intros Ht Hc Hc' Hne Hcj. pose proof (tree_parent h Ht _ _ Hc) as Hic.
  pose proof (tree_parent h Ht _ _ Hc') as Hic'.
  induction Hcj as [|j p Hp Hcp IH]; intros Hc'j.
  - inversion Hc'j as [|? p Hp Hc'p]; subst; [done|].
    assert (p = i) as -> by congruence.
    pose proof (under_ge _ _ _ Ht Hc'p). lia.
  - inversion Hc'j as [|? p' Hp' Hc'p]; subst.
    + assert (p = i) as -> by congruence.
      pose proof (under_ge _ _ _ Ht Hcp). lia.
    + assert (p' = p) as -> by congruence. by apply IH.
Qed.

Lemma same_links_tree (h h' : list Scope.t) : same_links h h' → tree h → tree h'.
Proof.
  intros [Hlen Hl] Ht. split.
  - rewrite Hlen. apply Ht.
  - intros i p. rewrite (proj1 (Hl i)). apply Ht.
  - intros i c. rewrite (proj2 (Hl i)), (proj1 (Hl c)). apply Ht.
  - intros i. rewrite (proj2 (Hl i)). apply Ht.
  - intros i p. rewrite (proj1 (Hl i)), (proj2 (Hl p)). apply Ht.
  - intros i. rewrite Hlen, (proj1 (Hl i)). apply Ht.
Qed.

Lemma alter_same_links (f : Scope.t → Scope.t) (a : nat) (h : list Scope.t) :
  (∀ s, Scope.parent (f s) = Scope.parent s ∧ Scope.children (f s) = Scope.children s) →
  same_links h (alter f a h).
Proof.
  intros Hf. split; [apply length_alter|]. intros i.
  rewrite list_lookup_total_alter. case_decide as Hi; [|done].
  destruct Hi as [-> _]. apply Hf.
Qed.

Lemma alter_dicts_ok (f : Scope.t → Scope.t) (a : nat) (h : list Scope.t) :
  (∀ s, scope_ok s → scope_ok (f s)) → dicts_ok h → dicts_ok (alter f a h).
Proof.
  intros Hf Hd i. rewrite list_lookup_total_alter. case_decide; [|done]. by apply Hf.
Qed.

Lemma alter_unmapped (f : Scope.t → Scope.t) (a : nat) (h : list Scope.t) :
  (∀ s, Scope.remapped_symbols (f s) = Scope.remapped_symbols s) →
  unmapped h → unmapped (alter f a h).
Proof.
  intros Hf Hu i. rewrite list_lookup_total_alter. case_decide; [|done].
  by rewrite Hf.
Qed.

Lemma claim_dict_scope_ok (s : Scope.t) (l : list (string * Z)) :
  scope_ok s →
  scope_ok (Scope.set_referenced_symbols
              (foldl claim_dict (Scope.referenced_symbols s) l) s).
Proof.
  destruct s as [cl nd pa ch refs decl rem]. unfold scope_ok.
  cbn [Scope.referenced_symbols Scope.local_declared_symbols Scope.set_referenced_symbols].
  revert refs. induction l as [|kv l IH]; intros refs [Hnd Hdecl]; [done|].
  cbn [foldl]. apply IH. unfold claim_dict. split; [by apply dict_set_NoDup|].
  intros x Hx. rewrite dict_keys_set.
  case_decide; [by apply Hdecl|]. apply elem_of_app. left. by apply Hdecl.
Qed.

(** *** nest *)

Lemma nest_tree (h : list Scope.t) (current node : nat) :
  tree h → current < length h → tree (Scope.nest h current node).1.
Proof.
  intros Ht Hcur. unfold Scope.nest. cbn [fst].
  assert (∀ i, (alter (λ s, Scope.set_children (Scope.children s ++ [length h]) s) current
                  (h ++ [Scope.init (Some node) (Some current)])) !!! i =
               if decide (i = length h) then Scope.init (Some node) (Some current)
               else if decide (i = current)
                    then Scope.set_children (Scope.children (h !!! current) ++ [length h])
                                            (h !!! current)
                    else h !!! i) as Hlook.
  { intros i. rewrite list_lookup_total_alter, !snoc_lookup_total, length_app. cbn.
    repeat case_decide; try done; try lia. }
  assert (∀ i, Scope.parent ((alter (λ s, Scope.set_children (Scope.children s ++ [length h]) s)
                 current (h ++ [Scope.init (Some node) (Some current)])) !!! i) =
               if decide (i = length h) then Some current else Scope.parent (h !!! i)) as Hpar.
  { intros i. rewrite Hlook. repeat case_decide; subst; done. }
  assert (∀ i, Scope.children ((alter (λ s, Scope.set_children (Scope.children s ++ [length h]) s)
                 current (h ++ [Scope.init (Some node) (Some current)])) !!! i) =
               if decide (i = length h) then []
               else if decide (i = current) then Scope.children (h !!! current) ++ [length h]
                    else Scope.children (h !!! i)) as Hch.
  { intros i. rewrite Hlook. repeat case_decide; subst; done. }
  assert (∀ i c, c ∈ Scope.children (h !!! i) → c < length h) as Hbound.
  { intros i c [_ Hp]%(tree_children h Ht). by eapply parent_Some_lt. }
  split.
  - rewrite length_alter, length_app. cbn. lia.
  - intros i p. rewrite Hpar. case_decide; [intros [= <-]; lia|apply Ht].
  - intros i c. rewrite Hch, Hpar.
    destruct (decide (i = length h)) as [->|Hi]; [by intros ?%elem_of_nil|].
    destruct (decide (i = current)) as [->|Hic].
    + intros [Hc| ->%list_elem_of_singleton]%elem_of_app.
      * pose proof (Hbound _ _ Hc). rewrite decide_False by lia.
        by apply (tree_children h Ht).
      * by rewrite decide_True.
    + intros Hc. pose proof (Hbound _ _ Hc). rewrite decide_False by lia.
      by apply (tree_children h Ht).
  - intros i. rewrite Hch.
    destruct (decide (i = length h)) as [->|Hi]; [constructor|].
    destruct (decide (i = current)) as [->|Hic]; [|apply Ht].
    apply NoDup_app. split_and!; [apply Ht| |apply NoDup_singleton].
    intros c Hc ->%list_elem_of_singleton. pose proof (Hbound _ _ Hc). lia.
  - intros i p. rewrite Hpar, Hch. case_decide as Hi.
    + intros [= <-]. rewrite decide_False by lia. rewrite decide_True by done.
      apply elem_of_app. right. by apply list_elem_of_singleton.
    + intros Hp. pose proof (parent_Some_lt _ _ _ Hp).
      pose proof (tree_parent h Ht _ _ Hp).
      rewrite (decide_False (P := p = length h)) by lia.
      case_decide; subst; [apply elem_of_app; left|]; by apply (tree_child_of_parent h Ht).
  - intros i. rewrite length_alter, length_app, Hpar. cbn.
    case_decide; [done|]. intros Hi. apply Ht. lia.
Qed.

Lemma nest_dicts_ok (h : list Scope.t) (current node : nat) :
  dicts_ok h → dicts_ok (Scope.nest h current node).1.
Proof.
  intros Hd. unfold Scope.nest. cbn [fst]. apply alter_dicts_ok.
  - by intros [].
  - intros i. rewrite snoc_lookup_total. case_decide; [|done].
    split; [constructor|]. intros x Hx. by apply elem_of_empty in Hx.
Qed.

Lemma nest_unmapped (h : list Scope.t) (current node : nat) :
  unmapped h → unmapped (Scope.nest h current node).1.
Proof.
  intros Hu. unfold Scope.nest. cbn [fst]. apply alter_unmapped; [by intros []|].
  intros i. rewrite snoc_lookup_total. case_decide; [done|apply Hu].
Qed.

(** *** close *)

Lemma close_Normal (h h' : list Scope.t) (self : nat) :
  tree h → Scope.close h self = Normal h' →
  h' = alter (λ s, Scope.set_closed true
                     (Scope.set_referenced_symbols
                        (foldl claim_dict (Scope.referenced_symbols s)
                           (child ← Scope.children (h !!! self);
                            Scope.leaked_referenced_symbols (h !!! child))) s))
             self h.
Proof.
  intros Ht. unfold Scope.close. destruct (Scope._closed _); [done|].
  intros [= <-]. rewrite close_loop, list_alter_alter_eq; [done|].
  intros [Hlt _]%(tree_children h Ht). lia.
Qed.

Lemma close_invariants (h h' : list Scope.t) (self : nat) :
  tree h → dicts_ok h → unmapped h → Scope.close h self = Normal h' →
  tree h' ∧ dicts_ok h' ∧ unmapped h' ∧ length h' = length h.
Proof.
  intros Ht Hd Hu ->%close_Normal; [|done]. split_and!.
  - eapply same_links_tree; [|done]. apply alter_same_links. by intros [].
  - apply alter_dicts_ok; [|done]. intros s Hs.
    match goal with
    | |- context [foldl claim_dict _ ?l] => pose proof (claim_dict_scope_ok s l Hs) as Hs'
    end.
    by destruct s.
  - apply alter_unmapped; [|done]. by intros [].
  - apply length_alter.
Qed.

(** *** The states of a walk *)

Lemma declare_scope_ok (symbol : string) (s : Scope.t) :
  scope_ok s →
  scope_ok (Scope.set_referenced_symbols
              (Dict.set symbol
                 (default 0%Z (Dict.get symbol (Scope.referenced_symbols s)))
                 (Scope.referenced_symbols s))
              (Scope.set_local_declared_symbols
                 (Scope.local_declared_symbols s ∪ {[symbol]}) s)).
Proof.
  destruct s as [cl nd pa ch refs decl rem]. unfold scope_ok.
  cbn [Scope.referenced_symbols Scope.local_declared_symbols Scope.set_referenced_symbols
       Scope.set_local_declared_symbols].
  intros [Hnd Hdecl]. split; [by apply dict_set_NoDup|].
  intros x Hx. rewrite dict_keys_set. case_decide as Hin.
  - apply elem_of_union in Hx as [Hx| ->%elem_of_singleton]; [by apply Hdecl|done].
  - apply elem_of_app. rewrite list_elem_of_singleton.
    apply elem_of_union in Hx as [Hx| ->%elem_of_singleton]; [left; by apply Hdecl|by right].
Qed.

Lemma reference_scope_ok (symbol : string) (s : Scope.t) :
  scope_ok s →
  scope_ok (Scope.set_referenced_symbols
              (Dict.set symbol
                 (default 0%Z (Dict.get symbol (Scope.referenced_symbols s)) + 1)%Z
                 (Scope.referenced_symbols s)) s).
Proof.
  destruct s as [cl nd pa ch refs decl rem]. unfold scope_ok.
  cbn [Scope.referenced_symbols Scope.local_declared_symbols Scope.set_referenced_symbols
       Scope.set_local_declared_symbols].
  intros [Hnd Hdecl]. split; [by apply dict_set_NoDup|].
  intros x Hx. rewrite dict_keys_set. case_decide; [by apply Hdecl|].
  apply elem_of_app. left. by apply Hdecl.
Qed.

Lemma init_collected (obfuscate_globals : bool) (reserved_keywords : list string) :
  collected (Obfuscator.init obfuscate_globals reserved_keywords).
Proof.
  assert (∀ i, [Scope.init None None] !!! i = Scope.init None None) as Hlook.
  { intros [|[|i]]; done. }
  unfold collected. cbn. split_and!; [split| | |by repeat constructor|done].
  - cbn; lia.
  - intros i p. by rewrite Hlook.
  - intros i c. rewrite Hlook. by intros ?%elem_of_nil.
  - intros i. rewrite Hlook. constructor.
  - intros i p. by rewrite Hlook.
  - cbn. intros i Hi _. lia.
  - intros i. rewrite Hlook. split; [constructor|]. intros x Hx. by apply elem_of_empty in Hx.
  - intros i. by rewrite Hlook.
Qed.

Lemma last_stack_lt (st : Obfuscator.t) (a : nat) :
  Forall (λ a, a < length (Obfuscator.heap st)) (Obfuscator.stack st) →
  last (Obfuscator.stack st) = Some a → a < length (Obfuscator.heap st).
Proof.
  rewrite Forall_forall. intros Hall Hlast. apply Hall. by apply last_Some_elem_of.
Qed.

Lemma handle_collected (s s' : Obfuscator.t) (e : event) :
  collected s → Obfuscator.handle s e = Normal s' → collected s'.
Proof.
  intros (Ht & Hd & Hu & Hstack & Hroot).
  destruct e as [node|node|node|node]; cbn [Obfuscator.handle].
  - unfold Obfuscator.push_scope, Obfuscator.current_scope.
    destruct (last (Obfuscator.stack s)) as [cur|] eqn:Hlast; [|done].
    pose proof (last_stack_lt _ _ Hstack Hlast) as Hcur.
    destruct (Scope.nest _ _ _) as [h n] eqn:Hnest. intros [= <-].
    assert (h = (Scope.nest (Obfuscator.heap s) cur node).1) as Hh by by rewrite Hnest.
    assert (n = length (Obfuscator.heap s)) as Hn.
    { unfold Scope.nest in Hnest. by injection Hnest as _ <-. }
    unfold collected. cbn. rewrite Hh. split_and!.
    + by apply nest_tree.
    + by apply nest_dicts_ok.
    + by apply nest_unmapped.
    + unfold Scope.nest. cbn [fst]. rewrite length_alter, length_app. cbn.
      apply Forall_app. split; [|repeat constructor; lia].
      eapply Forall_impl; [exact Hstack|]. cbn. intros; lia.
    + done.
  - unfold Obfuscator.pop_scope.
    destruct (last (Obfuscator.stack s)) as [scope|] eqn:Hlast; [|done].
    intros (h & Hclose & ->)%on_heap_Normal. cbn in Hclose.
    destruct (close_invariants _ _ _ Ht Hd Hu Hclose) as (Ht' & Hd' & Hu' & Hlen).
    unfold collected. cbn. split_and!; try done. rewrite Hlen.
    apply last_Some in Hlast as [l' Hl']. rewrite Hl', removelast_last.
    rewrite Hl' in Hstack. by apply Forall_app in Hstack as [? _].
  - unfold Obfuscator.declare, Obfuscator.current_scope.
    destruct (last (Obfuscator.stack s)) as [cur|] eqn:Hlast; [|done].
    intros (h & [= <-] & ->)%on_heap_Normal.
    unfold collected. cbn. split_and!; try done.
    + eapply same_links_tree; [|done]. apply alter_same_links. by intros [].
    + apply alter_dicts_ok; [|done]. intros sc. apply declare_scope_ok.
    + apply alter_unmapped; [|done]. by intros [].
    + by rewrite length_alter.
  - unfold Obfuscator.reference, Obfuscator.current_scope.
    destruct (last (Obfuscator.stack s)) as [cur|] eqn:Hlast; [|done].
    intros (h & [= <-] & ->)%on_heap_Normal.
    unfold collected. cbn. split_and!; try done.
    + eapply same_links_tree; [|done]. apply alter_same_links. by intros [].
    + apply alter_dicts_ok; [|done]. intros sc. apply reference_scope_ok.
    + apply alter_unmapped; [|done]. by intros [].
    + by rewrite length_alter.
Qed.

Lemma walk_collected (obfuscate_globals : bool) (reserved_keywords : list string)
    (events : list event) (st : Obfuscator.t) :
  Obfuscator.walk (Obfuscator.init obfuscate_globals reserved_keywords) events = Normal st →
  collected st.
Proof.
  apply walk_invariant; [|apply init_collected].
  intros s s' e _. apply handle_collected.
Qed.

(** ** Heaps that differ in their remap tables only *)

Lemma same_shape_refl (h : list Scope.t) : same_shape h h.
Proof. by split. Qed.

Lemma same_shape_trans (h1 h2 h3 : list Scope.t) :
  same_shape h1 h2 → same_shape h2 h3 → same_shape h1 h3.
Proof.
  intros [Hl1 H1] [Hl2 H2]. split; [congruence|]. intros i. by rewrite H2, H1.
Qed.

Lemma same_shape_fields (h h' : list Scope.t) (i : nat) :
  same_shape h h' →
  Scope.parent (h' !!! i) = Scope.parent (h !!! i) ∧
  Scope.children (h' !!! i) = Scope.children (h !!! i) ∧
  Scope.referenced_symbols (h' !!! i) = Scope.referenced_symbols (h !!! i) ∧
  Scope.local_declared_symbols (h' !!! i) = Scope.local_declared_symbols (h !!! i).
Proof.
  intros [_ H]. specialize (H i).
  destruct (h' !!! i), (h !!! i). by injection H as -> -> -> -> -> ->.
Qed.

Lemma same_shape_alter (h : list Scope.t) (i : nat) (r : list (string * string)) :
  same_shape h (alter (Scope.set_remapped_symbols r) i h).
Proof.
  split; [apply length_alter|]. intros j. rewrite list_lookup_total_alter.
  case_decide as Hj; [|done]. destruct Hj as [-> _]. by destruct (h !!! j).
Qed.

Lemma same_shape_links (h h' : list Scope.t) : same_shape h h' → same_links h h'.
Proof.
  intros Hs. split; [apply Hs|]. intros i.
  by destruct (same_shape_fields h h' i Hs) as (? & ? & _).
Qed.

Lemma same_shape_tree (h h' : list Scope.t) : same_shape h h' → tree h → tree h'.
Proof. intros Hs. by apply same_links_tree, same_shape_links. Qed.

Lemma same_shape_dicts_ok (h h' : list Scope.t) :
  same_shape h h' → dicts_ok h → dicts_ok h'.
Proof.
  intros Hs Hd i. destruct (same_shape_fields h h' i Hs) as (_ & _ & Hr & Hl).
  unfold scope_ok. rewrite Hr, Hl. apply Hd.
Qed.

Lemma same_shape_under (h h' : list Scope.t) (i j : nat) :
  same_shape h h' → under h i j → under h' i j.
Proof.
  intros Hs. induction 1 as [|j p Hp _ IH]; [constructor|].
  eapply under_child; [|done].
  by rewrite (proj1 (same_shape_fields h h' j Hs)).
Qed.

Lemma same_shape_loop_symbols (h h' : list Scope.t) (i : nat) :
  same_shape h h' → loop_symbols (h' !!! i) = loop_symbols (h !!! i).
Proof.
  intros Hs. destruct (same_shape_fields h h' i Hs) as (_ & _ & Hr & Hl).
  unfold loop_symbols. by rewrite Hr, Hl.
Qed.

Lemma same_shape_declared_at (h h' : list Scope.t) (d i : nat) :
  same_shape h h' →
  Scope.declared_symbols_at d h' i = Scope.declared_symbols_at d h i.
Proof.
  intros Hs. revert i. induction d as [|d IH]; intros i; [done|].
  cbn [Scope.declared_symbols_at].
  destruct (same_shape_fields h h' i Hs) as (Hp & _ & _ & Hl).
  rewrite Hp, Hl. destruct (Scope.parent (h !!! i)); [by rewrite IH|done].
Qed.

Lemma same_shape_global (h h' : list Scope.t) (i : nat) :
  same_shape h h' → Scope.global_symbols h' i = Scope.global_symbols h i.
Proof.
  intros Hs. unfold Scope.global_symbols, Scope.declared_symbols.
  rewrite (proj1 Hs), (same_shape_declared_at h h') by done.
  by destruct (same_shape_fields h h' i Hs) as (_ & _ & -> & _).
Qed.

Lemma foldl_fun_ext {A B : Type} (f g : A → B → A) (a : A) (l : list B) :
  (∀ a x, f a x = g a x) → foldl f a l = foldl g a l.
Proof.
  intros Hfg. revert a. induction l as [|x l IH]; intros a; [done|].
  cbn. by rewrite Hfg, IH.
Qed.

Lemma same_shape_global_children_at (h h' : list Scope.t) (d i : nat) :
  same_shape h h' →
  Scope.global_symbols_in_children_at d h' i = Scope.global_symbols_in_children_at d h i.
Proof.
  intros Hs. revert i. induction d as [|d IH]; intros i; [done|].
  cbn [Scope.global_symbols_in_children_at].
  rewrite (proj1 (proj2 (same_shape_fields h h' i Hs))).
  apply foldl_fun_ext. intros a c. by rewrite IH, (same_shape_global h h').
Qed.

Lemma same_shape_remap_skip (h h' : list Scope.t) (i : nat) :
  same_shape h h' →
  (∀ p, Scope.parent (h !!! i) = Some p →
        Scope.remapped_symbols (h' !!! p) = Scope.remapped_symbols (h !!! p)) →
  Scope.remap_skip h' i = Scope.remap_skip h i.
Proof.
  intros Hs Hp. unfold Scope.remap_skip, Scope.global_symbols_in_children.
  rewrite (proj1 Hs), (same_shape_global_children_at h h'), (same_shape_global h h') by done.
  destruct (same_shape_fields h h' i Hs) as (-> & _ & -> & ->).
  destruct (Scope.parent (h !!! i)) as [p|]; [|done]. by rewrite Hp.
Qed.

(** The table of a scope stays the one its remap step builds as long as
    neither it nor the table of its parent changes. *)
Lemma built_frame (gen : NameGenerator.t) (h h' : list Scope.t) (j : nat) :
  same_shape h h' →
  Scope.remapped_symbols (h' !!! j) = Scope.remapped_symbols (h !!! j) →
  (∀ p, Scope.parent (h !!! j) = Some p →
        Scope.remapped_symbols (h' !!! p) = Scope.remapped_symbols (h !!! p)) →
  built gen h j → built gen h' j.
Proof.
  intros Hs Hj Hp (names & g' & Hdraw & Hr). exists names, g'.
  by rewrite (same_shape_remap_skip h h'), (same_shape_loop_symbols h h'), Hj.
Qed.

(** ** build_remap_symbols *)

Lemma foldl_bind_stuck {S A : Type} (f : S → A → outcome S) (o : outcome S) (l : list A) :
  (∀ s, o ≠ Normal s) → foldl (λ o x, bind o (λ s, f s x)) o l = o.
Proof.
  intros Ho. induction l as [|x l IH]; [done|].
  cbn [foldl]. destruct o as [s| |]; [by destruct (Ho s)|apply IH|apply IH].
Qed.

Lemma foldl_bind_Normal_cons {S A : Type} (f : S → A → outcome S) (s s' : S)
    (x : A) (l : list A) :
  foldl (λ o x, bind o (λ s, f s x)) (Normal s) (x :: l) = Normal s' →
  ∃ s1, f s x = Normal s1 ∧ foldl (λ o x, bind o (λ s, f s x)) (Normal s1) l = Normal s'.
Proof.
  cbn [foldl bind]. destruct (f s x) as [s1| |] eqn:Hf.
  - intros H. by exists s1.
  - by rewrite foldl_bind_stuck.
  - by rewrite foldl_bind_stuck.
Qed.

Lemma remap_own_built (gen : NameGenerator.t) (h h' : list Scope.t) (i : nat) :
  tree h → i < length h →
  Scope.remapped_symbols (h !!! i) = [] →
  Scope.remap_own h i gen = Normal h' →
  same_shape h h' ∧ (∀ j, j ≠ i → h' !!! j = h !!! j) ∧ built gen h' i.
Proof.
  intros Ht Hi Hempty (names & g' & Hdraw & Hlen & ->)%remap_own_Normal.
  pose proof (same_shape_alter h i
                (assign (Scope.remapped_symbols (h !!! i)) (loop_symbols (h !!! i)) names))
    as Hs.
  split; [done|]. split.
  - intros j Hj. by rewrite list_lookup_total_alter_ne.
  - exists names, g'.
    rewrite (same_shape_remap_skip h _ i Hs), (same_shape_loop_symbols h _ i Hs).
    + split; [done|]. rewrite list_lookup_total_alter_eq by done.
      destruct (h !!! i); cbn in *. by rewrite Hempty.
    + intros p Hp. pose proof (tree_parent h Ht i p Hp).
      rewrite list_lookup_total_alter_ne by lia. done.
Qed.

(** the loop over the children *)
Lemma build_children (gen : NameGenerator.t) (depth : nat) (i : nat)
    (cs : list nat) (h0 h h' : list Scope.t) :
  build_spec gen depth →
  tree h0 → same_shape h0 h →
  (∀ c, c ∈ cs → Scope.parent (h0 !!! c) = Some i) → NoDup cs →
  (∀ c j, c ∈ cs → under h0 c j → Scope.remapped_symbols (h !!! j) = []) →
  foldl (λ o child, bind o (λ h, Scope.build_remap_symbols_at depth h child gen false))
        (Normal h) cs = Normal h' →
  same_shape h0 h' ∧
  (∀ j, (∀ c, c ∈ cs → ¬ under h0 c j) → h' !!! j = h !!! j) ∧
  (∀ c j, c ∈ cs → under h0 c j → built gen h' j).
Proof.
  intros Hspec Ht. revert h. induction cs as [|c cs IH]; intros h Hs Hpar Hnd Hempty.
  - intros [= <-]. split_and!; [done|done|]. by intros c j ?%elem_of_nil.
  - intros (h1 & Hbuild & Hfold)%foldl_bind_Normal_cons.
    apply NoDup_cons in Hnd as [Hc Hnd].
    assert (Scope.parent (h0 !!! c) = Some i) as Hpc by (apply Hpar, elem_of_cons; by left).
    destruct (Hspec h0 h h1 c Ht Hs) as (Hs1 & Hframe1 & Hbuilt1); [|..|done|].
    { by eapply parent_Some_lt. }
    { intros j Hj. apply (Hempty c); [apply elem_of_cons; by left|done]. }
    assert (∀ c' j, c' ∈ cs → under h0 c' j → ¬ under h0 c j) as Hdisj.
    { intros c' j Hc' Hc'j Hcj.
      apply (under_disjoint h0 i c c' j Ht Hpc); [|by intros ->|done|done].
      apply Hpar, elem_of_cons. by right. }
    destruct (IH h1 Hs1) as (Hs' & Hframe & Hbuilt); [| |..|done|].
    { intros c' Hc'. apply Hpar, elem_of_cons. by right. }
    { done. }
    { intros c' j Hc' Hj. rewrite Hframe1 by by eapply Hdisj.
      apply (Hempty c'); [apply elem_of_cons; by right|done]. }
    split; [done|]. split.
    + intros j Hj. rewrite Hframe, Hframe1; [done| |].
      * apply Hj, elem_of_cons. by left.
      * intros c' Hc'. apply Hj, elem_of_cons. by right.
    + intros c' j [->|Hc']%elem_of_cons Hj; [|by eapply Hbuilt].
      assert (∀ k, under h0 c k → h' !!! k = h1 !!! k) as Hkeep.
      { intros k Hk. apply Hframe. intros c' Hc' Hc'k. by apply (Hdisj c' k). }
      apply (built_frame gen h1 h'); [| | |by apply Hbuilt1].
      * split; [by rewrite (proj1 Hs'), (proj1 Hs1)|].
        intros k. by rewrite (proj2 Hs'), (proj2 Hs1).
      * by rewrite Hkeep.
      * intros p Hp. rewrite Hframe; [done|].
        intros c' Hc' Hc'p. apply (Hdisj c' j Hc'); [|done].
        eapply under_child; [|done].
        by rewrite <-(proj1 (same_shape_fields h0 h1 j Hs1)).
Qed.
Lemma same_shape_sym (h h' : list Scope.t) : same_shape h h' → same_shape h' h.
Proof. intros [Hl H]. split; [done|]. intros i. by rewrite H. Qed.

Lemma build_spec_all (gen : NameGenerator.t) (depth : nat) : build_spec gen depth.
Proof.
  induction depth as [|d IH]; intros h0 h h' i Ht Hs Hi Hempty; [done|].
  cbn [Scope.build_remap_symbols_at].
  destruct (Scope.remap_own h i gen) as [h1| |] eqn:Hown; [|done..]. cbn [bind].
  intros Hfold.
  pose proof (same_shape_tree _ _ Hs Ht) as Hth.
  destruct (remap_own_built gen h h1 i Hth) as (Hs1 & Hframe1 & Hbuilt1); [..|done|].
  { by rewrite (proj1 Hs). }
  { apply Hempty. constructor. }
  pose proof (same_shape_trans _ _ _ Hs Hs1) as Hs01.
  rewrite (proj1 (proj2 (same_shape_fields h0 h1 i Hs01))) in Hfold.
  destruct (build_children gen d i (Scope.children (h0 !!! i)) h0 h1 h' IH Ht Hs01)
    as (Hs' & Hframe & Hbuilt); [..|done|].
  { intros c Hc. by apply (tree_children h0 Ht). }
  { apply Ht. }
  { intros c j Hc Hj. pose proof (tree_children h0 Ht i c Hc) as [Hic _].
    pose proof (under_ge _ _ _ Ht Hj). rewrite Hframe1 by lia.
    apply Hempty. eapply under_trans; [|done]. by apply child_under. }
  assert (∀ c j, c ∈ Scope.children (h0 !!! i) → j ≤ i → ¬ under h0 c j) as Habove.
  { intros c j Hc Hj Hcj. pose proof (tree_children h0 Ht i c Hc) as [Hic _].
    pose proof (under_ge _ _ _ Ht Hcj). lia. }
  split; [done|]. split.
  - intros j Hj. rewrite Hframe, Hframe1; [done| |].
    + intros ->. apply Hj. constructor.
    + intros c Hc Hcj. apply Hj. eapply under_trans; [|done]. by apply child_under.
  - intros j Hj. destruct (decide (i = j)) as [<-|Hne].
    + apply (built_frame gen h1 h'); [| | |done].
      * eapply same_shape_trans; [by apply same_shape_sym|done].
      * rewrite Hframe; [done|]. intros c Hc. by apply Habove.
      * intros p Hp. rewrite Hframe; [done|]. intros c Hc. apply Habove; [done|].
        rewrite (proj1 (same_shape_fields h0 h1 i Hs01)) in Hp.
        pose proof (tree_parent h0 Ht i p Hp). lia.
    + destruct (under_children h0 i j Ht Hj Hne) as (c & Hc & Hcj). by eapply Hbuilt.
Qed.

(** After [finalize] every scope below the root, and the root as well when
    globals are obfuscated, holds the table of its remap step; otherwise the
    table of the root stays empty. *)
Lemma finalize_built (st st' : Obfuscator.t) :
  collected st → Obfuscator.finalize st = Normal st' →
  tree (Obfuscator.heap st') ∧ dicts_ok (Obfuscator.heap st') ∧
  Obfuscator.identifiers st' = Obfuscator.identifiers st ∧
  (∀ j, j < length (Obfuscator.heap st') →
        j ≠ 0 ∨ Obfuscator.obfuscate_globals st = true →
        built (NameGenerator.init (list_to_set (Obfuscator.reserved_keywords st)) ID_CHARS)
              (Obfuscator.heap st') j) ∧
  (Obfuscator.obfuscate_globals st = false →
   Scope.remapped_symbols (Obfuscator.heap st' !!! 0) = []).
Proof.
  intros (Ht & Hd & Hu & _ & Hroot) Hfin.
  pose proof (finalize_identifiers _ _ Hfin) as Hids.
  unfold Obfuscator.finalize in Hfin. rewrite Hroot in Hfin.
  destruct (Scope.close (Obfuscator.heap st) 0) as [h1| |] eqn:Hclose; [|done..].
  cbn [bind Obfuscator.on_heap Obfuscator.heap Obfuscator.set_heap Obfuscator.global_scope
       Obfuscator.obfuscate_globals Obfuscator.reserved_keywords] in Hfin.
  rewrite Hroot in Hfin.
  apply on_heap_Normal in Hfin as (h' & Hbuild & ->).
  cbn [Obfuscator.heap Obfuscator.set_heap Obfuscator.identifiers] in *.
  destruct (close_invariants _ _ _ Ht Hd Hu Hclose) as (Ht1 & Hd1 & Hu1 & Hlen1).
  set (gen := NameGenerator.init (list_to_set (Obfuscator.reserved_keywords st)) ID_CHARS)
    in *.
  unfold Scope.build_remap_symbols in Hbuild.
  destruct (Obfuscator.obfuscate_globals st) eqn:Hog; cbn [negb] in Hbuild.
  - destruct (build_spec_all gen (S (length h1)) h1 h1 h' 0 Ht1 (same_shape_refl h1))
      as (Hs & _ & Hbuilt);
      [apply Ht1|intros j _; apply Hu1|done|].
    split_and!; [by eapply same_shape_tree|by eapply same_shape_dicts_ok|done| |done].
    intros j Hj _. apply Hbuilt, under_root; [done|]. by rewrite <-(proj1 Hs).
  - cbn [Scope.build_remap_symbols_at bind] in Hbuild.
    destruct (build_children gen (length h1) 0 (Scope.children (h1 !!! 0)) h1 h1 h'
                (build_spec_all gen _) Ht1 (same_shape_refl h1))
      as (Hs & Hframe & Hbuilt); [..|done|].
    { intros c Hc. by apply (tree_children h1 Ht1). }
    { apply Ht1. }
    { intros c j _ _. apply Hu1. }
    split_and!; [by eapply same_shape_tree|by eapply same_shape_dicts_ok|done| |].
    + intros j Hj [Hne|?]; [|done].
      destruct (under_children h1 0 j Ht1) as (c & Hc & Hcj); [|done|by eapply Hbuilt].
      apply under_root; [done|]. by rewrite <-(proj1 Hs).
    + intros _. rewrite Hframe; [apply Hu1|].
      intros c Hc Hc0. pose proof (tree_children h1 Ht1 0 c Hc) as [Hlt _].
      pose proof (under_ge _ _ _ Ht1 Hc0). lia.
Qed.

(** ** finalize returns *)

Lemma remap_own_returns (gen : NameGenerator.t) (h : list Scope.t) (i : nat) :
  NameGenerator.charset gen ≠ "" →
  ∃ h', Scope.remap_own h i gen = Normal h' ∧ same_shape h h'.
Proof.
  intros Hcs. unfold Scope.remap_own. rewrite remap_loop_draw.
  destruct (draw_is_Some
              (length (eligible (Scope.local_declared_symbols (h !!! i))
                         (reverse (sorted_by_count (Scope.referenced_symbols (h !!! i))))))
              (NameGenerator.call gen (Scope.remap_skip h i)) Hcs) as [[names g'] ->].
  eexists. split; [done|]. apply same_shape_alter.
Qed.

(** On a tree the recursion of [build_remap_symbols] is never deeper than
    the number of scopes below the one it starts from. *)
Lemma build_returns (gen : NameGenerator.t) (d : nat) (h : list Scope.t) (i : nat)
    (children_only : bool) :
  NameGenerator.charset gen ≠ "" → tree h → i < length h → length h < d + i →
  ∃ h', Scope.build_remap_symbols_at d h i gen children_only = Normal h' ∧ same_shape h h'.
Proof.
  intros Hcs. revert h i children_only.
  induction d as [|d IH]; intros h i children_only Ht Hi Hd; [lia|].
  cbn [Scope.build_remap_symbols_at].
  assert (∃ h1, (if children_only then Normal h else Scope.remap_own h i gen) = Normal h1 ∧
                same_shape h h1) as (h1 & -> & Hs1).
  { destruct children_only; [|by apply remap_own_returns].
    exists h. split; [done|apply same_shape_refl]. }
  cbn [bind]. rewrite (proj1 (proj2 (same_shape_fields h h1 i Hs1))).
  assert (∀ c, c ∈ Scope.children (h !!! i) → i < c < length h) as Hcs'.
  { intros c Hc. destruct (tree_children h Ht i c Hc) as [Hic Hp].
    split; [done|]. by eapply parent_Some_lt. }
  revert Hcs'. generalize (Scope.children (h !!! i)) as cs. intros cs.
  revert h1 Hs1. induction cs as [|c cs IHcs]; intros h1 Hs1 Hcs'.
  - by exists h1.
  - cbn [foldl bind].
    destruct (IH h1 c false) as (h2 & -> & Hs2).
    + by eapply same_shape_tree.
    + rewrite (proj1 Hs1). apply Hcs', elem_of_cons. by left.
    + rewrite (proj1 Hs1). assert (i < c) by (apply Hcs', elem_of_cons; by left). lia.
    + apply IHcs; [by eapply same_shape_trans|].
      intros c' Hc'. apply Hcs', elem_of_cons. by right.
Qed.

(** A collection that leaves the root open is finalized: [finalize] neither
    raises nor runs forever. *)
Lemma finalize_returns (st : Obfuscator.t) :
  collected st →
  Scope._closed (Obfuscator.heap st !!! 0) = false →
  ∃ st', Obfuscator.finalize st = Normal st'.
Proof.
  intros (Ht & Hd & Hu & _ & Hroot) Hopen. unfold Obfuscator.finalize.
  rewrite Hroot.
  destruct (Scope.close (Obfuscator.heap st) 0) as [h1| |] eqn:Hclose;
    [|unfold Scope.close in Hclose; by rewrite Hopen in Hclose..].
  destruct (close_invariants _ _ _ Ht Hd Hu Hclose) as (Ht1 & _ & _ & _).
  cbn [bind Obfuscator.on_heap Obfuscator.heap Obfuscator.set_heap Obfuscator.global_scope
       Obfuscator.obfuscate_globals Obfuscator.reserved_keywords].
  rewrite Hroot. unfold Scope.build_remap_symbols.
  destruct (build_returns
              (NameGenerator.init (list_to_set (Obfuscator.reserved_keywords st)) ID_CHARS)
              (S (length h1)) h1 0 (negb (Obfuscator.obfuscate_globals st)))
    as (h' & -> & _); [done|done|apply Ht1|lia|].
  by eexists.
Qed.

(** ** After finalize *)

Lemma ID_CHARS_NoDup : NoDup (list_ascii_of_string ID_CHARS).
Proof. by apply (bool_decide_unpack _). Qed.

Lemma lookup_total_ge_inhabitant (h : list Scope.t) (i : nat) :
  length h ≤ i → h !!! i = Scope.init None None.
Proof. intros Hi. by rewrite list_lookup_total_alt, lookup_ge_None_2. Qed.

(** what the table of a scope satisfies when its remap step built it with
    a generator over [ID_CHARS] *)
Lemma built_facts (skip : gset string) (h : list Scope.t) (i : nat) :
  built (NameGenerator.init skip ID_CHARS) h i → scope_ok (h !!! i) →
  (∀ k, k ∈ Dict.keys (Scope.remapped_symbols (h !!! i)) ↔
        k ∈ Scope.local_declared_symbols (h !!! i)) ∧
  (∀ k r, Dict.get k (Scope.remapped_symbols (h !!! i)) = Some r →
          (r ∉ Scope.remap_skip h i) ∧ (r ∉ skip)) ∧
  (∀ k1 k2 r, Dict.get k1 (Scope.remapped_symbols (h !!! i)) = Some r →
              Dict.get k2 (Scope.remapped_symbols (h !!! i)) = Some r → k1 = k2).
Proof.
  intros (names & g' & Hdraw & ->) [Hnd Hdecl].
  pose proof (loop_symbols_NoDup _ Hnd) as Hnds.
  destruct (draw_remaining _ _ _ _ Hdraw) as (_ & _ & _ & Hlen & _).
  split_and!.
  - intros k. rewrite assign_keys by done. rewrite loop_symbols_elem.
    cbn. rewrite elem_of_nil. naive_solver.
  - intros k r (n & _ & Hn)%assign_get_inv; [|done..].
    pose proof (draw_not_skipped _ _ _ _ Hdraw) as Hall. rewrite Forall_forall in Hall.
    specialize (Hall r (list_elem_of_lookup_2 _ _ _ Hn)). cbn in Hall.
    split; intros Hr; apply Hall; set_solver.
  - intros k1 k2 r (n1 & Hk1 & Hn1)%assign_get_inv (n2 & Hk2 & Hn2)%assign_get_inv;
      [|done..].
    assert (NoDup names) as Hndn.
    { eapply (draw_fresh_NoDup _ _ ID_CHARS); [apply ID_CHARS_NoDup|exact Hdraw]. }
    assert (n1 = n2) as -> by by eapply NoDup_lookup.
    congruence.
Qed.

Lemma handle_config (s s' : Obfuscator.t) (e : event) :
  Obfuscator.handle s e = Normal s' →
  Obfuscator.obfuscate_globals s' = Obfuscator.obfuscate_globals s ∧
  Obfuscator.reserved_keywords s' = Obfuscator.reserved_keywords s.
Proof.
  destruct e as [node|node|node|node]; cbn [Obfuscator.handle].
  - unfold Obfuscator.push_scope. destruct (Obfuscator.current_scope s); [|done].
    destruct (Scope.nest _ _ _). by intros [= <-].
  - unfold Obfuscator.pop_scope. destruct (last _); [|done].
    by intros (h & _ & ->)%on_heap_Normal.
  - unfold Obfuscator.declare. destruct (Obfuscator.current_scope s); [|done].
    by intros (h & _ & ->)%on_heap_Normal.
  - unfold Obfuscator.reference. destruct (Obfuscator.current_scope s); [|done].
    by intros (h & _ & ->)%on_heap_Normal.
Qed.

(** The state after collection and finalization. *)
Lemma prewalk_hook_finalized (obfuscate_globals : bool) (reserved_keywords : list string)
    (events : list event) (st : Obfuscator.t) :
  Obfuscator.prewalk_hook (Obfuscator.init obfuscate_globals reserved_keywords) events
    = Normal st →
  tree (Obfuscator.heap st) ∧ dicts_ok (Obfuscator.heap st) ∧
  (∀ i, built (NameGenerator.init (list_to_set reserved_keywords) ID_CHARS)
              (Obfuscator.heap st) i ∨
        (Scope.remapped_symbols (Obfuscator.heap st !!! i) = [] ∧
         Scope.parent (Obfuscator.heap st !!! i) = None)) ∧
  (obfuscate_globals = false → Scope.remapped_symbols (Obfuscator.heap st !!! 0) = []).
Proof.
  intros (s & Hwalk & Hfin)%prewalk_hook_Normal.
  pose proof (walk_collected _ _ _ _ Hwalk) as Hcol.
  assert (Obfuscator.obfuscate_globals s = obfuscate_globals ∧
          Obfuscator.reserved_keywords s = reserved_keywords) as [Hog Hrk].
  { apply (walk_invariant
             (λ s, Obfuscator.obfuscate_globals s = obfuscate_globals ∧
                   Obfuscator.reserved_keywords s = reserved_keywords)
             events (Obfuscator.init obfuscate_globals reserved_keywords) s);
      [|done|done].
    intros s1 s2 e _ [<- <-] He. by apply handle_config in He. }
  destruct (finalize_built _ _ Hcol Hfin) as (Ht & Hd & _ & Hbuilt & Hroot).
  rewrite Hog in Hbuilt, Hroot. rewrite Hrk in Hbuilt.
  split_and!; [done|done| |done].
  intros i. destruct (decide (i < length (Obfuscator.heap st))) as [Hi|Hi].
  - destruct (decide (i = 0)) as [->|Hne]; [|left; apply Hbuilt; auto].
    destruct obfuscate_globals; [left; apply Hbuilt; auto|right].
    split; [by apply Hroot|].
    destruct (Scope.parent (Obfuscator.heap st !!! 0)) as [p|] eqn:Hp; [|done].
    pose proof (tree_parent _ Ht _ _ Hp). lia.
  - right. rewrite lookup_total_ge_inhabitant by lia. done.
Qed.

Lemma finalized_keys (skip : gset string) (h : list Scope.t) (i : nat) (k : string) :
  dicts_ok h →
  built (NameGenerator.init skip ID_CHARS) h i ∨
    (Scope.remapped_symbols (h !!! i) = [] ∧ Scope.parent (h !!! i) = None) →
  k ∈ Dict.keys (Scope.remapped_symbols (h !!! i)) →
  k ∈ Scope.local_declared_symbols (h !!! i) ∧ built (NameGenerator.init skip ID_CHARS) h i.
Proof.
  intros Hd [Hb|[He _]] Hk.
  - split; [|done]. by apply (built_facts skip h i Hb (Hd i)).
  - rewrite He in Hk. by apply elem_of_nil in Hk.
Qed.

(** *** Declared, global and resolved names *)

Lemma elem_of_global_symbols (h : list Scope.t) (i : nat) (x : string) :
  x ∈ Scope.global_symbols h i ↔
  x ∈ Dict.keys (Scope.referenced_symbols (h !!! i)) ∧ x ∉ Scope.declared_symbols h i.
Proof.
  unfold Scope.global_symbols. rewrite elem_of_list_to_set, list_elem_of_filter.
  naive_solver.
Qed.

Lemma declared_under (h : list Scope.t) (d i j : nat) (x : string) :
  tree h → under h i j → j < d →
  x ∈ Scope.local_declared_symbols (h !!! i) → x ∈ Scope.declared_symbols_at d h j.
Proof.
  intros Ht Hij. revert d. induction Hij as [|j p Hp _ IH]; intros d Hd Hx.
  - destruct d as [|d]; [lia|]. cbn [Scope.declared_symbols_at]. set_solver.
  - destruct d as [|d]; [lia|]. cbn [Scope.declared_symbols_at]. rewrite Hp.
    pose proof (tree_parent h Ht j p Hp). apply elem_of_union. right.
    apply IH; [lia|done].
Qed.

Lemma elem_of_foldl_union (F : nat → gset string) (acc : gset string)
    (cs : list nat) (x : string) :
  x ∈ foldl (λ result c, result ∪ F c) acc cs ↔ x ∈ acc ∨ ∃ c, c ∈ cs ∧ x ∈ F c.
Proof.
  revert acc. induction cs as [|c cs IH]; intros acc.
  - cbn. split; [by left|]. intros [?|(c & ?%elem_of_nil & _)]; done.
  - cbn [foldl]. rewrite IH, elem_of_union. split.
    + intros [[?|?]|(c' & ? & ?)]; [by left|right; exists c|right; exists c'];
        (split; [|done]); apply elem_of_cons; auto.
    + intros [?|(c' & [->|?]%elem_of_cons & ?)]; [by left; left|by left; right|].
      right. by exists c'.
Qed.

(** the free names of every scope nested in [i] are collected by
    [global_symbols_in_children] *)
Lemma global_children_under (h : list Scope.t) (d i j : nat) (x : string) :
  tree h → under h i j → i ≠ j → j < length h → length h ≤ d + i →
  x ∈ Scope.global_symbols h j → x ∈ Scope.global_symbols_in_children_at d h i.
Proof.
  intros Ht. revert i. induction d as [|d IH]; intros i Hij Hne Hj Hd Hx.
  - pose proof (under_ge _ _ _ Ht Hij). lia.
  - cbn [Scope.global_symbols_in_children_at].
    destruct (under_children h i j Ht Hij Hne) as (c & Hc & Hcj).
    apply elem_of_foldl_union. right. exists c. split; [done|].
    pose proof (tree_children h Ht i c Hc) as [Hic _].
    destruct (decide (c = j)) as [->|Hcne]; [set_solver|].
    apply elem_of_union. right. apply IH; [done|done|done|lia|done].
Qed.

Lemma resolve_loop_Some (d : nat) (h : list Scope.t) (scope : option nat)
    (symbol r : string) :
  Scope.resolve_loop d h scope symbol = Some r →
  ∃ i, Dict.get symbol (Scope.remapped_symbols (h !!! i)) = Some r.
Proof.
  revert scope. induction d as [|d IH]; intros scope; [done|].
  destruct scope as [a|]; [|done]. cbn [Scope.resolve_loop].
  destruct (Dict.get symbol _) as [r'|] eqn:Hget; [|apply IH].
  intros [= ->]. by exists a.
Qed.

Lemma resolve_cases (h : list Scope.t) (a : nat) (symbol : string) :
  Scope.resolve h a symbol = symbol ∨
  ∃ i, Dict.get symbol (Scope.remapped_symbols (h !!! i)) = Some (Scope.resolve h a symbol).
Proof.
  unfold Scope.resolve.
  destruct (Scope.resolve_loop _ _ _ _) as [r|] eqn:Hloop; [|by left].
  case_decide; [by left|]. right. by eapply resolve_loop_Some.
Qed.

(** [resolve] walks the scopes that [binding] walks, and stops where it
    stops. *)
Lemma resolve_loop_binding (skip : gset string) (d : nat) (h : list Scope.t)
    (scope : option nat) (symbol : string) :
  dicts_ok h →
  (∀ i, built (NameGenerator.init skip ID_CHARS) h i ∨
        (Scope.remapped_symbols (h !!! i) = [] ∧ Scope.parent (h !!! i) = None)) →
  Scope.resolve_loop d h scope symbol =
    b ← binding_at d h scope symbol;
    Dict.get symbol (Scope.remapped_symbols (h !!! b)).
Proof.
  intros Hd Htab. revert scope. induction d as [|d IH]; intros scope; [done|].
  destruct scope as [a|]; [|done]. cbn [Scope.resolve_loop binding_at].
  destruct (decide (symbol ∈ Scope.local_declared_symbols (h !!! a))) as [Hin|Hnin].
  - cbn. destruct (Htab a) as [Hb|[He Hp]].
    + apply (built_facts skip h a Hb (Hd a)) in Hin.
      apply dict_get_is_Some in Hin as [r Hr]. by rewrite Hr.
    + rewrite He, Hp. cbn. by destruct d.
  - destruct (Dict.get symbol _) as [r|] eqn:Hget; [|apply IH].
    exfalso. apply Hnin.
    apply (finalized_keys skip h a symbol Hd (Htab a)).
    apply dict_get_is_Some. by rewrite Hget.
Qed.

Lemma binding_at_undeclared (d : nat) (h : list Scope.t) (a : nat) (symbol : string) :
  symbol ∉ Scope.declared_symbols_at d h a → binding_at d h (Some a) symbol = None.
Proof.
  revert a. induction d as [|d IH]; intros a Hfree; [done|].
  cbn [binding_at]. cbn [Scope.declared_symbols_at] in Hfree.
  rewrite decide_False by set_solver.
  destruct (Scope.parent (h !!! a)) as [p|]; [|by destruct d].
  apply IH. set_solver.
Qed.
(** ** Reserved words *)

(** C7, as stated, fails: an occurrence of a free name that is itself a
    reserved word resolves to that reserved word. *)
Lemma resolve_reserved_counterexample :
  ∃ st,
    Obfuscator.prewalk_hook (Obfuscator.init false ["window"]) uses_reserved_global
      = Normal st ∧
    Obfuscator.resolve st (I 3 "window") ∈ ["window"].
Proof.
  eexists. split; [vm_compute; reflexivity|].
  by apply (bool_decide_unpack _).
Qed.

(** C7, amended: after collection and finalization, [resolve] returns
    either the original text of the occurrence or a replacement that is not
    one of the reserved keywords; no remap table holds a reserved keyword as
    a value. *)
Theorem resolve_not_reserved (obfuscate_globals : bool) (reserved_keywords : list string)
    (events : list event) (st : Obfuscator.t) :
  Obfuscator.prewalk_hook (Obfuscator.init obfuscate_globals reserved_keywords) events
    = Normal st →
  (∀ i k r, Dict.get k (Scope.remapped_symbols (Obfuscator.heap st !!! i)) = Some r →
            r ∉ reserved_keywords) ∧
  (∀ node, Obfuscator.resolve st node = value node ∨
           Obfuscator.resolve st node ∉ reserved_keywords).
Proof.
  intros (Ht & Hd & Htab & _)%prewalk_hook_finalized.
  assert (∀ i k r, Dict.get k (Scope.remapped_symbols (Obfuscator.heap st !!! i)) = Some r →
                   r ∉ reserved_keywords) as Hvalues.
  { intros i k r Hget. destruct (Htab i) as [Hb|[He _]]; [|by rewrite He in Hget].
    destruct (built_facts _ _ _ Hb (Hd i)) as (_ & Hskip & _).
    destruct (Hskip k r Hget) as [_ Hr]. by rewrite not_elem_of_list_to_set in Hr. }
  split; [done|]. intros node. unfold Obfuscator.resolve.
  destruct (Obfuscator.identifiers st !! ident node) as [a|]; [|by left].
  destruct (resolve_cases (Obfuscator.heap st) a (value node)) as [?|[i Hi]]; [by left|].
  right. by eapply Hvalues.
Qed.

Lemma resolve_not_reserved_witness :
  ∃ st,
    Obfuscator.prewalk_hook (Obfuscator.init false ["a"]) declared_then_used = Normal st ∧
    Obfuscator.resolve st (I 2 "x") = "b" ∧
    (Obfuscator.resolve st (I 2 "x") = value (I 2 "x") ∨
     Obfuscator.resolve st (I 2 "x") ∉ ["a"]).
Proof.
  eexists. split; [vm_compute; reflexivity|]. split; [reflexivity|].
  apply (proj2 (resolve_not_reserved false ["a"] declared_then_used _
                  ltac:(vm_compute; reflexivity))).
Defined.

(** ** Global names *)

(** C4, as stated, fails: [x] is a key of the remap table of the scope that
    declares it although it is a free name of a sibling scope. *)
Lemma global_key_counterexample :
  ∃ st,
    Obfuscator.prewalk_hook (Obfuscator.init false []) declared_here_free_there
      = Normal st ∧
    "x" ∈ Dict.keys (Scope.remapped_symbols (Obfuscator.heap st !!! 1)) ∧
    "x" ∈ Scope.global_symbols (Obfuscator.heap st) 2.
Proof.
  eexists. split; [vm_compute; reflexivity|].
  split; by apply (bool_decide_unpack _).
Qed.

(** C4, amended: under the default configuration, after finalize, the
    table of the root is empty; a key of the table of a scope is declared in
    that scope, so it is a free name neither of that scope nor of any scope
    nested in it (it may be free in a scope elsewhere in the tree); and an
    occurrence of a name that is free in the scope that references it
    resolves to itself. *)
Theorem globals_not_remapped (reserved_keywords : list string)
    (events : list event) (st : Obfuscator.t) :
  Obfuscator.prewalk_hook (Obfuscator.init false reserved_keywords) events = Normal st →
  Scope.remapped_symbols (Obfuscator.heap st !!! 0) = [] ∧
  (∀ i j k, k ∈ Dict.keys (Scope.remapped_symbols (Obfuscator.heap st !!! i)) →
            under (Obfuscator.heap st) i j →
            k ∈ Scope.local_declared_symbols (Obfuscator.heap st !!! i) ∧
            k ∉ Scope.global_symbols (Obfuscator.heap st) j) ∧
  (∀ node a, Obfuscator.identifiers st !! ident node = Some a →
             value node ∈ Scope.global_symbols (Obfuscator.heap st) a →
             Obfuscator.resolve st node = value node).
Proof.
  intros (Ht & Hd & Htab & Hroot)%prewalk_hook_finalized.
  split; [by apply Hroot|]. split.
  - intros i j k Hk Hij.
    destruct (finalized_keys _ _ i k Hd (Htab i) Hk) as [Hdecl Hb]. split; [done|].
    assert (i < length (Obfuscator.heap st)) as Hi.
    { destruct (decide (i < length (Obfuscator.heap st))); [done|].
      rewrite lookup_total_ge_inhabitant in Hk by lia. by apply elem_of_nil in Hk. }
    pose proof (under_lt _ _ _ Hi Hij) as Hj.
    intros [_ Hfree]%elem_of_global_symbols. apply Hfree.
    by apply (declared_under _ _ i j).
  - intros node a Ha [_ Hfree]%elem_of_global_symbols.
    unfold Obfuscator.resolve, Scope.resolve. rewrite Ha.
    rewrite (resolve_loop_binding (list_to_set reserved_keywords)) by done.
    unfold Scope.declared_symbols in Hfree.
    by rewrite binding_at_undeclared.
Qed.

Lemma globals_not_remapped_witness :
  ∃ st,
    Obfuscator.prewalk_hook (Obfuscator.init false []) declared_here_free_there
      = Normal st ∧
    Scope.remapped_symbols (Obfuscator.heap st !!! 0) = [] ∧
    Obfuscator.resolve st (I 2 "x") = "a" ∧
    Obfuscator.resolve st (I 3 "x") = value (I 3 "x").
Proof.
  eexists. split; [vm_compute; reflexivity|].
  pose proof (globals_not_remapped [] declared_here_free_there _
                ltac:(vm_compute; reflexivity)) as (Hroot & _ & Hfree).
  split; [exact Hroot|]. split; [reflexivity|].
  apply (Hfree (I 3 "x") 2); [reflexivity|].
  by apply (bool_decide_unpack _).
Defined.

(** ** Renaming and bindings *)

(** Names are reused across scopes: every scope starts its generator
    afresh, so occurrences in sibling scopes resolve to the same text and
    denote different bindings. *)
Lemma sibling_scopes_reuse_names :
  ∃ st,
    Obfuscator.prewalk_hook (Obfuscator.init false []) sibling_scopes = Normal st ∧
    Obfuscator.resolve st (I 2 "x") = Obfuscator.resolve st (I 4 "y") ∧
    occurrence_binding st (I 2 "x") ≠ occurrence_binding st (I 4 "y").
Proof.
  eexists. split; [vm_compute; reflexivity|].
  split; [reflexivity|]. vm_compute. discriminate.
Qed.

(** C1: the code captures an outer binding.  The skip set of
    [build_remap_symbols] holds the free names and the replacements of the
    immediate parent, but neither the replacements made further up nor the
    names that the root keeps when globals are not obfuscated.  In
    [nested_scopes], [x] of [f] and [y] of [h] are both visible in [h], have
    different bindings, and both resolve to [a]: [return x + y] is rendered
    [return a + a].  In [root_declared_capture], under the default
    configuration, the root keeps [a], and [x] of [f] is renamed to [a] as
    well: [return a + x] is rendered [return a + a]. *)
Theorem outer_binding_captured :
  (∃ st,
     Obfuscator.prewalk_hook (Obfuscator.init false []) nested_scopes = Normal st ∧
     Obfuscator.identifiers st !! 5 = Some 3 ∧
     Obfuscator.identifiers st !! 6 = Some 3 ∧
     occurrence_binding st (I 5 "x") = Some 1 ∧
     occurrence_binding st (I 6 "y") = Some 3 ∧
     Obfuscator.resolve st (I 5 "x") = "a" ∧
     Obfuscator.resolve st (I 6 "y") = "a") ∧
  (∃ st,
     Obfuscator.prewalk_hook (Obfuscator.init false []) root_declared_capture = Normal st ∧
     Obfuscator.identifiers st !! 4 = Some 1 ∧
     Obfuscator.identifiers st !! 5 = Some 1 ∧
     occurrence_binding st (I 4 "a") = Some 0 ∧
     occurrence_binding st (I 5 "x") = Some 1 ∧
     Obfuscator.resolve st (I 4 "a") = "a" ∧
     Obfuscator.resolve st (I 5 "x") = "a").
Proof.
  split; eexists; (split; [vm_compute; reflexivity|]); split_and!; vm_compute; reflexivity.
Qed.

(** X22: what the renaming does keep apart.  After collection and
    finalization, under any configuration, occurrences of one text that
    denote the same binding resolve to the same text; within one scope two
    symbols never share a replacement; no replacement of a scope is a free
    name of that scope or of a scope nested in it; and no replacement of a
    scope is the replacement that its immediate parent gave to a name the
    scope references (itself or through its closed children) without
    declaring it.  Replacements made above the parent, and names the root
    keeps, are not covered. *)
Theorem renaming_respects_bindings (obfuscate_globals : bool)
    (reserved_keywords : list string) (events : list event) (st : Obfuscator.t) :
  Obfuscator.prewalk_hook (Obfuscator.init obfuscate_globals reserved_keywords) events
    = Normal st →
  (∀ n1 n2, is_Some (Obfuscator.identifiers st !! ident n1) →
            is_Some (Obfuscator.identifiers st !! ident n2) →
            value n1 = value n2 →
            occurrence_binding st n1 = occurrence_binding st n2 →
            Obfuscator.resolve st n1 = Obfuscator.resolve st n2) ∧
  (∀ i k1 k2 r,
     Dict.get k1 (Scope.remapped_symbols (Obfuscator.heap st !!! i)) = Some r →
     Dict.get k2 (Scope.remapped_symbols (Obfuscator.heap st !!! i)) = Some r →
     k1 = k2) ∧
  (∀ i j k r,
     Dict.get k (Scope.remapped_symbols (Obfuscator.heap st !!! i)) = Some r →
     under (Obfuscator.heap st) i j →
     r ∉ Scope.global_symbols (Obfuscator.heap st) j) ∧
  (∀ i p k r k',
     Dict.get k (Scope.remapped_symbols (Obfuscator.heap st !!! i)) = Some r →
     Scope.parent (Obfuscator.heap st !!! i) = Some p →
     k' ∈ Dict.keys (Scope.referenced_symbols (Obfuscator.heap st !!! i)) →
     k' ∉ Scope.local_declared_symbols (Obfuscator.heap st !!! i) →
     Dict.get k' (Scope.remapped_symbols (Obfuscator.heap st !!! p)) ≠ Some r).
Proof.
  intros (Ht & Hd & Htab & _)%prewalk_hook_finalized.
  assert (∀ i k r,
            Dict.get k (Scope.remapped_symbols (Obfuscator.heap st !!! i)) = Some r →
            built (NameGenerator.init (list_to_set reserved_keywords) ID_CHARS)
                  (Obfuscator.heap st) i ∧ i < length (Obfuscator.heap st)) as Hb.
  { intros i k r Hget. destruct (Htab i) as [Hb|[He _]]; [|by rewrite He in Hget].
    split; [done|]. destruct (decide (i < length (Obfuscator.heap st))); [done|].
    by rewrite lookup_total_ge_inhabitant in Hget by lia. }
  split_and!.
  - intros n1 n2 [a1 Ha1] [a2 Ha2] Hv. unfold occurrence_binding, Obfuscator.resolve.
    rewrite Ha1, Ha2. cbn. unfold binding, Scope.resolve. rewrite <-Hv.
    rewrite !(resolve_loop_binding (list_to_set reserved_keywords)) by done.
    by intros ->.
  - intros i k1 k2 r H1 H2. destruct (Hb _ _ _ H1) as [Hbi _].
    by apply (proj2 (proj2 (built_facts _ _ _ Hbi (Hd i))) k1 k2 r).
  - intros i j k r Hget Hij Hr. destruct (Hb _ _ _ Hget) as [Hbi Hi].
    destruct (proj1 (proj2 (built_facts _ _ _ Hbi (Hd i))) k r Hget) as [Hskip _].
    apply Hskip. unfold Scope.remap_skip.
    destruct (decide (i = j)) as [<-|Hne]; [set_solver|].
    apply elem_of_union. left. apply elem_of_union. left.
    apply (global_children_under _ _ i j); [done|done|done| |lia|done].
    by eapply under_lt.
  - intros i p k r k' Hget Hp Hk' Hnd Hget'. destruct (Hb _ _ _ Hget) as [Hbi Hi].
    destruct (proj1 (proj2 (built_facts _ _ _ Hbi (Hd i))) k r Hget) as [Hskip _].
    apply Hskip. unfold Scope.remap_skip. rewrite Hp.
    apply elem_of_union. left. apply elem_of_union. right.
    apply elem_of_list_to_set, list_elem_of_fmap. exists (k', r). split; [done|].
    apply list_elem_of_filter. split; [done|]. by apply dict_get_Some_elem.
Qed.

Lemma renaming_respects_bindings_witness :
  ∃ st,
    Obfuscator.prewalk_hook (Obfuscator.init false []) nested_scopes = Normal st ∧
    Dict.get "x" (Scope.remapped_symbols (Obfuscator.heap st !!! 1)) = Some "a" ∧
    Dict.get "h" (Scope.remapped_symbols (Obfuscator.heap st !!! 2)) = Some "b" ∧
    Dict.get "x" (Scope.remapped_symbols (Obfuscator.heap st !!! 1)) ≠ Some "b".
Proof.
  eexists. split; [vm_compute; reflexivity|]. split; [reflexivity|]. split; [reflexivity|].
  pose proof (renaming_respects_bindings false [] nested_scopes _
                ltac:(vm_compute; reflexivity)) as (_ & _ & _ & Hparent).
  apply (Hparent 2 1 "h" "b" "x"); [reflexivity|reflexivity| |].
  - by apply (bool_decide_unpack _).
  - by apply (bool_decide_unpack _).
Defined.

(** * Further properties of the code *)

(** ** The collection pass *)

Lemma handle_identifiers_Some (s s' : Obfuscator.t) (e : event) (i a : nat) :
  Obfuscator.handle s e = Normal s' →
  Obfuscator.identifiers s' !! i = Some a →
  Obfuscator.identifiers s !! i = Some a ∨
  ∃ n, e = Resolve n ∧ ident n = i ∧ last (Obfuscator.stack s) = Some a.
Proof.
  destruct e as [node|node|node|node]; cbn [Obfuscator.handle].
  - unfold Obfuscator.push_scope. destruct (Obfuscator.current_scope s); [|done].
    destruct (Scope.nest _ _ _). intros [= <-]. by left.
  - unfold Obfuscator.pop_scope. destruct (last _); [|done].
    intros (h & _ & ->)%on_heap_Normal. by left.
  - unfold Obfuscator.declare. destruct (Obfuscator.current_scope s); [|done].
    intros (h & _ & ->)%on_heap_Normal. by left.
  - unfold Obfuscator.reference, Obfuscator.current_scope.
    destruct (last (Obfuscator.stack s)) as [cur|] eqn:Hlast; [|done].
    intros (h & _ & ->)%on_heap_Normal. cbn.
    destruct (decide (ident node = i)) as [<-|Hne].
    + rewrite lookup_insert_eq. intros [= <-]. right. by exists node.
    + rewrite lookup_insert_ne by done. by left.
Qed.

Lemma handle_identifiers_grow (s s' : Obfuscator.t) (e : event) (i : nat) :
  Obfuscator.handle s e = Normal s' →
  is_Some (Obfuscator.identifiers s' !! i) ↔
  is_Some (Obfuscator.identifiers s !! i) ∨ ∃ n, e = Resolve n ∧ ident n = i.
Proof.
  intros He. split; [by apply handle_identifiers|].
  destruct e as [node|node|node|node]; cbn [Obfuscator.handle] in He.
  - unfold Obfuscator.push_scope in He. destruct (Obfuscator.current_scope s); [|done].
    destruct (Scope.nest _ _ _) as [h' new]. injection He as <-. by intros [?|(r & ? & _)].
  - unfold Obfuscator.pop_scope in He. destruct (last _); [|done].
    apply on_heap_Normal in He as (h & _ & ->). by intros [?|(r & ? & _)].
  - unfold Obfuscator.declare in He. destruct (Obfuscator.current_scope s); [|done].
    apply on_heap_Normal in He as (h & _ & ->). by intros [?|(r & ? & _)].
  - unfold Obfuscator.reference in He. destruct (Obfuscator.current_scope s); [|done].
    apply on_heap_Normal in He as (h & _ & ->). cbn.
    intros [Hold|(r & [= <-] & <-)].
    + destruct (decide (ident node = i)) as [<-|Hne].
      * by rewrite lookup_insert_eq.
      * by rewrite lookup_insert_ne.
    + by rewrite lookup_insert_eq.
Qed.

Lemma handle_length (s s' : Obfuscator.t) (e : event) :
  collected s → Obfuscator.handle s e = Normal s' →
  length (Obfuscator.heap s) ≤ length (Obfuscator.heap s').
Proof.
  intros (Ht & Hd & Hu & _).
  destruct e as [node|node|node|node]; cbn [Obfuscator.handle].
  - unfold Obfuscator.push_scope. destruct (Obfuscator.current_scope s); [|done].
    unfold Scope.nest. intros [= <-]. cbn. rewrite length_alter, length_app. lia.
  - unfold Obfuscator.pop_scope. destruct (last _); [|done].
    intros (h & Hclose & ->)%on_heap_Normal. cbn in *.
    apply close_invariants in Hclose as (_ & _ & _ & ->); done.
  - unfold Obfuscator.declare. destruct (Obfuscator.current_scope s); [|done].
    intros (h & [= <-] & ->)%on_heap_Normal. cbn. by rewrite length_alter.
  - unfold Obfuscator.reference. destruct (Obfuscator.current_scope s); [|done].
    intros (h & [= <-] & ->)%on_heap_Normal. cbn. by rewrite length_alter.
Qed.

(** X1: every state that a collection pass reaches from a new obfuscator
    holds a well-formed scope tree: [parent] and [children] agree and a
    scope is allocated after its parent, every [referenced_symbols] has
    unique keys and an entry for each declared symbol, no remap table has
    been filled, and the stack and the [identifiers] table hold addresses
    of existing scopes only. *)
Theorem collection_invariant (obfuscate_globals : bool) (reserved_keywords : list string)
    (events : list event) (st : Obfuscator.t) :
  Obfuscator.walk (Obfuscator.init obfuscate_globals reserved_keywords) events = Normal st →
  tree (Obfuscator.heap st) ∧ dicts_ok (Obfuscator.heap st) ∧
  unmapped (Obfuscator.heap st) ∧
  Forall (λ a, a < length (Obfuscator.heap st)) (Obfuscator.stack st) ∧
  (∀ i a, Obfuscator.identifiers st !! i = Some a → a < length (Obfuscator.heap st)).
Proof.
  intros Hwalk.
  pose proof (walk_collected _ _ _ _ Hwalk) as (Ht & Hd & Hu & Hstack & _).
  split_and!; try done.
  apply (walk_invariant
           (λ s, collected s ∧
                 ∀ i a, Obfuscator.identifiers s !! i = Some a →
                        a < length (Obfuscator.heap s))
           events (Obfuscator.init obfuscate_globals reserved_keywords) st); [| |done].
  - intros s s' e _ [Hcol Hids] He. split; [by eapply handle_collected|].
    intros i a Ha. pose proof (handle_length _ _ _ Hcol He) as Hlen.
    destruct (handle_identifiers_Some _ _ _ _ _ He Ha) as [Hold|(n & _ & _ & Hlast)].
    + specialize (Hids i a Hold). lia.
    + destruct Hcol as (_ & _ & _ & Hst & _).
      pose proof (last_stack_lt _ _ Hst Hlast). lia.
  - split; [apply init_collected|]. intros i a. cbn. by rewrite lookup_empty.
Qed.

Lemma collection_invariant_witness :
  ∃ st,
    Obfuscator.walk (Obfuscator.init false []) nested_scopes = Normal st ∧
    tree (Obfuscator.heap st) ∧ length (Obfuscator.heap st) = 4.
Proof.
  eexists. split; [vm_compute; reflexivity|].
  split; [|reflexivity].
  apply (collection_invariant false [] nested_scopes). vm_compute; reflexivity.
Defined.

Lemma resolve_loop_unmapped (d : nat) (h : list Scope.t) (scope : option nat)
    (symbol : string) :
  unmapped h → Scope.resolve_loop d h scope symbol = None.
Proof.
  intros Hu. revert scope. induction d as [|d IH]; intros scope; [done|].
  destruct scope as [a|]; [|done]. cbn [Scope.resolve_loop]. rewrite Hu. apply IH.
Qed.

(** X2: until [finalize] has run, [resolve] returns the original text of
    every occurrence: the collection pass fills no remap table. *)
Theorem resolve_before_finalize (obfuscate_globals : bool)
    (reserved_keywords : list string) (events : list event) (st : Obfuscator.t)
    (node : Identifier) :
  Obfuscator.walk (Obfuscator.init obfuscate_globals reserved_keywords) events = Normal st →
  Obfuscator.resolve st node = value node.
Proof.
  intros (_ & _ & Hu & _)%walk_collected. unfold Obfuscator.resolve.
  destruct (Obfuscator.identifiers st !! ident node) as [a|]; [|done].
  unfold Scope.resolve. by rewrite resolve_loop_unmapped.
Qed.

Lemma resolve_before_finalize_witness :
  ∃ st st',
    Obfuscator.walk (Obfuscator.init false []) declared_then_used = Normal st ∧
    Obfuscator.resolve st (I 2 "x") = "x" ∧
    Obfuscator.finalize st = Normal st' ∧
    Obfuscator.resolve st' (I 2 "x") = "a".
Proof.
  eexists _, _. split; [vm_compute; reflexivity|]. split.
  - apply (resolve_before_finalize false [] declared_then_used). vm_compute; reflexivity.
  - split; [vm_compute; reflexivity|reflexivity].
Defined.

(** X3: after a collection pass the [identifiers] table holds exactly the
    occurrences that a reference event carried. *)
Theorem identifiers_are_referenced (obfuscate_globals : bool)
    (reserved_keywords : list string) (events : list event) (st : Obfuscator.t)
    (i : nat) :
  Obfuscator.walk (Obfuscator.init obfuscate_globals reserved_keywords) events = Normal st →
  is_Some (Obfuscator.identifiers st !! i) ↔ ∃ n, Resolve n ∈ events ∧ ident n = i.
Proof.
  assert (∀ s, Obfuscator.walk s events = Normal st →
               is_Some (Obfuscator.identifiers st !! i) ↔
               is_Some (Obfuscator.identifiers s !! i) ∨
               ∃ n, Resolve n ∈ events ∧ ident n = i) as Hgen.
  { induction events as [|e events IH]; intros s.
    - intros [= <-]. split; [by left|]. intros [?|(n & ?%elem_of_nil & _)]; done.
    - intros (s' & He & Hwalk)%walk_Normal_cons.
      rewrite (IH s' Hwalk), (handle_identifiers_grow s s' e i He). split.
      + intros [[?|(n & -> & ?)]|(n & ? & ?)]; [by left|right; exists n|right; exists n];
          (split; [|done]); apply elem_of_cons; auto.
      + intros [?|(n & [<-|?]%elem_of_cons & ?)]; [by left; left|left; right; by exists n|].
        right. by exists n. }
  intros Hwalk. rewrite (Hgen _ Hwalk). cbn. rewrite lookup_empty. split.
  - intros [[? ?]|?]; done.
  - by right.
Qed.

Lemma identifiers_are_referenced_witness :
  ∃ st,
    Obfuscator.walk (Obfuscator.init false []) declared_then_used = Normal st ∧
    is_Some (Obfuscator.identifiers st !! 2) ∧
    ¬ is_Some (Obfuscator.identifiers st !! 1).
Proof.
  eexists. split; [vm_compute; reflexivity|].
  pose proof (identifiers_are_referenced false [] declared_then_used _ 2
                ltac:(vm_compute; reflexivity)) as H2.
  pose proof (identifiers_are_referenced false [] declared_then_used _ 1
                ltac:(vm_compute; reflexivity)) as H1.
  split.
  - apply H2. exists (I 2 "x"). split; [|reflexivity].
    unfold declared_then_used. do 2 (apply elem_of_cons; right). apply elem_of_cons. by left.
  - intros (n & Hn & Hid)%H1. unfold declared_then_used in Hn.
    repeat (apply elem_of_cons in Hn as [Hn|Hn];
            [try discriminate Hn; injection Hn as ->; cbn in Hid; lia|]).
    by apply elem_of_nil in Hn.
Defined.

(** ** The stack discipline *)

Lemma chain_snoc (h : list Scope.t) (prev : option nat) (l : list nat) (x : nat) :
  chain h prev (l ++ [x]) ↔
  chain h prev l ∧
  Scope.parent (h !!! x) = match last l with Some a => Some a | None => prev end.
Proof.
  revert prev. induction l as [|a l IH]; intros prev; cbn [chain app].
  - cbn. tauto.
  - rewrite IH. destruct l as [|b l]; cbn [last]; [tauto|].
    destruct (last (b :: l)) eqn:Hlast; [tauto|]. by apply last_None in Hlast.
Qed.

Lemma chain_ext (h h' : list Scope.t) (prev : option nat) (l : list nat) :
  (∀ a, a ∈ l → Scope.parent (h' !!! a) = Scope.parent (h !!! a)) →
  chain h prev l → chain h' prev l.
Proof.
  revert prev. induction l as [|a l IH]; intros prev Hpar; [done|].
  cbn [chain]. intros [Ha Hl]. split.
  - rewrite Hpar; [done|]. apply elem_of_cons; auto.
  - apply IH; [|done]. intros b Hb. apply Hpar, elem_of_cons; auto.
Qed.

Lemma alter_field {A : Type} (proj : Scope.t → A) (f : Scope.t → Scope.t)
    (a i : nat) (h : list Scope.t) :
  (∀ s, proj (f s) = proj s) → proj (alter f a h !!! i) = proj (h !!! i).
Proof.
  intros Hf. destruct (decide (i = a)) as [->|Hne].
  - rewrite !list_lookup_total_alt, list_lookup_alter.
    case_decide; [|done]. destruct (h !! a); cbn; [apply Hf|done].
  - by rewrite list_lookup_total_alter_ne.
Qed.

Lemma init_nesting (obfuscate_globals : bool) (reserved_keywords : list string) :
  nesting (Obfuscator.init obfuscate_globals reserved_keywords).
Proof.
  unfold nesting. cbn [Obfuscator.init Obfuscator.heap Obfuscator.stack].
  split; [by cbn|]. split; [apply NoDup_singleton|].
  intros a Ha. cbn in Ha. assert (a = 0) as -> by lia. split; [|done].
  intros _. apply elem_of_cons; auto.
Qed.

Lemma handle_nesting (s s' : Obfuscator.t) (e : event) :
  collected s → nesting s → Obfuscator.handle s e = Normal s' → nesting s'.
Proof.
  intros (Ht & Hd & Hu & Hstack & Hroot) (Hchain & Hnd & Hopen).
  destruct e as [node|node|node|node]; cbn [Obfuscator.handle].
  - unfold Obfuscator.push_scope, Obfuscator.current_scope.
    destruct (last (Obfuscator.stack s)) as [cur|] eqn:Hlast; [|done].
    pose proof (last_stack_lt _ _ Hstack Hlast) as Hcur.
    unfold Scope.nest. intros [= <-]. unfold nesting. cbn.
    set (h := Obfuscator.heap s) in *.
    set (new := Scope.init (Some node) (Some cur)).
    assert (∀ a, a < length h →
                 Scope.parent (alter (λ s0, Scope.set_children
                                             (Scope.children s0 ++ [length h]) s0)
                                     cur (h ++ [new]) !!! a) = Scope.parent (h !!! a) ∧
                 Scope._closed (alter (λ s0, Scope.set_children
                                              (Scope.children s0 ++ [length h]) s0)
                                      cur (h ++ [new]) !!! a) = Scope._closed (h !!! a))
      as Hold.
    { intros a Ha. destruct (decide (a = cur)) as [->|Hne].
      - rewrite list_lookup_total_alter_eq by (rewrite length_app; lia).
        by rewrite lookup_total_app_l.
      - rewrite list_lookup_total_alter_ne by done. by rewrite lookup_total_app_l. }
    assert (alter (λ s0, Scope.set_children (Scope.children s0 ++ [length h]) s0)
                  cur (h ++ [new]) !!! length h = new) as Hnew.
    { rewrite list_lookup_total_alter_ne by lia. rewrite snoc_lookup_total. by case_decide. }
    rewrite Forall_forall in Hstack.
    split_and!.
    + apply chain_snoc. split.
      * eapply chain_ext; [|exact Hchain]. intros a Ha. apply Hold. by apply Hstack.
      * by rewrite Hnew, Hlast.
    + apply NoDup_app. split_and!; [done| |apply NoDup_singleton].
      intros a Ha ->%list_elem_of_singleton. apply Hstack in Ha. lia.
    + intros a. rewrite length_alter, length_app. cbn [length]. intros Ha.
      rewrite elem_of_app, list_elem_of_singleton.
      destruct (decide (a = length h)) as [->|Hne].
      * rewrite Hnew. cbn. tauto.
      * destruct (Hold a ltac:(lia)) as [_ ->]. rewrite (Hopen a) by lia. tauto.
  - intros Hpop.
    destruct (last (Obfuscator.stack s)) as [top|] eqn:Hlast;
      [|unfold Obfuscator.pop_scope in Hpop; by rewrite Hlast in Hpop].
    apply last_Some in Hlast as [rest Hrest].
    assert (top < length (Obfuscator.heap s)) as Htop.
    { rewrite Forall_forall in Hstack. apply Hstack. rewrite Hrest.
      apply elem_of_app. right. by apply list_elem_of_singleton. }
    assert (Scope._closed (Obfuscator.heap s !!! top) = false) as Hop.
    { apply Hopen; [done|]. rewrite Hrest. apply elem_of_app. right.
      by apply list_elem_of_singleton. }
    destruct (pop_scope_open_top s node rest top Hrest Hop) as (h & Hclose & Heq).
    rewrite Heq in Hpop. injection Hpop as <-.
    apply close_Normal in Hclose; [|done]. unfold nesting. cbn.
    rewrite Hrest in Hchain, Hnd, Hopen.
    apply NoDup_app in Hnd as (Hnd & Hdisj & _).
    apply chain_snoc in Hchain as [Hchain _].
    split_and!; [|done|].
    + eapply chain_ext; [|exact Hchain]. intros a Ha. subst h.
      destruct (decide (a = top)) as [->|Hne].
      * by rewrite list_lookup_total_alter_eq.
      * by rewrite list_lookup_total_alter_ne.
    + subst h. intros a. rewrite length_alter. intros Ha.
      destruct (decide (a = top)) as [->|Hne].
      * rewrite list_lookup_total_alter_eq by done. cbn. split; [done|].
        intros Hin. exfalso. apply (Hdisj top Hin). by apply list_elem_of_singleton.
      * rewrite list_lookup_total_alter_ne by done. rewrite (Hopen a Ha).
        rewrite elem_of_app, list_elem_of_singleton. tauto.
  - unfold Obfuscator.declare. destruct (Obfuscator.current_scope s) as [cur|]; [|done].
    intros (h & [= <-] & ->)%on_heap_Normal. unfold nesting. cbn. split_and!; [|done|].
    + eapply chain_ext; [|exact Hchain]. intros a _.
      by apply (alter_field Scope.parent).
    + intros a. rewrite length_alter. intros Ha. rewrite <-(Hopen a Ha).
      by rewrite (alter_field Scope._closed).
  - unfold Obfuscator.reference. destruct (Obfuscator.current_scope s) as [cur|]; [|done].
    intros (h & [= <-] & ->)%on_heap_Normal. unfold nesting. cbn. split_and!; [|done|].
    + eapply chain_ext; [|exact Hchain]. intros a _.
      by apply (alter_field Scope.parent).
    + intros a. rewrite length_alter. intros Ha. rewrite <-(Hopen a Ha).
      by rewrite (alter_field Scope._closed).
Qed.

Lemma walk_nesting (obfuscate_globals : bool) (reserved_keywords : list string)
    (events : list event) (st : Obfuscator.t) :
  Obfuscator.walk (Obfuscator.init obfuscate_globals reserved_keywords) events = Normal st →
  collected st ∧ nesting st.
Proof.
  apply (walk_invariant (λ s, collected s ∧ nesting s)).
  - intros s s' e _ [Hc Hn] He. split; [by eapply handle_collected|by eapply handle_nesting].
  - split; [apply init_collected|apply init_nesting].
Qed.

(** X4: at every point of a collection pass the stack is the path from the
    root scope to the current one: it starts with the root, each scope on it
    is the parent of the next, none is on it twice, and the scopes on it are
    exactly the ones that have not been closed. *)
Theorem stack_is_open_path (obfuscate_globals : bool) (reserved_keywords : list string)
    (events : list event) (st : Obfuscator.t) :
  Obfuscator.walk (Obfuscator.init obfuscate_globals reserved_keywords) events = Normal st →
  chain (Obfuscator.heap st) None (Obfuscator.stack st) ∧
  NoDup (Obfuscator.stack st) ∧
  (∀ a, a < length (Obfuscator.heap st) →
        Scope._closed (Obfuscator.heap st !!! a) = false ↔ a ∈ Obfuscator.stack st) ∧
  (Obfuscator.stack st = [] ∨ head (Obfuscator.stack st) = Some 0).
Proof.
  intros [(Ht & _ & _ & Hstack & _) (Hchain & Hnd & Hopen)]%walk_nesting.
  split_and!; try done.
  destruct (Obfuscator.stack st) as [|a rest]; [by left|right].
  cbn [chain] in Hchain. destruct Hchain as [Hpar _].
  apply Forall_cons in Hstack as [Ha _]. cbn. f_equal. by apply (tree_root _ Ht).
Qed.

Lemma stack_is_open_path_witness :
  ∃ st,
    Obfuscator.walk (Obfuscator.init false [])
      [PushScope 1; PushScope 2; PopScope 2; PushScope 3] = Normal st ∧
    Obfuscator.stack st = [0; 1; 3] ∧
    chain (Obfuscator.heap st) None (Obfuscator.stack st) ∧
    (Scope._closed (Obfuscator.heap st !!! 2) = false ↔ 2 ∈ Obfuscator.stack st).
Proof.
  eexists. split; [vm_compute; reflexivity|]. split; [reflexivity|].
  pose proof (stack_is_open_path false []
                [PushScope 1; PushScope 2; PopScope 2; PushScope 3] _
                ltac:(vm_compute; reflexivity)) as (Hchain & _ & Hopen & _).
  split; [exact Hchain|]. apply Hopen. vm_compute. lia.
Defined.

Lemma handle_outcome (s : Obfuscator.t) (e : event) :
  collected s → nesting s →
  (∃ s', Obfuscator.handle s e = Normal s' ∧
         Z.of_nat (length (Obfuscator.stack s')) =
           (Z.of_nat (length (Obfuscator.stack s)) + height_change e)%Z) ∨
  (Obfuscator.stack s = [] ∧ ∃ msg, Obfuscator.handle s e = Raised (IndexError msg) s).
Proof.
  intros (Ht & Hd & Hu & Hstack & Hroot) (Hchain & Hnd & Hopen).
  destruct (last (Obfuscator.stack s)) as [top|] eqn:Hlast.
  - left. pose proof Hlast as [rest Hrest]%last_Some.
    destruct e as [node|node|node|node]; cbn [Obfuscator.handle height_change].
    + unfold Obfuscator.push_scope, Obfuscator.current_scope. rewrite Hlast.
      unfold Scope.nest. eexists. split; [done|]. cbn. rewrite length_app. cbn. lia.
    + assert (Scope._closed (Obfuscator.heap s !!! top) = false) as Hop.
      { rewrite Forall_forall in Hstack.
        assert (top ∈ Obfuscator.stack s) as Hin.
        { rewrite Hrest. apply elem_of_app. right. by apply list_elem_of_singleton. }
        apply Hopen; [|done]. by apply Hstack. }
      destruct (pop_scope_open_top s node rest top Hrest Hop) as (h & _ & ->).
      eexists. split; [done|]. cbn. rewrite Hrest, length_app. cbn. lia.
    + unfold Obfuscator.declare, Obfuscator.current_scope. rewrite Hlast.
      eexists. split; [done|]. cbn. lia.
    + unfold Obfuscator.reference, Obfuscator.current_scope. rewrite Hlast.
      eexists. split; [done|]. cbn. lia.
  - right. apply last_None in Hlast. split; [done|].
    destruct e as [node|node|node|node]; cbn [Obfuscator.handle];
      unfold Obfuscator.push_scope, Obfuscator.pop_scope, Obfuscator.declare,
             Obfuscator.reference, Obfuscator.current_scope;
      rewrite Hlast; cbn; eauto.
Qed.

Lemma walk_outcome_from (s : Obfuscator.t) (events : list event) :
  collected s → nesting s →
  match Obfuscator.walk s events with
  | Normal st =>
      Z.of_nat (length (Obfuscator.stack st)) =
        (Z.of_nat (length (Obfuscator.stack s)) + height_changes events)%Z
  | Raised e st => Obfuscator.stack st = [] ∧ ∃ msg, e = IndexError msg
  | Diverged => False
  end.
Proof.
  revert s. induction events as [|e events IH]; intros s Hc Hn.
  - cbn. lia.
  - rewrite walk_cons.
    destruct (handle_outcome s e Hc Hn) as [(s' & He & Hlen)|(Hempty & msg & He)].
    + rewrite He. cbn [bind].
      specialize (IH s' (handle_collected _ _ _ Hc He) (handle_nesting _ _ _ Hc Hn He)).
      destruct (Obfuscator.walk s' events); [|done..].
      cbn [height_changes foldr]. fold (height_changes events). lia.
    + rewrite He. cbn [bind]. eauto.
Qed.

(** X5: a collection pass returns or raises [IndexError]; it never closes a
    scope twice.  When it returns, the height of the stack is one more than
    the scope entries less the scope exits; when it raises, a handler found
    the stack empty, after the root scope itself had been popped. *)
Theorem walk_outcome (obfuscate_globals : bool) (reserved_keywords : list string)
    (events : list event) :
  match Obfuscator.walk (Obfuscator.init obfuscate_globals reserved_keywords) events with
  | Normal st =>
      Z.of_nat (length (Obfuscator.stack st)) = (1 + height_changes events)%Z
  | Raised e st =>
      Obfuscator.stack st = [] ∧
      Scope._closed (Obfuscator.heap st !!! 0) = true ∧
      ∃ msg, e = IndexError msg
  | Diverged => False
  end.
Proof.
  pose proof (walk_outcome_from (Obfuscator.init obfuscate_globals reserved_keywords)
                events (init_collected _ _) (init_nesting _ _)) as Hout.
  destruct (Obfuscator.walk _ events) as [st|e st|] eqn:Hwalk; [done| |done].
  destruct Hout as [Hempty Hmsg]. split_and!; [done| |done].
  (* the state the exception leaves is the one before the failing handler *)
  revert Hwalk. generalize (init_collected obfuscate_globals reserved_keywords).
  generalize (init_nesting obfuscate_globals reserved_keywords).
  generalize (Obfuscator.init obfuscate_globals reserved_keywords) as s.
  induction events as [|ev events IH]; intros s Hn Hc; [done|].
  rewrite walk_cons.
  destruct (handle_outcome s ev Hc Hn) as [(s' & He & _)|(Hs & msg & He)]; rewrite He; cbn [bind].
  - apply IH; [by eapply handle_nesting|by eapply handle_collected].
  - intros [= _ <-]. destruct Hn as (_ & _ & Hopen), Hc as (Ht & _).
    destruct (Scope._closed (Obfuscator.heap s !!! 0)) eqn:Hcl; [done|].
    apply Hopen in Hcl; [|apply Ht]. rewrite Hs in Hcl. by apply elem_of_nil in Hcl.
Qed.

Lemma walk_outcome_witness :
  (∃ st, Obfuscator.walk (Obfuscator.init false []) nested_scopes = Normal st ∧
         length (Obfuscator.stack st) = 1) ∧
  (∃ e st, Obfuscator.walk (Obfuscator.init false []) stray_pop = Raised e st ∧
           e = IndexError "list index out of range" ∧
           Obfuscator.stack st = [] ∧
           Scope._closed (Obfuscator.heap st !!! 0) = true).
Proof.
  split.
  - eexists. split; [vm_compute; reflexivity|].
    pose proof (walk_outcome false [] nested_scopes) as Hout.
    vm_compute in Hout. reflexivity.
  - eexists _, _. split; [vm_compute; reflexivity|].
    pose proof (walk_outcome false [] stray_pop) as Hout.
    vm_compute in Hout. destruct Hout as (Hstack & Hclosed & _).
    split; [reflexivity|]. split; [exact Hstack|exact Hclosed].
Defined.

(** ** finalize after a collection pass *)

Lemma set_heap_id (st : Obfuscator.t) : Obfuscator.set_heap (Obfuscator.heap st) st = st.
Proof. by destruct st. Qed.

Lemma same_shape_closed (h h' : list Scope.t) (i : nat) :
  same_shape h h' → Scope._closed (h' !!! i) = Scope._closed (h !!! i).
Proof. intros [_ Hs]. exact (f_equal Scope._closed (Hs i)). Qed.

Lemma finalize_closed_root (st : Obfuscator.t) :
  Obfuscator.global_scope st = 0 →
  Scope._closed (Obfuscator.heap st !!! 0) = true →
  Obfuscator.finalize st = Raised (ValueError "scope is already marked as closed") st.
Proof.
  intros Hroot Hcl. unfold Obfuscator.finalize, Scope.close. rewrite Hroot, Hcl.
  cbn. by rewrite set_heap_id.
Qed.

Lemma finalize_shape (st st' : Obfuscator.t) :
  collected st → Obfuscator.finalize st = Normal st' →
  ∃ h1 h', Scope.close (Obfuscator.heap st) 0 = Normal h1 ∧
           same_shape h1 h' ∧ st' = Obfuscator.set_heap h' st.
Proof.
  intros (Ht & Hd & Hu & _ & Hroot) Hfin.
  unfold Obfuscator.finalize in Hfin. rewrite Hroot in Hfin.
  destruct (Scope.close (Obfuscator.heap st) 0) as [h1| |] eqn:Hclose; [|done..].
  cbn [bind Obfuscator.on_heap Obfuscator.heap Obfuscator.set_heap Obfuscator.global_scope
       Obfuscator.obfuscate_globals Obfuscator.reserved_keywords] in Hfin.
  rewrite Hroot in Hfin.
  apply on_heap_Normal in Hfin as (h' & Hbuild & ->).
  destruct (close_invariants _ _ _ Ht Hd Hu Hclose) as (Ht1 & _ & _ & _).
  destruct (build_returns
              (NameGenerator.init (list_to_set (Obfuscator.reserved_keywords st)) ID_CHARS)
              (S (length h1)) h1 0 (negb (Obfuscator.obfuscate_globals st)))
    as (h2 & Hbuild2 & Hs); [done|done|apply Ht1|lia|].
  unfold Scope.build_remap_symbols in Hbuild. rewrite Hbuild2 in Hbuild.
  injection Hbuild as <-. exists h1, h2. split_and!; [done|done|by destruct st].
Qed.

(** X6: after a collection pass [finalize] returns when the stack still
    holds a scope, and raises [ValueError], leaving the state as it is, when
    the pass has popped the root scope; it never fails to terminate. *)
Theorem finalize_outcome (obfuscate_globals : bool) (reserved_keywords : list string)
    (events : list event) (st : Obfuscator.t) :
  Obfuscator.walk (Obfuscator.init obfuscate_globals reserved_keywords) events = Normal st →
  (Obfuscator.stack st ≠ [] → ∃ st', Obfuscator.finalize st = Normal st') ∧
  (Obfuscator.stack st = [] →
   Obfuscator.finalize st = Raised (ValueError "scope is already marked as closed") st).
Proof.
  intros [Hc (Hchain & _ & Hopen)]%walk_nesting.
  pose proof Hc as (Ht & _ & _ & Hstack & Hroot). split.
  - intros Hne. apply finalize_returns; [done|]. apply Hopen; [apply Ht|].
    destruct (Obfuscator.stack st) as [|a rest]; [done|].
    cbn [chain] in Hchain. destruct Hchain as [Hpar _].
    apply Forall_cons in Hstack as [Ha _].
    rewrite <-(tree_root _ Ht a Ha Hpar). apply elem_of_cons; auto.
  - intros Hempty. apply finalize_closed_root; [done|].
    destruct (Scope._closed (Obfuscator.heap st !!! 0)) eqn:Hcl; [done|].
    apply Hopen in Hcl; [|apply Ht]. rewrite Hempty in Hcl. by apply elem_of_nil in Hcl.
Qed.

Lemma finalize_outcome_witness :
  (∃ st st', Obfuscator.walk (Obfuscator.init false []) [PushScope 1] = Normal st ∧
             Obfuscator.finalize st = Normal st') ∧
  (∃ st, Obfuscator.walk (Obfuscator.init false []) [PopScope 1] = Normal st ∧
         Obfuscator.finalize st =
           Raised (ValueError "scope is already marked as closed") st).
Proof.
  split.
  - eexists.
    destruct (finalize_outcome false [] [PushScope 1] _ ltac:(vm_compute; reflexivity))
      as [Hret _].
    destruct Hret as [st' Hst']; [discriminate|]. exists st'. split; [reflexivity|exact Hst'].
  - eexists. split; [vm_compute; reflexivity|].
    apply (finalize_outcome false [] [PopScope 1]); vm_compute; reflexivity.
Defined.



(** ** Balanced events *)

Lemma height_changes_snoc (events : list event) (e : event) :
  height_changes (events ++ [e]) = (height_changes events + height_change e)%Z.
Proof.
  induction events as [|e' events IH]; cbn [height_changes foldr app].
  - lia.
  - fold (height_changes (events ++ [e])). fold (height_changes events). lia.
Qed.

Lemma walk_snoc (s : Obfuscator.t) (events : list event) (e : event) :
  Obfuscator.walk s (events ++ [e]) =
    bind (Obfuscator.walk s events) (λ s, Obfuscator.handle s e).
Proof. unfold Obfuscator.walk. by rewrite foldl_app. Qed.

Lemma handle_stack (s s' : Obfuscator.t) (e : event) :
  Obfuscator.handle s e = Normal s' →
  match e with
  | PushScope _ => ∃ a, Obfuscator.stack s' = Obfuscator.stack s ++ [a]
  | PopScope _ => ∃ a, Obfuscator.stack s = Obfuscator.stack s' ++ [a]
  | DeclareSymbol _ | Resolve _ => Obfuscator.stack s' = Obfuscator.stack s
  end.
Proof.
  destruct e as [node|node|node|node]; cbn [Obfuscator.handle].
  - unfold Obfuscator.push_scope. destruct (Obfuscator.current_scope s) as [cur|]; [|done].
    unfold Scope.nest. intros [= <-]. cbn. eauto.
  - unfold Obfuscator.pop_scope. destruct (last (Obfuscator.stack s)) as [top|] eqn:Hlast; [|done].
    intros (h & _ & ->)%on_heap_Normal. cbn. exists top.
    apply last_Some in Hlast as [rest ->]. by rewrite removelast_last.
  - unfold Obfuscator.declare. destruct (Obfuscator.current_scope s); [|done].
    by intros (h & _ & ->)%on_heap_Normal.
  - unfold Obfuscator.reference. destruct (Obfuscator.current_scope s); [|done].
    by intros (h & _ & ->)%on_heap_Normal.
Qed.

(** X8: events that never take the stack below the height they start from
    leave the scopes that were on it in place, whatever the state they start
    in; when scope entries and scope exits balance, the stack is the same
    afterwards. *)
Theorem balanced_events_restore_stack (s s' : Obfuscator.t) (events : list event) :
  Obfuscator.walk s events = Normal s' →
  (∀ k, (0 ≤ height_changes (take k events))%Z) →
  (∃ pushed, Obfuscator.stack s' = Obfuscator.stack s ++ pushed ∧
             Z.of_nat (length pushed) = height_changes events) ∧
  (height_changes events = 0%Z → Obfuscator.stack s' = Obfuscator.stack s).
Proof.
  intros Hwalk Hheight.
  assert (∃ pushed, Obfuscator.stack s' = Obfuscator.stack s ++ pushed ∧
                    Z.of_nat (length pushed) = height_changes events) as Hpushed.
  { revert s' Hwalk Hheight. induction events as [|e events IH] using rev_ind;
      intros s' Hwalk Hheight.
    - injection Hwalk as <-. exists []. by rewrite app_nil_r.
    - rewrite walk_snoc in Hwalk.
      destruct (Obfuscator.walk s events) as [s1| |] eqn:Hwalk1; [|done..].
      cbn [bind] in Hwalk.
      destruct (IH s1 eq_refl) as (pushed & Hst & Hlen).
      { intros k. specialize (Hheight (k `min` length events)).
        rewrite take_app_le in Hheight by lia.
        destruct (decide (k ≤ length events)).
        - by replace (k `min` length events) with k in Hheight by lia.
        - replace (k `min` length events) with (length events) in Hheight by lia.
          rewrite firstn_all in Hheight. rewrite take_ge by lia. done. }
      specialize (Hheight (length (events ++ [e]))). rewrite firstn_all in Hheight.
      rewrite height_changes_snoc in Hheight |- *.
      pose proof (handle_stack _ _ _ Hwalk) as Hstep.
      destruct e as [node|node|node|node]; cbn [height_change] in *.
      + destruct Hstep as [a ->]. exists (pushed ++ [a]).
        rewrite Hst, <-app_assoc, length_app. cbn. split; [done|lia].
      + destruct Hstep as [a Ha].
        destruct pushed as [|b pushed _] using rev_ind; [cbn in Hlen; lia|].
        rewrite Hst, app_assoc in Ha. apply app_inj_tail in Ha as [<- _].
        exists pushed. split; [done|]. rewrite length_app in Hlen. cbn in Hlen. lia.
      + exists pushed. rewrite Hstep. split; [done|lia].
      + exists pushed. rewrite Hstep. split; [done|lia]. }
  split; [done|]. intros Hzero. destruct Hpushed as (pushed & -> & Hlen).
  rewrite Hzero in Hlen. destruct pushed; [by rewrite app_nil_r|cbn in Hlen; lia].
Qed.

Lemma balanced_events_restore_stack_witness :
  ∃ s s',
    Obfuscator.walk (Obfuscator.init false []) [PushScope 1] = Normal s ∧
    Obfuscator.walk s inner_function = Normal s' ∧
    Obfuscator.stack s = [0; 1] ∧
    Obfuscator.stack s' = Obfuscator.stack s.
Proof.
  eexists _, _. split; [vm_compute; reflexivity|]. split; [vm_compute; reflexivity|].
  split; [reflexivity|].
  eapply (balanced_events_restore_stack _ _ inner_function);
    [vm_compute; reflexivity| |reflexivity].
  intros [|[|[|k]]]; unfold inner_function; cbn [take]; rewrite ?take_nil; by vm_compute.
Defined.

(** ** Renaming and shadowing *)

Lemma draw_over_charset (k : nat) (gen g' : NameGenerator.t) (skip : gset string)
    (names : list string) :
  NameGenerator.draw k (NameGenerator.call gen skip) = Some (names, g') →
  Forall (λ s, (1 ≤ String.length s)%nat ∧
               Forall (λ c, c ∈ list_ascii_of_string (NameGenerator.charset gen))
                      (list_ascii_of_string s)) names.
Proof.
  intros (_ & _ & _ & _ & Hrem)%draw_remaining.
  specialize (Hrem (NameGenerator.iter_n g') ltac:(lia)).
  unfold NameGenerator.call in Hrem. rewrite remaining_init in Hrem.
  apply Forall_forall. intros s Hs.
  assert (s ∈ spec_names (list_ascii_of_string (NameGenerator.charset gen))
                         (skip ∪ NameGenerator.skip gen) (NameGenerator.iter_n g')) as Hin.
  { rewrite Hrem. apply elem_of_app. by left. }
  apply list_elem_of_filter in Hin as [_ Hin].
  apply candidates_elem in Hin as [[Hlen _] Hchars]. done.
Qed.

Lemma built_names (gen : NameGenerator.t) (h : list Scope.t) (i : nat) (k r : string) :
  built gen h i → scope_ok (h !!! i) →
  Dict.get k (Scope.remapped_symbols (h !!! i)) = Some r →
  (1 ≤ String.length r)%nat ∧
  Forall (λ c, c ∈ list_ascii_of_string (NameGenerator.charset gen)) (list_ascii_of_string r).
Proof.
  intros (names & g' & Hdraw & ->) [Hnd _] Hget.
  destruct (draw_remaining _ _ _ _ Hdraw) as (_ & _ & _ & Hlen & _).
  apply assign_get_inv in Hget as (n & _ & Hn); [|by apply loop_symbols_NoDup|done].
  pose proof (draw_over_charset _ _ _ _ _ Hdraw) as Hall.
  rewrite Forall_forall in Hall. apply Hall. by eapply list_elem_of_lookup_2.
Qed.

Lemma walk_config (obfuscate_globals : bool) (reserved_keywords : list string)
    (events : list event) (s : Obfuscator.t) :
  Obfuscator.walk (Obfuscator.init obfuscate_globals reserved_keywords) events = Normal s →
  Obfuscator.obfuscate_globals s = obfuscate_globals ∧
  Obfuscator.reserved_keywords s = reserved_keywords.
Proof.
  apply (walk_invariant
           (λ s, Obfuscator.obfuscate_globals s = obfuscate_globals ∧
                 Obfuscator.reserved_keywords s = reserved_keywords)); [|done].
  intros s1 s2 e _ [<- <-] He. by apply handle_config in He.
Qed.

Lemma prewalk_hook_built (obfuscate_globals : bool) (reserved_keywords : list string)
    (events : list event) (st : Obfuscator.t) (j : nat) :
  Obfuscator.prewalk_hook (Obfuscator.init obfuscate_globals reserved_keywords) events
    = Normal st →
  j < length (Obfuscator.heap st) → j ≠ 0 ∨ obfuscate_globals = true →
  built (NameGenerator.init (list_to_set reserved_keywords) ID_CHARS) (Obfuscator.heap st) j.
Proof.
  intros (s & Hwalk & Hfin)%prewalk_hook_Normal Hj Hog.
  destruct (walk_config _ _ _ _ Hwalk) as [Hog' Hrk].
  destruct (finalize_built _ _ (walk_collected _ _ _ _ Hwalk) Hfin) as (_ & _ & _ & Hb & _).
  rewrite Hrk in Hb. apply Hb; [done|]. by rewrite Hog'.
Qed.

Lemma binding_at_declared (d : nat) (h : list Scope.t) (scope : option nat)
    (symbol : string) (b : nat) :
  binding_at d h scope symbol = Some b →
  symbol ∈ Scope.local_declared_symbols (h !!! b).
Proof.
  revert scope. induction d as [|d IH]; intros scope; [done|].
  destruct scope as [a|]; [|done]. cbn [binding_at].
  case_decide; [|apply IH]. by intros [= <-].
Qed.

Lemma declared_lt (h : list Scope.t) (b : nat) (symbol : string) :
  symbol ∈ Scope.local_declared_symbols (h !!! b) → b < length h.
Proof.
  intros Hin. destruct (decide (b < length h)) as [|Hge]; [done|].
  rewrite lookup_total_ge_inhabitant in Hin by lia. by apply elem_of_empty in Hin.
Qed.

(** X9: after collection and finalization [resolve] renders an occurrence
    by the table of its binding, the nearest scope from the one it was
    referenced in outwards that declares its name, and so by the inner
    declaration when one shadows another: it returns that scope's
    replacement, which is never the empty string; it returns the original
    text when no scope declares the name, and when the root declares it and
    globals are not obfuscated. *)
Theorem resolve_by_binding (obfuscate_globals : bool) (reserved_keywords : list string)
    (events : list event) (st : Obfuscator.t) (node : Identifier) :
  Obfuscator.prewalk_hook (Obfuscator.init obfuscate_globals reserved_keywords) events
    = Normal st →
  match occurrence_binding st node with
  | None => Obfuscator.resolve st node = value node
  | Some b =>
      if decide (b = 0 ∧ obfuscate_globals = false) then
        Obfuscator.resolve st node = value node
      else
        Dict.get (value node) (Scope.remapped_symbols (Obfuscator.heap st !!! b))
          = Some (Obfuscator.resolve st node) ∧
        Obfuscator.resolve st node ≠ ""
  end.
Proof.
  intros Hpre.
  pose proof (prewalk_hook_finalized _ _ _ _ Hpre) as (Ht & Hd & Htab & Hroot).
  unfold occurrence_binding, Obfuscator.resolve.
  destruct (Obfuscator.identifiers st !! ident node) as [a|]; [|done]. cbn [mbind option_bind].
  unfold Scope.resolve, binding.
  rewrite (resolve_loop_binding _ _ _ _ _ Hd Htab).
  destruct (binding_at _ _ _ _) as [b|] eqn:Hb; [|done]. cbn [mbind option_bind].
  pose proof (binding_at_declared _ _ _ _ _ Hb) as Hdecl.
  pose proof (declared_lt _ _ _ Hdecl) as Hlt.
  case_decide as Hcase.
  - destruct Hcase as [-> Hog]. by rewrite (Hroot Hog).
  - assert (b ≠ 0 ∨ obfuscate_globals = true) as Hog.
    { destruct (decide (b = 0)); [|by left]. right. destruct obfuscate_globals; [done|].
      exfalso. by apply Hcase. }
    pose proof (prewalk_hook_built _ _ _ _ b Hpre Hlt Hog) as Hbuilt.
    pose proof (built_facts _ _ _ Hbuilt (Hd b)) as (Hkeys & _).
    apply Hkeys, dict_get_is_Some in Hdecl as [r Hr]. rewrite Hr.
    destruct (built_names _ _ _ _ _ Hbuilt (Hd b) Hr) as [Hlen _].
    assert (r ≠ "") as Hne by (intros ->; cbn in Hlen; lia).
    by rewrite decide_False.
Qed.

Lemma resolve_by_binding_witness :
  ∃ st,
    Obfuscator.prewalk_hook (Obfuscator.init false []) shadowing = Normal st ∧
    occurrence_binding st (I 4 "x") = Some 2 ∧
    occurrence_binding st (I 5 "x") = Some 1 ∧
    Dict.get "x" (Scope.remapped_symbols (Obfuscator.heap st !!! 2))
      = Some (Obfuscator.resolve st (I 4 "x")) ∧
    Dict.get "x" (Scope.remapped_symbols (Obfuscator.heap st !!! 1))
      = Some (Obfuscator.resolve st (I 5 "x")).
Proof.
  eexists. split; [vm_compute; reflexivity|].
  split; [vm_compute; reflexivity|]. split; [vm_compute; reflexivity|].
  split.
  - pose proof (resolve_by_binding false [] shadowing _ (I 4 "x")
                  ltac:(vm_compute; reflexivity)) as H4.
    vm_compute in H4. vm_compute. exact (proj1 H4).
  - pose proof (resolve_by_binding false [] shadowing _ (I 5 "x")
                  ltac:(vm_compute; reflexivity)) as H5.
    vm_compute in H5. vm_compute. exact (proj1 H5).
Defined.

(** X10: after collection and finalization every symbol declared in a
    scope below the root, and in the root as well when globals are
    obfuscated, has exactly one entry in the remap table of that scope, and
    its replacement is a non-empty string over [ID_CHARS]. *)
Theorem declared_symbols_renamed (obfuscate_globals : bool)
    (reserved_keywords : list string) (events : list event) (st : Obfuscator.t)
    (i : nat) :
  Obfuscator.prewalk_hook (Obfuscator.init obfuscate_globals reserved_keywords) events
    = Normal st →
  i < length (Obfuscator.heap st) → i ≠ 0 ∨ obfuscate_globals = true →
  NoDup (Dict.keys (Scope.remapped_symbols (Obfuscator.heap st !!! i))) ∧
  (∀ k, k ∈ Dict.keys (Scope.remapped_symbols (Obfuscator.heap st !!! i)) ↔
        k ∈ Scope.local_declared_symbols (Obfuscator.heap st !!! i)) ∧
  (∀ k r, Dict.get k (Scope.remapped_symbols (Obfuscator.heap st !!! i)) = Some r →
          (1 ≤ String.length r)%nat ∧
          Forall (λ c, c ∈ list_ascii_of_string ID_CHARS) (list_ascii_of_string r)).
Proof.
  intros Hpre Hi Hog.
  pose proof (prewalk_hook_finalized _ _ _ _ Hpre) as (_ & Hd & _).
  pose proof (prewalk_hook_built _ _ _ _ i Hpre Hi Hog) as Hbuilt.
  split_and!.
  - destruct Hbuilt as (names & g' & _ & ->). unfold assign.
    generalize (zip (loop_symbols (Obfuscator.heap st !!! i)) names).
    intros l. assert (NoDup (Dict.keys ([] : list (string * string)))) as Hnil by constructor.
    revert Hnil. generalize ([] : list (string * string)).
    induction l as [|sn l IH]; intros r Hr; [done|].
    cbn [foldl]. apply IH. by apply dict_set_NoDup.
  - apply (built_facts _ _ _ Hbuilt (Hd i)).
  - intros k r. apply (built_names _ _ _ _ _ Hbuilt (Hd i)).
Qed.

Lemma declared_symbols_renamed_witness :
  ∃ st,
    Obfuscator.prewalk_hook (Obfuscator.init false []) shadowing = Normal st ∧
    Dict.keys (Scope.remapped_symbols (Obfuscator.heap st !!! 1)) = ["x"; "g"] ∧
    ("x" ∈ Dict.keys (Scope.remapped_symbols (Obfuscator.heap st !!! 1)) ↔
     "x" ∈ Scope.local_declared_symbols (Obfuscator.heap st !!! 1)).
Proof.
  eexists. split; [vm_compute; reflexivity|]. split; [vm_compute; reflexivity|].
  apply (declared_symbols_renamed false [] shadowing _ 1 ltac:(vm_compute; reflexivity)).
  - vm_compute. lia.
  - by left.
Defined.

(** ** close_all *)

Lemma same_links_refl (h : list Scope.t) : same_links h h.
Proof. by split. Qed.

Lemma same_links_trans (h1 h2 h3 : list Scope.t) :
  same_links h1 h2 → same_links h2 h3 → same_links h1 h3.
Proof.
  intros [Hl1 H1] [Hl2 H2]. split; [congruence|]. intros i.
  destruct (H1 i), (H2 i). split; congruence.
Qed.

Lemma close_all_children (d : nat) (self : nat) (cs : list nat) (h0 h : list Scope.t) :
  close_all_spec d →
  tree h0 → same_links h0 h →
  (∀ c, c ∈ cs → Scope.parent (h0 !!! c) = Some self) → NoDup cs →
  (∀ c, c ∈ cs → c < length h0 ∧ length h0 < d + c) →
  match foldl (λ o child, bind o (λ h, Scope.close_all_at d h child)) (Normal h) cs with
  | Normal h' =>
      same_links h0 h' ∧
      (∀ c j, c ∈ cs → under h0 c j →
              Scope._closed (h !!! j) = false ∧ Scope._closed (h' !!! j) = true) ∧
      (∀ j, (∀ c, c ∈ cs → ¬ under h0 c j) → h' !!! j = h !!! j)
  | Raised e h' =>
      e = ValueError "scope is already marked as closed" ∧
      ∃ c j, c ∈ cs ∧ under h0 c j ∧ Scope._closed (h !!! j) = true
  | Diverged => False
  end.
Proof.
  intros Hspec Ht. revert h. induction cs as [|c cs IH]; intros h Hs Hpar Hnd Hlen.
  - cbn [foldl]. split_and!; [done| |done]. intros c j Hc. by apply elem_of_nil in Hc.
  - cbn [foldl bind]. apply NoDup_cons in Hnd as [Hnin Hnd].
    assert (c ∈ c :: cs) as Hc by (apply elem_of_cons; auto).
    destruct (Hlen c Hc) as [Hc1 Hc2].
    pose proof (Hspec h0 h c Ht Hs Hc1 Hc2) as Hchild.
    destruct (Scope.close_all_at d h c) as [h1|e h1|] eqn:Hrun.
    + destruct Hchild as (Hs1 & Hclosed1 & Hframe1).
      specialize (IH h1 Hs1).
      assert (∀ c' j, c' ∈ cs → under h0 c' j → ¬ under h0 c j) as Hsib.
      { intros c' j Hc' Hj' Hj. eapply (under_disjoint h0 self c c' j); try done.
        - apply Hpar, Hc.
        - apply Hpar, elem_of_cons. by right.
        - intros ->. done. }
      destruct (foldl _ (Normal h1) cs) as [h'|e h'|] eqn:Hrest.
      * destruct IH as (Hs' & Hclosed & Hframe).
        { intros c' Hc'. apply Hpar, elem_of_cons. by right. }
        { done. }
        { intros c' Hc'. apply Hlen, elem_of_cons. by right. }
        split_and!; [done| |].
        -- intros c' j [->|Hc']%elem_of_cons Hj.
           ++ destruct (Hclosed1 j Hj) as [Hop Hcl]. split; [done|].
              rewrite Hframe; [done|]. intros c' Hc' Hj'. by eapply Hsib.
           ++ destruct (Hclosed c' j Hc' Hj) as [Hop Hcl]. split; [|done].
              rewrite <-Hframe1; [done|]. by eapply Hsib.
        -- intros j Hj. rewrite Hframe, Hframe1; [done| |].
           ++ apply Hj, Hc.
           ++ intros c' Hc'. apply Hj, elem_of_cons. by right.
      * destruct IH as (He & c' & j & Hc' & Hj & Hcl).
        { intros c'' Hc''. apply Hpar, elem_of_cons. by right. }
        { done. }
        { intros c'' Hc''. apply Hlen, elem_of_cons. by right. }
        split; [done|]. exists c', j. split_and!; [apply elem_of_cons; by right|done|].
        rewrite <-Hframe1; [done|]. by eapply Hsib.
      * apply IH; [|done|].
        -- intros c' Hc'. apply Hpar, elem_of_cons. by right.
        -- intros c' Hc'. apply Hlen, elem_of_cons. by right.
    + rewrite foldl_bind_stuck by done. destruct Hchild as (He & j & Hj & Hcl).
      split; [done|]. by exists c, j.
    + done.
Qed.

Lemma close_all_spec_all (depth : nat) : close_all_spec depth.
Proof.
  induction depth as [|d IH]; intros h0 h self Ht Hs Hself Hdepth; [lia|].
  cbn [Scope.close_all_at].
  destruct Hs as [Hlen Hlinks]. pose proof (conj Hlen Hlinks : same_links h0 h) as Hs.
  rewrite (proj2 (Hlinks self)).
  pose proof (close_all_children d self (Scope.children (h0 !!! self)) h0 h IH Ht Hs)
    as Hfold.
  assert (∀ c j, c ∈ Scope.children (h0 !!! self) → under h0 c j → self < j) as Hbelow.
  { intros c j Hc Hj. pose proof (tree_children h0 Ht self c Hc) as [Hlt _].
    pose proof (under_ge _ _ _ Ht Hj). lia. }
  destruct (foldl _ (Normal h) (Scope.children (h0 !!! self))) as [h1|e h1|] eqn:Hrun.
  - destruct Hfold as (Hs1 & Hclosed & Hframe).
    { intros c Hc. by apply (tree_children h0 Ht). }
    { apply Ht. }
    { intros c Hc. pose proof (tree_children h0 Ht self c Hc) as [Hlt Hp].
      split; [by eapply parent_Some_lt|lia]. }
    cbn [bind].
    assert (h1 !!! self = h !!! self) as Hself1.
    { apply Hframe. intros c Hc Hj. pose proof (Hbelow c self Hc Hj). lia. }
    pose proof (same_links_tree _ _ Hs1 Ht) as Ht1.
    destruct (Scope.close h1 self) as [h2|e h2|] eqn:Hclose.
    + pose proof (close_Normal _ _ _ Ht1 Hclose) as Hh2.
      assert (Scope._closed (h !!! self) = false) as Hop.
      { unfold Scope.close in Hclose. rewrite <-Hself1.
        by destruct (Scope._closed (h1 !!! self)). }
      split_and!.
      * eapply same_links_trans; [exact Hs1|]. rewrite Hh2.
        apply alter_same_links. by intros [].
      * intros j Hj. destruct (decide (self = j)) as [<-|Hne].
        -- split; [done|]. rewrite Hh2, list_lookup_total_alter_eq; [done|].
           rewrite (proj1 Hs1). done.
        -- destruct (under_children h0 self j Ht Hj Hne) as (c & Hc & Hcj).
           destruct (Hclosed c j Hc Hcj) as [Hopj Hclj]. split; [done|].
           by rewrite Hh2, list_lookup_total_alter_ne.
      * intros j Hj. rewrite Hh2, list_lookup_total_alter_ne.
        -- apply Hframe. intros c Hc Hcj. apply Hj.
           eapply under_trans; [|done]. by apply child_under.
        -- intros ->. apply Hj. constructor.
    + unfold Scope.close in Hclose.
      destruct (Scope._closed (h1 !!! self)) eqn:Hcl; [|done].
      injection Hclose as <- <-. split; [done|]. exists self.
      split; [constructor|]. by rewrite <-Hself1.
    + unfold Scope.close in Hclose. by destruct (Scope._closed (h1 !!! self)).
  - cbn [bind]. destruct Hfold as (He & c & j & Hc & Hj & Hcl).
    { intros c Hc. by apply (tree_children h0 Ht). }
    { apply Ht. }
    { intros c Hc. pose proof (tree_children h0 Ht self c Hc) as [Hlt Hp].
      split; [by eapply parent_Some_lt|lia]. }
    split; [done|]. exists j. split; [|done].
    eapply under_trans; [|done]. by apply child_under.
  - apply Hfold.
    + intros c Hc. by apply (tree_children h0 Ht).
    + apply Ht.
    + intros c Hc. pose proof (tree_children h0 Ht self c Hc) as [Hlt Hp].
      split; [by eapply parent_Some_lt|lia].
Qed.

(** X11: on a tree of scopes [close_all] always terminates.  It returns
    when every scope in the subtree of [self] is open: then exactly the
    scopes of that subtree are marked closed, the scopes outside of it are
    untouched, and [parent] and [children] are as before.  It raises
    [ValueError] when some scope of the subtree is closed already. *)
Theorem close_all_outcome (h : list Scope.t) (self : nat) :
  tree h → self < length h →
  match Scope.close_all h self with
  | Normal h' =>
      same_links h h' ∧
      (∀ j, under h self j →
            Scope._closed (h !!! j) = false ∧ Scope._closed (h' !!! j) = true) ∧
      (∀ j, ¬ under h self j → h' !!! j = h !!! j)
  | Raised e h' =>
      e = ValueError "scope is already marked as closed" ∧
      ∃ j, under h self j ∧ Scope._closed (h !!! j) = true
  | Diverged => False
  end.
Proof.
  intros Ht Hself. unfold Scope.close_all.
  apply (close_all_spec_all (S (length h)) h h self Ht (same_links_refl h) Hself). lia.
Qed.

Lemma close_all_outcome_witness :
  ∃ st h',
    Obfuscator.walk (Obfuscator.init false []) open_chain = Normal st ∧
    Scope.close_all (Obfuscator.heap st) 1 = Normal h' ∧
    Scope._closed (h' !!! 1) = true ∧ Scope._closed (h' !!! 2) = true ∧
    h' !!! 0 = Obfuscator.heap st !!! 0 ∧
    Dict.get "x" (Scope.referenced_symbols (h' !!! 1)) = Some 2%Z.
Proof.
  eexists _, _. split; [vm_compute; reflexivity|].
  split; [vm_compute; reflexivity|].
  pose proof (walk_collected false [] open_chain _ ltac:(vm_compute; reflexivity))
    as (Ht & _).
  pose proof (close_all_outcome _ 1 Ht ltac:(vm_compute; lia)) as Hout.
  vm_compute in Hout. destruct Hout as (_ & Hclosed & Hframe).
  split; [exact (proj2 (Hclosed 1 ltac:(constructor)))|].
  split; [|split; reflexivity].
  apply (Hclosed 2). by eapply under_child; [|constructor].
Defined.

(** ** The symbol sets of a scope *)

(** X12: on a tree of scopes [declared_symbols] of a scope is the union of
    the [local_declared_symbols] of the scope and of all its ancestors: the
    recursion over [parent] reaches every one of them. *)
Theorem declared_symbols_ancestors (h : list Scope.t) (i : nat) (x : string) :
  tree h → i < length h →
  x ∈ Scope.declared_symbols h i ↔
  ∃ a, under h a i ∧ x ∈ Scope.local_declared_symbols (h !!! a).
Proof.
  intros Ht Hi. split.
  - unfold Scope.declared_symbols. generalize (length h) as d. intros d. revert i Hi.
    induction d as [|d IH]; intros i Hi; cbn [Scope.declared_symbols_at].
    + by intros ?%elem_of_empty.
    + intros [Hlocal|Hup]%elem_of_union.
      * exists i. split; [constructor|done].
      * destruct (Scope.parent (h !!! i)) as [p|] eqn:Hp; [|by apply elem_of_empty in Hup].
        pose proof (tree_parent h Ht i p Hp).
        destruct (IH p ltac:(lia) Hup) as (a & Ha & Hx).
        exists a. split; [|done]. by eapply under_child.
  - intros (a & Ha & Hx). by eapply declared_under.
Qed.

Lemma declared_symbols_ancestors_witness :
  ∃ st,
    Obfuscator.walk (Obfuscator.init false []) nested_scopes = Normal st ∧
    ("x" ∈ Scope.declared_symbols (Obfuscator.heap st) 3 ↔
     ∃ a, under (Obfuscator.heap st) a 3 ∧
          "x" ∈ Scope.local_declared_symbols (Obfuscator.heap st !!! a)) ∧
    "x" ∈ Scope.local_declared_symbols (Obfuscator.heap st !!! 1) ∧
    "x" ∉ Scope.local_declared_symbols (Obfuscator.heap st !!! 3).
Proof.
  eexists. split; [vm_compute; reflexivity|].
  pose proof (walk_collected false [] nested_scopes _ ltac:(vm_compute; reflexivity))
    as (Ht & _).
  split; [apply (declared_symbols_ancestors _ 3 "x" Ht); vm_compute; lia|].
  split; by apply (bool_decide_unpack _).
Defined.

(** X13: on a tree of scopes [global_symbols_in_children] of a scope is the
    union of the [global_symbols] of all the scopes nested in it, at any
    depth, the scope itself left out. *)
Theorem global_symbols_in_children_descendants (h : list Scope.t) (i : nat) (x : string) :
  tree h → i < length h →
  x ∈ Scope.global_symbols_in_children h i ↔
  ∃ j, under h i j ∧ i ≠ j ∧ x ∈ Scope.global_symbols h j.
Proof.
  intros Ht Hi. split.
  - unfold Scope.global_symbols_in_children. generalize (length h) as d. intros d.
    revert i Hi. induction d as [|d IH]; intros i Hi;
      cbn [Scope.global_symbols_in_children_at].
    + by intros ?%elem_of_empty.
    + rewrite (elem_of_foldl_union
                 (λ c, Scope.global_symbols h c ∪ Scope.global_symbols_in_children_at d h c)).
      intros [Hx|(c & Hc & Hx)]; [by apply elem_of_empty in Hx|].
      pose proof (tree_children h Ht i c Hc) as [Hic Hp].
      pose proof (child_under h i c Ht Hc) as Hu.
      apply elem_of_union in Hx as [Hx|Hx].
      * exists c. split_and!; [done|lia|done].
      * destruct (IH c (parent_Some_lt _ _ _ Hp) Hx) as (j & Hj & Hne & Hxj).
        exists j. pose proof (under_ge _ _ _ Ht Hj).
        split_and!; [by eapply under_trans|lia|done].
  - intros (j & Hj & Hne & Hx).
    apply (global_children_under h (length h) i j x Ht Hj Hne); [|lia|done].
    by eapply under_lt.
Qed.

Lemma global_symbols_in_children_descendants_witness :
  ∃ st,
    Obfuscator.walk (Obfuscator.init false [])
      [PushScope 1; PushScope 2; Resolve (I 1 "window"); PopScope 2; PopScope 1]
      = Normal st ∧
    "window" ∈ Scope.global_symbols_in_children (Obfuscator.heap st) 0 ∧
    "window" ∈ Scope.global_symbols (Obfuscator.heap st) 2.
Proof.
  eexists. split; [vm_compute; reflexivity|].
  pose proof (walk_collected false []
                [PushScope 1; PushScope 2; Resolve (I 1 "window"); PopScope 2; PopScope 1]
                _ ltac:(vm_compute; reflexivity)) as (Ht & _).
  assert ("window" ∈ Scope.global_symbols
            (Obfuscator.heap (Obfuscator.mk {[1 := 2]} {[1 := 1; 2 := 2]} [0] false [] 0
               [Scope.mk false None None [1] [] ∅ [];
                Scope.mk true (Some 1) (Some 0) [2] [("window", 1%Z)] ∅ [];
                Scope.mk true (Some 2) (Some 1) [] [("window", 1%Z)] ∅ []])) 2) as Hg.
  { by apply (bool_decide_unpack _). }
  split; [|exact Hg].
  apply (global_symbols_in_children_descendants _ 0 "window" Ht); [vm_compute; lia|].
  exists 2. split_and!; [|done|exact Hg].
  eapply under_child; [reflexivity|]. eapply under_child; [reflexivity|]. constructor.
Defined.

(** ** Counting references *)

Lemma handle_straight (s s' : Obfuscator.t) (e : event) (cur : nat) :
  match e with PushScope _ | PopScope _ => False | _ => True end →
  last (Obfuscator.stack s) = Some cur → cur < length (Obfuscator.heap s) →
  Obfuscator.handle s e = Normal s' →
  Obfuscator.stack s' = Obfuscator.stack s ∧
  length (Obfuscator.heap s') = length (Obfuscator.heap s) ∧
  (∀ j, j ≠ cur → Obfuscator.heap s' !!! j = Obfuscator.heap s !!! j) ∧
  Scope.local_declared_symbols (Obfuscator.heap s' !!! cur) =
    Scope.local_declared_symbols (Obfuscator.heap s !!! cur) ∪ declarations [e] ∧
  (∀ x, default 0%Z (Dict.get x (Scope.referenced_symbols (Obfuscator.heap s' !!! cur))) =
        (default 0%Z (Dict.get x (Scope.referenced_symbols (Obfuscator.heap s !!! cur)))
         + references x [e])%Z) ∧
  (∀ x, x ∈ Dict.keys (Scope.referenced_symbols (Obfuscator.heap s' !!! cur)) ↔
        x ∈ Dict.keys (Scope.referenced_symbols (Obfuscator.heap s !!! cur)) ∨
        x ∈ declarations [e] ∨ references x [e] ≠ 0%Z).
Proof.
  intros He Hlast Hcur.
  destruct e as [node|node|node|node]; [done|done|..]; cbn [Obfuscator.handle].
  - unfold Obfuscator.declare, Obfuscator.current_scope. rewrite Hlast.
    intros (h & [= <-] & ->)%on_heap_Normal.
    cbn [Obfuscator.set_heap Obfuscator.stack Obfuscator.heap declarations references foldr].
    rewrite length_alter. split_and!; [done|done| | | |].
    + intros j Hj. by rewrite list_lookup_total_alter_ne.
    + rewrite list_lookup_total_alter_eq by done.
      cbn [Scope.referenced_symbols Scope.local_declared_symbols
           Scope.set_referenced_symbols Scope.set_local_declared_symbols]. set_solver.
    + intros x. rewrite list_lookup_total_alter_eq by done.
      cbn [Scope.referenced_symbols Scope.local_declared_symbols
           Scope.set_referenced_symbols Scope.set_local_declared_symbols].
      rewrite dict_get_set. case_decide as Hx; [subst x; cbn; lia|lia].
    + intros x. rewrite list_lookup_total_alter_eq by done.
      cbn [Scope.referenced_symbols Scope.local_declared_symbols
           Scope.set_referenced_symbols Scope.set_local_declared_symbols].
      rewrite dict_keys_set.
      assert (x ∈ ({[value node]} ∪ ∅ : gset string) ↔ x = value node) as -> by set_solver.
      case_decide as Hin; [|rewrite elem_of_app, list_elem_of_singleton]; naive_solver.
  - unfold Obfuscator.reference, Obfuscator.current_scope. rewrite Hlast.
    intros (h & [= <-] & ->)%on_heap_Normal.
    cbn [Obfuscator.set_heap Obfuscator.set_identifiers Obfuscator.stack Obfuscator.heap
         declarations references foldr].
    rewrite length_alter. split_and!; [done|done| | | |].
    + intros j Hj. by rewrite list_lookup_total_alter_ne.
    + rewrite list_lookup_total_alter_eq by done.
      cbn [Scope.referenced_symbols Scope.local_declared_symbols
           Scope.set_referenced_symbols Scope.set_local_declared_symbols]. set_solver.
    + intros x. rewrite list_lookup_total_alter_eq by done.
      cbn [Scope.referenced_symbols Scope.local_declared_symbols
           Scope.set_referenced_symbols Scope.set_local_declared_symbols].
      rewrite dict_get_set. case_decide as Hx; [subst x; cbn; lia|lia].
    + intros x. rewrite list_lookup_total_alter_eq by done.
      cbn [Scope.referenced_symbols Scope.local_declared_symbols
           Scope.set_referenced_symbols Scope.set_local_declared_symbols].
      rewrite dict_keys_set.
      assert (x ∈ (∅ : gset string) ↔ False) as -> by set_solver.
      assert ((if decide (value node = x) then (1 + 0)%Z else 0%Z) ≠ 0%Z ↔ x = value node)
        as -> by (case_decide; naive_solver).
      case_decide as Hin; [|rewrite elem_of_app, list_elem_of_singleton]; naive_solver.
Qed.

Lemma references_cons (x : string) (e : event) (events : list event) :
  references x (e :: events) = (references x [e] + references x events)%Z.
Proof.
  cbn [references foldr]. fold (references x events).
  destruct e as [| | |n]; try lia. case_decide; lia.
Qed.

Lemma declarations_cons (e : event) (events : list event) :
  declarations (e :: events) = declarations [e] ∪ declarations events.
Proof.
  cbn [declarations foldr]. fold (declarations events).
  destruct e as [| |n|]; set_solver.
Qed.

Lemma references_nonneg (x : string) (events : list event) : (0 ≤ references x events)%Z.
Proof.
  induction events as [|e events IH]; [done|]. cbn [references foldr].
  fold (references x events). destruct e as [| | |n]; try done. case_decide; lia.
Qed.

(** X14: events that enter and leave no scope change the current scope
    only: its count of every name grows by the number of references to the
    name among the events, a declaration adds nothing to a count, the names
    declared are added to [local_declared_symbols], and a name has an entry
    in [referenced_symbols] when it had one or the events declare or
    reference it. *)
Theorem straight_line_counts (s s' : Obfuscator.t) (events : list event) (cur : nat) :
  straight_line events →
  last (Obfuscator.stack s) = Some cur → cur < length (Obfuscator.heap s) →
  Obfuscator.walk s events = Normal s' →
  Obfuscator.stack s' = Obfuscator.stack s ∧
  length (Obfuscator.heap s') = length (Obfuscator.heap s) ∧
  (∀ j, j ≠ cur → Obfuscator.heap s' !!! j = Obfuscator.heap s !!! j) ∧
  Scope.local_declared_symbols (Obfuscator.heap s' !!! cur) =
    Scope.local_declared_symbols (Obfuscator.heap s !!! cur) ∪ declarations events ∧
  (∀ x, default 0%Z (Dict.get x (Scope.referenced_symbols (Obfuscator.heap s' !!! cur))) =
        (default 0%Z (Dict.get x (Scope.referenced_symbols (Obfuscator.heap s !!! cur)))
         + references x events)%Z) ∧
  (∀ x, x ∈ Dict.keys (Scope.referenced_symbols (Obfuscator.heap s' !!! cur)) ↔
        x ∈ Dict.keys (Scope.referenced_symbols (Obfuscator.heap s !!! cur)) ∨
        x ∈ declarations events ∨ references x events ≠ 0%Z).
Proof.
  intros Hline. revert s. induction events as [|e events IH]; intros s Hlast Hcur.
  - intros [= <-]. cbn [declarations references foldr].
    split_and!; try done.
    + set_solver.
    + intros x. lia.
    + intros x. split; [by left|]. intros [?|[?%elem_of_empty|?]]; done.
  - intros (s1 & He & Hwalk)%walk_Normal_cons.
    apply Forall_cons in Hline as [Hline1 Hline].
    destruct (handle_straight s s1 e cur Hline1 Hlast Hcur He)
      as (Hst1 & Hlen1 & Hframe1 & Hdecl1 & Hcount1 & Hkeys1).
    destruct (IH Hline s1) as (Hst & Hlen & Hframe & Hdecl & Hcount & Hkeys);
      [by rewrite Hst1|by rewrite Hlen1|done|].
    split_and!.
    + congruence.
    + congruence.
    + intros j Hj. by rewrite Hframe, Hframe1.
    + rewrite Hdecl, Hdecl1, (declarations_cons e events). by rewrite (assoc_L (∪)).
    + intros x. rewrite Hcount, Hcount1, (references_cons x e events). lia.
    + intros x. rewrite Hkeys, Hkeys1, (references_cons x e events), (declarations_cons e events).
      pose proof (references_nonneg x [e]). pose proof (references_nonneg x events).
      rewrite elem_of_union.
      assert ((references x [e] + references x events)%Z ≠ 0%Z ↔
              references x [e] ≠ 0%Z ∨ references x events ≠ 0%Z) as -> by lia.
      tauto.
Qed.

Lemma straight_line_counts_witness :
  ∃ s',
    Obfuscator.walk (Obfuscator.init false []) three_references = Normal s' ∧
    default 0%Z (Dict.get "x" (Scope.referenced_symbols (Obfuscator.heap s' !!! 0))) = 2%Z ∧
    Scope.local_declared_symbols (Obfuscator.heap s' !!! 0) = {["x"]}.
Proof.
  eexists. split; [vm_compute; reflexivity|].
  match goal with
  | |- context [Obfuscator.heap ?s' !!! 0] =>
      destruct (straight_line_counts (Obfuscator.init false []) s' three_references 0)
        as (_ & _ & _ & Hdecl & Hcount & _)
  end.
  - repeat constructor.
  - reflexivity.
  - cbn. lia.
  - vm_compute. reflexivity.
  - split; [exact (Hcount "x")|]. rewrite Hdecl. cbn. set_solver.
Defined.

(** ** Derived generators *)

(** X15: the generator that [__call__] derives does not depend on how many
    names its parent has yielded already: it starts again from the first
    name.  The names it yields are in neither of the two skip sets, and over
    a charset that is not empty it yields as many names as are asked for. *)
Theorem derived_generator_restarts (g g' : NameGenerator.t) (j k : nat)
    (yielded : list string) (skip : gset string) :
  NameGenerator.draw j g = Some (yielded, g') →
  NameGenerator.call g' skip = NameGenerator.call g skip ∧
  (∀ names g'', NameGenerator.draw k (NameGenerator.call g' skip) = Some (names, g'') →
                length names = k ∧
                Forall (λ s, (s ∉ skip) ∧ (s ∉ NameGenerator.skip g)) names) ∧
  (NameGenerator.charset g ≠ "" →
   is_Some (NameGenerator.draw k (NameGenerator.call g' skip))).
Proof.
  intros (Hskip & Hcharset & _)%draw_remaining.
  assert (NameGenerator.call g' skip = NameGenerator.call g skip) as Hcall.
  { unfold NameGenerator.call. by rewrite Hskip, Hcharset. }
  split; [done|]. rewrite Hcall. split.
  - intros names g'' Hdraw.
    destruct (draw_remaining _ _ _ _ Hdraw) as (_ & _ & _ & Hlen & _). split; [done|].
    pose proof (draw_not_skipped _ _ _ _ Hdraw) as Hall.
    eapply Forall_impl; [exact Hall|]. cbn. intros s Hs.
    split; intros Hin; apply Hs; set_solver.
  - intros Hne. by apply draw_is_Some.
Qed.

Lemma derived_generator_restarts_witness :
  ∃ g',
    NameGenerator.draw 2 (NameGenerator.init {["b"]} "abc") = Some (["a"; "c"], g') ∧
    NameGenerator.call g' {["a"]} = NameGenerator.call (NameGenerator.init {["b"]} "abc") {["a"]} ∧
    ∃ g'', NameGenerator.draw 2 (NameGenerator.call g' {["a"]}) = Some (["c"; "aa"], g'').
Proof.
  eexists. split; [vm_compute; reflexivity|]. split.
  - apply (derived_generator_restarts (NameGenerator.init {["b"]} "abc") _ 2 0 ["a"; "c"] {["a"]}).
    vm_compute; reflexivity.
  - eexists. vm_compute. reflexivity.
Defined.

(** X16: a generator over an empty charset never yields, and
    [build_remap_symbols] handed such a generator does not return from the
    first scope that has a declared symbol to rename; a scope without one
    is passed with its table unchanged. *)
Theorem empty_charset_diverges (h : list Scope.t) (self : nat) (gen : NameGenerator.t) :
  NameGenerator.charset gen = "" →
  (∀ skip lengths,
     NameGenerator.next_upto lengths (NameGenerator.call gen skip) = None) ∧
  (loop_symbols (h !!! self) ≠ [] → Scope.remap_own h self gen = Diverged) ∧
  (loop_symbols (h !!! self) = [] →
   Scope.remap_own h self gen =
     Normal (alter (Scope.set_remapped_symbols (Scope.remapped_symbols (h !!! self))) self h)).
Proof.
  intros Hcs.
  assert (∀ skip lengths,
            NameGenerator.next_upto lengths (NameGenerator.call gen skip) = None) as Hnone.
  { intros skip lengths. unfold NameGenerator.call, NameGenerator.init. rewrite Hcs.
    apply next_upto_empty_charset. }
  split; [done|].
  unfold Scope.remap_own. rewrite remap_loop_draw. unfold loop_symbols.
  set (items := eligible _ _). split.
  - intros Hne. destruct items as [|kv items]; [done|].
    cbn [length NameGenerator.draw]. unfold NameGenerator.next. by rewrite Hnone.
  - intros Hnil. apply fmap_nil_inv in Hnil. by rewrite Hnil.
Qed.

Lemma empty_charset_diverges_witness :
  Scope.remap_own two_declarations 0 (NameGenerator.init ∅ "") = Diverged.
Proof.
  apply (empty_charset_diverges two_declarations 0 (NameGenerator.init ∅ "")).
  - reflexivity.
  - vm_compute. discriminate.
Defined.

(** ** Equal counts *)

Section before_facts.
Context {A : Type}.
Implicit Types (x y z : A) (l : list A).

Lemma before_cons x y a l : before x y l → before x y (a :: l).
Proof. intros (l1 & l2 & -> & Hy). by exists (a :: l1), l2. Qed.

Lemma before_head x y l : y ∈ l → before x y (x :: l).
Proof. intros Hy. by exists [], l. Qed.

Lemma before_inv_cons x y a l :
  before x y (a :: l) → (x = a ∧ y ∈ l) ∨ before x y l.
Proof.
  intros (l1 & l2 & Heq & Hy). destruct l1 as [|b l1]; cbn in Heq.
  - injection Heq as <- <-. by left.
  - injection Heq as <- ->. right. by exists l1, l2.
Qed.

Lemma before_reverse x y l : before x y l → before y x (reverse l).
Proof.
  intros (l1 & l2 & -> & Hy).
  rewrite reverse_app, reverse_cons, <-app_assoc.
  apply elem_of_reverse in Hy. apply list_elem_of_split in Hy as (m1 & m2 & ->).
  exists m1, (m2 ++ [x] ++ reverse l1). split; [by rewrite <-!app_assoc|].
  rewrite !elem_of_app, list_elem_of_singleton. auto.
Qed.

Lemma before_filter (P : A → Prop) `{!∀ x, Decision (P x)} x y l :
  P x → P y → before x y l → before x y (filter P l).
Proof.
  intros Hx Hy (l1 & l2 & -> & Hin).
  exists (filter P l1), (filter P l2). rewrite filter_app, filter_cons_True by done.
  split; [done|]. by apply list_elem_of_filter.
Qed.

Lemma before_lookup x y l :
  before x y l → ∃ i j, l !! i = Some x ∧ l !! j = Some y ∧ i < j.
Proof.
  intros (l1 & l2 & -> & [k Hk]%list_elem_of_lookup).
  exists (length l1), (length l1 + S k). split; [|split].
  - by rewrite list_lookup_middle.
  - rewrite lookup_app_r by lia.
    by replace (length l1 + S k - length l1) with (S k) by lia.
  - lia.
Qed.

End before_facts.

Lemma insert_by_count_keeps_before {A : Type} (x y z : A * Z) (l : list (A * Z)) :
  before x y l → before x y (insert_by_count z l).
Proof.
  induction l as [|a l IH]; intros Hb.
  - destruct Hb as (l1 & l2 & Heq & _). by destruct l1.
  - cbn [insert_by_count]. case_bool_decide; [by apply before_cons|].
    apply before_inv_cons in Hb as [[-> Hy]|Hb].
    + apply before_head. rewrite insert_by_count_perm. apply elem_of_cons. by right.
    + by apply before_cons, IH.
Qed.

Lemma insert_by_count_before {A : Type} (y z : A * Z) (l : list (A * Z)) :
  StronglySorted (λ a b, a.2 ≤ b.2)%Z l → y ∈ l → (z.2 ≤ y.2)%Z →
  before z y (insert_by_count z l).
Proof.
  induction l as [|a l IH]; intros Hsorted Hy Hle; [by apply elem_of_nil in Hy|].
  cbn [insert_by_count]. case_bool_decide as Hza; [by apply before_head|].
  apply StronglySorted_inv in Hsorted as [Hsorted _].
  apply elem_of_cons in Hy as [->|Hy]; [lia|].
  by apply before_cons, IH.
Qed.

(** [sorted] is stable: entries with equal keys keep their order. *)
Lemma sorted_by_count_stable {A : Type} (x y : A * Z) (l : list (A * Z)) :
  before x y l → (x.2 ≤ y.2)%Z → before x y (sorted_by_count l).
Proof.
  induction l as [|a l IH]; intros Hb Hle.
  - destruct Hb as (l1 & l2 & Heq & _). by destruct l1.
  - cbn [sorted_by_count foldr]. fold (sorted_by_count l).
    apply before_inv_cons in Hb as [[-> Hy]|Hb].
    + apply insert_by_count_before; [apply sorted_by_count_sorted| |done].
      by rewrite sorted_by_count_perm.
    + by apply insert_by_count_keeps_before, IH.
Qed.

(** X17: among locally declared symbols with the same reference count, the
    one whose entry was put into [referenced_symbols] later is renamed
    first, so its replacement is not longer than the one of the symbol
    whose entry came earlier: [sorted] is stable and [reversed] turns the
    order of the ties around. *)
Theorem remap_tie_break (h h' : list Scope.t) (self : nat)
    (name_generator : NameGenerator.t) (s1 s2 : string) (c : Z) :
  self < length h →
  NoDup (Dict.keys (Scope.referenced_symbols (h !!! self))) →
  Scope.remap_own h self name_generator = Normal h' →
  s1 ∈ Scope.local_declared_symbols (h !!! self) →
  s2 ∈ Scope.local_declared_symbols (h !!! self) →
  before (s1, c) (s2, c) (Scope.referenced_symbols (h !!! self)) →
  ∃ r1 r2,
    Dict.get s1 (Scope.remapped_symbols (h' !!! self)) = Some r1 ∧
    Dict.get s2 (Scope.remapped_symbols (h' !!! self)) = Some r2 ∧
    (String.length r2 ≤ String.length r1)%nat.
Proof.
  intros Hlt Hnd (names & g' & Hdraw & Hlen & ->)%remap_own_Normal Hd1 Hd2 Hb.
  rewrite list_lookup_total_alter_eq by done.
  cbn [Scope.remapped_symbols Scope.set_remapped_symbols].
  set (E := eligible (Scope.local_declared_symbols (h !!! self))
                     (reverse (sorted_by_count (Scope.referenced_symbols (h !!! self))))).
  assert (before (s2, c) (s1, c) E) as (j & i & Hj & Hi & Hji)%before_lookup.
  { apply before_filter; [done|done|]. apply before_reverse.
    apply sorted_by_count_stable; [done|]. cbn. lia. }
  assert (loop_symbols (h !!! self) !! i = Some s1) as Hsi.
  { unfold loop_symbols. fold E. by rewrite list_lookup_fmap, Hi. }
  assert (loop_symbols (h !!! self) !! j = Some s2) as Hsj.
  { unfold loop_symbols. fold E. by rewrite list_lookup_fmap, Hj. }
  destruct (names !! i) as [r1|] eqn:Hr1;
    [|apply lookup_ge_None in Hr1; apply lookup_lt_Some in Hsi; lia].
  destruct (names !! j) as [r2|] eqn:Hr2;
    [|apply lookup_ge_None in Hr2; apply lookup_lt_Some in Hsj; lia].
  exists r1, r2. pose proof (loop_symbols_NoDup _ Hnd) as Hnds.
  split_and!; [by eapply assign_get|by eapply assign_get|].
  destruct (draw_no_longer _ _ _ _ Hdraw (fresh_pending_ok _ _)) as (_ & _ & Hsorted).
  apply (StronglySorted_lookup no_longer names j i r2 r1 Hsorted Hr2 Hr1 Hji).
Qed.

Lemma remap_tie_break_witness :
  ∃ h',
    Scope.remap_own tied_declarations 0 (NameGenerator.init ∅ "a") = Normal h' ∧
    Dict.get "x" (Scope.remapped_symbols (h' !!! 0)) = Some "aa" ∧
    Dict.get "y" (Scope.remapped_symbols (h' !!! 0)) = Some "a" ∧
    ∃ r1 r2,
      Dict.get "x" (Scope.remapped_symbols (h' !!! 0)) = Some r1 ∧
      Dict.get "y" (Scope.remapped_symbols (h' !!! 0)) = Some r2 ∧
      (String.length r2 ≤ String.length r1)%nat.
Proof.
  eexists. split; [vm_compute; reflexivity|].
  split; [vm_compute; reflexivity|]. split; [vm_compute; reflexivity|].
  apply (remap_tie_break tied_declarations _ 0 (NameGenerator.init ∅ "a") "x" "y" 1%Z).
  - cbn. lia.
  - by apply (bool_decide_unpack _).
  - vm_compute. reflexivity.
  - by apply (bool_decide_unpack _).
  - by apply (bool_decide_unpack _).
  - exists [], [("y", 1%Z)]. split; [reflexivity|]. apply elem_of_cons. by left.
Defined.

(** ** The table of scopes *)

Lemma handle_scopes (s s' : Obfuscator.t) (e : event) :
  Obfuscator.handle s e = Normal s' →
  Obfuscator.scopes s' =
    match e with
    | PushScope node => <[node := length (Obfuscator.heap s)]> (Obfuscator.scopes s)
    | _ => Obfuscator.scopes s
    end.
Proof.
  destruct e as [node|node|node|node]; cbn [Obfuscator.handle].
  - unfold Obfuscator.push_scope. destruct (Obfuscator.current_scope s) as [cur|]; [|done].
    unfold Scope.nest. by intros [= <-].
  - unfold Obfuscator.pop_scope. destruct (last (Obfuscator.stack s)); [|done].
    by intros (h & _ & ->)%on_heap_Normal.
  - unfold Obfuscator.declare. destruct (Obfuscator.current_scope s); [|done].
    by intros (h & _ & ->)%on_heap_Normal.
  - unfold Obfuscator.reference. destruct (Obfuscator.current_scope s); [|done].
    by intros (h & _ & ->)%on_heap_Normal.
Qed.

Lemma handle_node (s s' : Obfuscator.t) (e : event) (a : nat) :
  collected s → Obfuscator.handle s e = Normal s' → a < length (Obfuscator.heap s) →
  Scope.node (Obfuscator.heap s' !!! a) = Scope.node (Obfuscator.heap s !!! a).
Proof.
  intros (Ht & Hd & Hu & Hstack & Hroot).
  destruct e as [node|node|node|node]; cbn [Obfuscator.handle].
  - unfold Obfuscator.push_scope. destruct (Obfuscator.current_scope s) as [cur|]; [|done].
    unfold Scope.nest. intros [= <-] Ha. cbn [Obfuscator.set_stack Obfuscator.set_scopes
      Obfuscator.set_heap Obfuscator.heap].
    rewrite (alter_field Scope.node) by by intros [].
    by rewrite lookup_total_app_l.
  - unfold Obfuscator.pop_scope. destruct (last (Obfuscator.stack s)) as [top|]; [|done].
    intros (h & Hclose & ->)%on_heap_Normal _. cbn in Hclose |- *.
    apply close_Normal in Hclose as ->; [|done].
    by rewrite (alter_field Scope.node) by by intros [].
  - unfold Obfuscator.declare. destruct (Obfuscator.current_scope s); [|done].
    intros (h & [= <-] & ->)%on_heap_Normal _. cbn.
    by rewrite (alter_field Scope.node) by by intros [].
  - unfold Obfuscator.reference. destruct (Obfuscator.current_scope s); [|done].
    intros (h & [= <-] & ->)%on_heap_Normal _. cbn.
    by rewrite (alter_field Scope.node) by by intros [].
Qed.

Lemma push_scope_node (s s' : Obfuscator.t) (node : nat) :
  Obfuscator.push_scope s node = Normal s' →
  length (Obfuscator.heap s') = S (length (Obfuscator.heap s)) ∧
  Scope.node (Obfuscator.heap s' !!! length (Obfuscator.heap s)) = Some node.
Proof.
  unfold Obfuscator.push_scope. destruct (Obfuscator.current_scope s) as [cur|]; [|done].
  unfold Scope.nest. intros [= <-]. cbn [Obfuscator.set_stack Obfuscator.set_scopes
    Obfuscator.set_heap Obfuscator.heap].
  rewrite length_alter, length_app. split; [cbn; lia|].
  rewrite (alter_field Scope.node) by by intros [].
  rewrite snoc_lookup_total. by case_decide.
Qed.

(** X18: after a collection pass the table [scopes] has an entry for a
    node exactly when a scope was entered for it.  The entry is a scope
    below the root that [nest] made for that node, and the most recent of
    them: no scope with that node has a greater address, and [nest] gives
    every new scope the next address.  Every scope below the root has a
    node, and that node has an entry; the root scope itself belongs to no
    node. *)
Theorem scopes_table (obfuscate_globals : bool) (reserved_keywords : list string)
    (events : list event) (st : Obfuscator.t) :
  Obfuscator.walk (Obfuscator.init obfuscate_globals reserved_keywords) events = Normal st →
  (∀ n, is_Some (Obfuscator.scopes st !! n) ↔ PushScope n ∈ events) ∧
  (∀ n a, Obfuscator.scopes st !! n = Some a →
          0 < a < length (Obfuscator.heap st) ∧
          Scope.node (Obfuscator.heap st !!! a) = Some n) ∧
  (∀ n a a', Obfuscator.scopes st !! n = Some a →
             a' < length (Obfuscator.heap st) →
             Scope.node (Obfuscator.heap st !!! a') = Some n → a' ≤ a) ∧
  (∀ a, 0 < a < length (Obfuscator.heap st) →
        ∃ n, Scope.node (Obfuscator.heap st !!! a) = Some n ∧
             is_Some (Obfuscator.scopes st !! n)) ∧
  Scope.node (Obfuscator.heap st !!! 0) = None.
Proof.
  intros Hwalk. split.
  - assert (∀ s, Obfuscator.walk s events = Normal st →
                 ∀ n, is_Some (Obfuscator.scopes st !! n) ↔
                      is_Some (Obfuscator.scopes s !! n) ∨ PushScope n ∈ events) as Hgen.
    { clear Hwalk. induction events as [|e events IH]; intros s.
      - intros [= <-] n. split; [by left|]. intros [?|?%elem_of_nil]; done.
      - intros (s' & He & Hwalk)%walk_Normal_cons n.
        rewrite (IH s' Hwalk), (handle_scopes s s' e He), elem_of_cons.
        destruct e as [node|node|node|node]; try naive_solver.
        destruct (decide (node = n)) as [->|Hne].
        + rewrite lookup_insert_eq. naive_solver.
        + rewrite lookup_insert_ne by done. naive_solver. }
    intros n. rewrite (Hgen _ Hwalk). cbn. rewrite lookup_empty.
    split; [intros [[? ?]|?]; done|by right].
  - apply (walk_invariant
             (λ s, collected s ∧
                   (∀ n a, Obfuscator.scopes s !! n = Some a →
                           0 < a < length (Obfuscator.heap s) ∧
                           Scope.node (Obfuscator.heap s !!! a) = Some n) ∧
                   (∀ n a a', Obfuscator.scopes s !! n = Some a →
                              a' < length (Obfuscator.heap s) →
                              Scope.node (Obfuscator.heap s !!! a') = Some n → a' ≤ a) ∧
                   (∀ a, 0 < a < length (Obfuscator.heap s) →
                         ∃ n, Scope.node (Obfuscator.heap s !!! a) = Some n ∧
                              is_Some (Obfuscator.scopes s !! n)) ∧
                   Scope.node (Obfuscator.heap s !!! 0) = None)
             events (Obfuscator.init obfuscate_globals reserved_keywords) st) in Hwalk.
    + by destruct Hwalk as (_ & ? & ? & ? & ?).
    + intros s s' e _ (Hc & Htab & Hlast & Hall & Hroot) He.
      pose proof (handle_length _ _ _ Hc He) as Hlen.
      pose proof (handle_scopes _ _ _ He) as Hsc.
      pose proof (λ a, handle_node s s' e a Hc He) as Hnode.
      pose proof Hc as (Ht & _). pose proof (tree_nonempty _ Ht) as Hpos.
      assert (match e with
              | PushScope node =>
                  length (Obfuscator.heap s') = S (length (Obfuscator.heap s)) ∧
                  Scope.node (Obfuscator.heap s' !!! length (Obfuscator.heap s)) = Some node
              | _ => length (Obfuscator.heap s') = length (Obfuscator.heap s)
              end) as Hshape.
      { destruct e as [node|node|node|node]; cbn [Obfuscator.handle] in He.
        - by apply push_scope_node.
        - unfold Obfuscator.pop_scope in He.
          destruct (last (Obfuscator.stack s)) as [top|]; [|done].
          apply on_heap_Normal in He as (h & Hclose & ->). cbn in Hclose |- *.
          destruct Hc as (? & ? & ? & _).
          by apply close_invariants in Hclose as (_ & _ & _ & ->).
        - unfold Obfuscator.declare in He. destruct (Obfuscator.current_scope s); [|done].
          apply on_heap_Normal in He as (h & [= <-] & ->). cbn. by rewrite length_alter.
        - unfold Obfuscator.reference in He. destruct (Obfuscator.current_scope s); [|done].
          apply on_heap_Normal in He as (h & [= <-] & ->). cbn. by rewrite length_alter. }
      split; [by eapply handle_collected|].
      destruct e as [node|node|node|node];
        try (rewrite Hsc, Hshape; split_and!;
             [intros n a [Ha Hn]%Htab; split; [done|]; by rewrite Hnode by lia
             |intros n a a' Hna Ha' Hn'; rewrite Hnode in Hn' by done; by eapply Hlast
             |intros a Ha; rewrite Hnode by lia; by apply Hall
             |by rewrite Hnode by lia]).
      destruct Hshape as [Hlen' Hnew]. rewrite Hsc, Hlen'. split_and!.
      * intros n a. destruct (decide (node = n)) as [->|Hne].
        -- rewrite lookup_insert_eq. intros [= <-]. split; [lia|done].
        -- rewrite lookup_insert_ne by done. intros [Ha Hn]%Htab. split; [lia|].
           by rewrite Hnode by lia.
      * intros n a a'. destruct (decide (node = n)) as [->|Hne].
        -- rewrite lookup_insert_eq. intros [= <-] Ha' _. lia.
        -- rewrite lookup_insert_ne by done. intros Hna Ha' Hn'.
           destruct (decide (a' = length (Obfuscator.heap s))) as [->|Hne'].
           ++ rewrite Hnew in Hn'. by injection Hn' as ->.
           ++ rewrite Hnode in Hn' by lia. eapply Hlast; [done| |done]. lia.
      * intros a Ha. destruct (decide (a = length (Obfuscator.heap s))) as [->|Hne].
        -- exists node. split; [done|]. by rewrite lookup_insert_eq.
        -- destruct (Hall a ltac:(lia)) as (n & Hn & Hsome). exists n.
           rewrite Hnode by lia. split; [done|].
           destruct (decide (node = n)) as [->|Hne'].
           ++ by rewrite lookup_insert_eq.
           ++ by rewrite lookup_insert_ne.
      * by rewrite Hnode by lia.
    + split; [apply init_collected|]. split_and!.
      * intros n a. cbn. by rewrite lookup_empty.
      * intros n a a'. cbn. by rewrite lookup_empty.
      * intros a. cbn. lia.
      * done.
Qed.

Lemma scopes_table_witness :
  ∃ st,
    Obfuscator.walk (Obfuscator.init false []) [PushScope 7; PopScope 7; PushScope 7]
      = Normal st ∧
    Scope.node (Obfuscator.heap st !!! 1) = Some 7 ∧
    Scope.node (Obfuscator.heap st !!! 2) = Some 7 ∧
    Obfuscator.scopes st !! 7 = Some 2.
Proof.
  eexists. split; [vm_compute; reflexivity|].
  split; [reflexivity|]. split; [reflexivity|].
  destruct (scopes_table false [] [PushScope 7; PopScope 7; PushScope 7] _
              ltac:(vm_compute; reflexivity)) as (_ & Htab & Hlast & Hall & _).
  destruct (Hall 1 ltac:(vm_compute; lia)) as (n & Hn & [a Ha]).
  injection Hn as <-.
  pose proof (Hlast 7 a 2 Ha ltac:(vm_compute; lia) eq_refl) as Hge.
  destruct (Htab 7 a Ha) as [Hlt _].
  assert (a = 2) as -> by (vm_compute in Hlt; lia).
  exact Ha.
Defined.

(** * Layout handlers *)

Lemma str_mul_length (n : Z) : String.length (str_mul " " n) = Z.to_nat n.
Proof.
  unfold str_mul. induction (Z.to_nat n) as [|k IH]; [done|].
  cbn [replicate foldr].
  change (String.length (String " "%char (foldr String.append "" (replicate k " "))) = S k).
  cbn [String.length]. by rewrite IH.
Qed.

Lemma str_mul_spaces (n : Z) :
  Forall (λ c, c = " "%char) (list_ascii_of_string (str_mul " " n)).
Proof.
  unfold str_mul. induction (Z.to_nat n) as [|k IH]; [constructor|].
  cbn [replicate foldr].
  change (Forall (λ c, c = " "%char)
            (" "%char :: list_ascii_of_string (foldr String.append "" (replicate k " ")))).
  by constructor.
Qed.

Lemma str_mul_empty (n : Z) : str_mul " " n = "" ↔ (n ≤ 0)%Z.
Proof.
  split.
  - intros Hnil. pose proof (str_mul_length n) as Hlen. rewrite Hnil in Hlen.
    cbn in Hlen. lia.
  - intros Hle. unfold str_mul. by replace (Z.to_nat n) with 0 by lia.
Qed.

Lemma run_snoc (self : Indentation.t) (rules : list layout_rule) (rule : layout_rule) :
  Indentation.run self (rules ++ [rule]) =
    ((Indentation.handler (Indentation.run self rules).1 rule).1,
     (Indentation.run self rules).2 ++
       (Indentation.handler (Indentation.run self rules).1 rule).2).
Proof.
  unfold Indentation.run. rewrite foldl_app. cbn [foldl].
  by destruct (Indentation.handler _ rule).
Qed.

Lemma level_changes_snoc (rules : list layout_rule) (rule : layout_rule) :
  level_changes (rules ++ [rule]) = (level_changes rules + level_change rule)%Z.
Proof.
  induction rules as [|r rules IH]; cbn [level_changes foldr app].
  - lia.
  - fold (level_changes (rules ++ [rule])). fold (level_changes rules). lia.
Qed.

(** X19: the level of an [Indentation] is the number of indents less the
    number of dedents handled so far, whatever their order: a dedent is not
    refused at level 0 and takes the level below it.  The width [indent] is
    never changed, and only [Newline] yields chunks. *)
Theorem indentation_level (self : Indentation.t) (rules : list layout_rule) :
  Indentation.indent (Indentation.run self rules).1 = Indentation.indent self ∧
  Indentation._level (Indentation.run self rules).1 =
    (Indentation._level self + level_changes rules)%Z ∧
  (Newline ∉ rules → (Indentation.run self rules).2 = []).
Proof.
  induction rules as [|rule rules IH] using rev_ind.
  - cbn. split_and!; [done|lia|done].
  - destruct IH as (Hindent & Hlevel & Hout).
    rewrite run_snoc, level_changes_snoc. cbn [fst snd].
    destruct rule; cbn [Indentation.handler Indentation.layout_handler_indent
      Indentation.layout_handler_dedent Indentation.layout_handler_newline
      Indentation.indent Indentation._level level_change fst snd].
    + split_and!; [done|lia|]. intros Hnin. rewrite Hout, app_nil_r; [done|].
      intros Hin. apply Hnin, elem_of_app. by left.
    + split_and!; [done|lia|]. intros Hnin. rewrite Hout, app_nil_r; [done|].
      intros Hin. apply Hnin, elem_of_app. by left.
    + split_and!; [done|lia|]. intros Hnin. exfalso. apply Hnin, elem_of_app. right.
      by apply list_elem_of_singleton.
Qed.

Lemma indentation_level_witness :
  Indentation._level (Indentation.run (indentation 2) [Dedent; Dedent; Indent]).1 = (-1)%Z ∧
  (Indentation.run (indentation 2) [Dedent; Dedent; Indent]).2 = [].
Proof.
  destruct (indentation_level (indentation 2) [Dedent; Dedent; Indent]) as (_ & Hlevel & Hout).
  split; [exact Hlevel|]. apply Hout.
  intros Hin. repeat (apply elem_of_cons in Hin as [Hin|Hin]; [discriminate|]).
  by apply elem_of_nil in Hin.
Defined.

(** X20: the newline handler yields the line feed with line and column 0,
    and after it one chunk of [indent * _level] spaces without a position
    when that product is positive; when the product is zero or negative,
    as it is after more dedents than indents, it yields the line feed only.
    It leaves the state as it is. *)
Theorem newline_indentation (self : Indentation.t) :
  (Indentation.layout_handler_newline self).1 = self ∧
  ((Indentation.indent self * Indentation._level self ≤ 0)%Z →
   (Indentation.layout_handler_newline self).2 = [(LF, Some 0%Z, Some 0%Z, None)]) ∧
  ((0 < Indentation.indent self * Indentation._level self)%Z →
   ∃ indents,
     (Indentation.layout_handler_newline self).2 =
       [(LF, Some 0%Z, Some 0%Z, None); (indents, None, None, None)] ∧
     String.length indents =
       Z.to_nat (Indentation.indent self * Indentation._level self) ∧
     Forall (λ c, c = " "%char) (list_ascii_of_string indents)).
Proof.
  unfold Indentation.layout_handler_newline. cbn [fst snd]. split_and!; [done| |].
  - intros Hle. by rewrite decide_True by by apply str_mul_empty.
  - intros Hlt. rewrite decide_False by (rewrite str_mul_empty; lia).
    eexists. split; [done|]. split; [apply str_mul_length|apply str_mul_spaces].
Qed.

Lemma newline_indentation_witness :
  (Indentation.run (indentation 2) [Indent; Indent; Newline]).2 =
    [(LF, Some 0%Z, Some 0%Z, None); ("    ", None, None, None)] ∧
  (Indentation.layout_handler_newline (Indentation.mk 2 (-1))).2 =
    [(LF, Some 0%Z, Some 0%Z, None)].
Proof.
  split; [reflexivity|].
  apply (newline_indentation (Indentation.mk 2 (-1))). cbn. lia.
Defined.

(** * Token handlers *)



(** ** Unbalanced traversals *)

(** C3, amended: at every point of a collection pass [pop_scope] raises
    exactly when the stack is empty, the [IndexError] of [list.pop], and
    leaves the state as it is; otherwise it pops the top scope and closes
    it without error, also when the root is the only scope left.
    [finalize] does not read the stack: its outcome is the same for any
    other stack.  After the pass it returns whenever a scope is left on the
    stack, however many are still open, and raises the [ValueError] of
    [close] exactly when the pass has popped the root. *)
Theorem unbalanced_traversal_behaviour (obfuscate_globals : bool)
    (reserved_keywords : list string) (events : list event) (st : Obfuscator.t)
    (node : nat) :
  Obfuscator.walk (Obfuscator.init obfuscate_globals reserved_keywords) events = Normal st →
  (Obfuscator.stack st = [] →
   Obfuscator.pop_scope st node = Raised (IndexError "pop from empty list") st) ∧
  (∀ e st', Obfuscator.pop_scope st node = Raised e st' →
            Obfuscator.stack st = [] ∧ e = IndexError "pop from empty list" ∧ st' = st) ∧
  (∀ rest top,
     Obfuscator.stack st = rest ++ [top] →
     ∃ h, Scope.close (Obfuscator.heap st) top = Normal h ∧
          Obfuscator.pop_scope st node =
            Normal (Obfuscator.set_heap h (Obfuscator.set_stack rest st))) ∧
  (Obfuscator.stack st = [0] →
   ∃ h, Scope.close (Obfuscator.heap st) 0 = Normal h ∧
        Obfuscator.pop_scope st node =
          Normal (Obfuscator.set_heap h (Obfuscator.set_stack [] st))) ∧
  (∀ s, Obfuscator.finalize (Obfuscator.set_stack s st) =
        outcome_map (Obfuscator.set_stack s) (Obfuscator.finalize st)) ∧
  (Obfuscator.stack st ≠ [] → ∃ st', Obfuscator.finalize st = Normal st') ∧
  (Obfuscator.stack st = [] →
   Obfuscator.finalize st = Raised (ValueError "scope is already marked as closed") st).
Proof.
  intros [Hc (Hchain & _ & Hopen)]%walk_nesting.
  pose proof Hc as (Ht & _ & _ & Hstack & Hroot).
  assert (∀ rest top,
            Obfuscator.stack st = rest ++ [top] →
            ∃ h, Scope.close (Obfuscator.heap st) top = Normal h ∧
                 Obfuscator.pop_scope st node =
                   Normal (Obfuscator.set_heap h (Obfuscator.set_stack rest st))) as Hpop.
  { intros rest top Hrest. apply pop_scope_open_top; [done|].
    assert (top ∈ Obfuscator.stack st) as Hin.
    { rewrite Hrest. apply elem_of_app. right. by apply list_elem_of_singleton. }
    apply Hopen; [|done]. rewrite Forall_forall in Hstack. by apply Hstack. }
  assert (Obfuscator.stack st = [] →
          Obfuscator.pop_scope st node = Raised (IndexError "pop from empty list") st)
    as Hempty.
  { intros Hnil. unfold Obfuscator.pop_scope. by rewrite Hnil. }
  split_and!.
  - exact Hempty.
  - intros e st' Hraised.
    destruct (Obfuscator.stack st) as [|a l] eqn:Hst using rev_ind.
    + rewrite Hempty in Hraised by done. by injection Hraised as <- <-.
    + destruct (Hpop l a eq_refl) as (h & _ & Hnormal). by rewrite Hnormal in Hraised.
  - exact Hpop.
  - intros Hone. by apply (Hpop [] 0).
  - intros s. unfold Obfuscator.finalize. simpl.
    destruct (Scope.close _ _) as [h|e h|]; simpl; [|done|done].
    destruct (Scope.build_remap_symbols _ _ _ _); done.
  - intros Hne. apply finalize_returns; [done|]. apply Hopen; [apply Ht|].
    destruct (Obfuscator.stack st) as [|a rest]; [done|].
    cbn [chain] in Hchain. destruct Hchain as [Hpar _].
    apply Forall_cons in Hstack as [Ha _].
    rewrite <-(tree_root _ Ht a Ha Hpar). apply elem_of_cons; auto.
  - intros Hnil. apply finalize_closed_root; [done|].
    destruct (Scope._closed (Obfuscator.heap st !!! 0)) eqn:Hcl; [done|].
    apply Hopen in Hcl; [|apply Ht]. rewrite Hnil in Hcl. by apply elem_of_nil in Hcl.
Qed.

Lemma unbalanced_traversal_behaviour_witness :
  (∃ st h,
     Obfuscator.walk (Obfuscator.init false []) [PushScope 1; PopScope 1] = Normal st ∧
     Obfuscator.stack st = [0] ∧
     Scope.close (Obfuscator.heap st) 0 = Normal h ∧
     Obfuscator.pop_scope st 5 =
       Normal (Obfuscator.set_heap h (Obfuscator.set_stack [] st))) ∧
  (∃ st st',
     Obfuscator.walk (Obfuscator.init false []) [PushScope 1; PushScope 2] = Normal st ∧
     Obfuscator.stack st = [0; 1; 2] ∧
     Obfuscator.finalize st = Normal st') ∧
  (∃ st,
     Obfuscator.walk (Obfuscator.init false []) [PopScope 1] = Normal st ∧
     Obfuscator.stack st = [] ∧
     Obfuscator.pop_scope st 5 = Raised (IndexError "pop from empty list") st ∧
     Obfuscator.finalize st = Raised (ValueError "scope is already marked as closed") st).
Proof.
  split_and!.
  - eexists.
    destruct (unbalanced_traversal_behaviour false [] [PushScope 1; PopScope 1] _ 5
                ltac:(vm_compute; reflexivity)) as (_ & _ & _ & Hroot & _).
    destruct (Hroot eq_refl) as (h & Hclose & Hpop).
    exists h. split; [reflexivity|]. split; [reflexivity|]. split; [exact Hclose|exact Hpop].
  - eexists.
    destruct (unbalanced_traversal_behaviour false [] [PushScope 1; PushScope 2] _ 5
                ltac:(vm_compute; reflexivity)) as (_ & _ & _ & _ & _ & Hfin & _).
    destruct Hfin as [st' Hst']; [discriminate|].
    exists st'. split; [reflexivity|]. split; [reflexivity|exact Hst'].
  - eexists.
    destruct (unbalanced_traversal_behaviour false [] [PopScope 1] _ 5
                ltac:(vm_compute; reflexivity)) as (Hpop & _ & _ & _ & _ & _ & Hfin).
    split; [reflexivity|]. split; [reflexivity|].
    split; [exact (Hpop eq_refl)|exact (Hfin eq_refl)].
Defined.
